(** * build-thread: threading annotations into a reply tree

    A shallow embedding of the sidebar's thread builder (the module whose
    default export is [buildThread]) and the properties of it that the
    design document states.

    Conventions of the embedding.

    - The thread map [threads] of [threadAnnotations] is a JavaScript object
      used as a dictionary.  It is a finite map from keys to thread objects
      together with the order in which the keys were created, which is what
      [for ... in] enumerates.  Keys are assumed not to be names inherited
      from [Object.prototype]; a theorem on whether a call returns or
      raises states this as the hypothesis [ownKeys].
    - A thread object holds its children as an array of references to other
      thread objects of the same map.  A reference is the key under which
      the object is stored: once the second loop of [threadAnnotations]
      starts, no key is ever rebound.
    - [hasPathToRoot] is an unbounded recursion.  Functions that call it
      take a fuel argument and return [OutOfFuel] when it is exhausted; a
      call that returns [OutOfFuel] for every fuel does not return.
    - [TypeError] is the exception raised by reading a property of
      [undefined]. *)

From Stdlib Require Import ZArith List String Ascii Bool Lia Permutation Sorted.
From stdpp Require Import base option gmap strings list sorting.
Import ListNotations.

Set Warnings "-register-all".

Local Open Scope string_scope.
Local Open Scope Z_scope.
Local Open Scope list_scope.

(** ** Results of partial computations *)

Inductive result (A : Type) : Type :=
| Ok (a : A)
| TypeError
| OutOfFuel.
Arguments Ok {A} a.
Arguments TypeError {A}.
Arguments OutOfFuel {A}.

#[global] Instance result_bind : MBind result := fun A B k r =>
  match r with
  | Ok a => k a
  | TypeError => TypeError
  | OutOfFuel => OutOfFuel
  end.

(** [array.forEach] with a body that updates a state and may fail. *)
Fixpoint forEach {A S : Type} (body : S -> A -> result S) (l : list A) (s : S)
  : result S :=
  match l with
  | [] => Ok s
  | a :: l' => s' ← body s a; forEach body l' s'
  end.

(** ** Data model *)

(** The fields of an annotation record that the module reads. *)
Record Annotation : Type := mkAnnotation {
  ann_id : option string;              (* [id], absent until saved *)
  ann_tag : string;                    (* [$tag] *)
  references : option (list string);   (* [references], may be absent *)
  created : string
}.

Inductive Highlight : Type := dim | highlight.

(** A thread whose [children] have type [C]: references (keys) while the
    thread map is being built, sub-threads in the trees of the projector.
    [depth] and [replyCount] are absent until [countRepliesAndDepth]. *)
Record Thread_ (C : Type) : Type := mkThread {
  id : string;
  annotation : option Annotation;
  parent : option string;
  visible : bool;
  collapsed : bool;
  children : list C;
  totalChildren : Z;
  highlightState : option Highlight;
  depth : option Z;
  replyCount : option Z
}.
Arguments mkThread {C}.
Arguments id {C}.
Arguments annotation {C}.
Arguments parent {C}.
Arguments visible {C}.
Arguments collapsed {C}.
Arguments children {C}.
Arguments totalChildren {C}.
Arguments highlightState {C}.
Arguments depth {C}.
Arguments replyCount {C}.

(** Thread objects of the thread map. *)
Abbreviation ThreadObj := (Thread_ string).

(** Thread trees. *)
Inductive Thread : Type :=
| Node (t : Thread_ Thread).

Definition node (t : Thread) : Thread_ Thread :=
  match t with Node n => n end.

(** Object spread with one overridden property. *)
Definition with_children {C D : Type} (t : Thread_ C) (cs : list D) : Thread_ D :=
  mkThread (id t) (annotation t) (parent t) (visible t) (collapsed t) cs
           (totalChildren t) (highlightState t) (depth t) (replyCount t).

Definition with_parent {C : Type} (t : Thread_ C) (p : option string) : Thread_ C :=
  mkThread (id t) (annotation t) p (visible t) (collapsed t) (children t)
           (totalChildren t) (highlightState t) (depth t) (replyCount t).

Definition with_visible {C : Type} (t : Thread_ C) (v : bool) : Thread_ C :=
  mkThread (id t) (annotation t) (parent t) v (collapsed t) (children t)
           (totalChildren t) (highlightState t) (depth t) (replyCount t).

Definition with_collapsed {C : Type} (t : Thread_ C) (c : bool) : Thread_ C :=
  mkThread (id t) (annotation t) (parent t) (visible t) c (children t)
           (totalChildren t) (highlightState t) (depth t) (replyCount t).

Definition with_highlightState {C : Type} (t : Thread_ C) (h : option Highlight)
  : Thread_ C :=
  mkThread (id t) (annotation t) (parent t) (visible t) (collapsed t) (children t)
           (totalChildren t) h (depth t) (replyCount t).

Definition with_counts {C D : Type} (t : Thread_ C) (cs : list D) (d r : Z)
  : Thread_ D :=
  mkThread (id t) (annotation t) (parent t) (visible t) (collapsed t) cs
           (totalChildren t) (highlightState t) (Some d) (Some r).

Definition with_id {C : Type} (t : Thread_ C) (i : string) : Thread_ C :=
  mkThread i (annotation t) (parent t) (visible t) (collapsed t) (children t)
           (totalChildren t) (highlightState t) (depth t) (replyCount t).

Definition with_annotation {C : Type} (t : Thread_ C) (a : option Annotation)
  : Thread_ C :=
  mkThread (id t) a (parent t) (visible t) (collapsed t) (children t)
           (totalChildren t) (highlightState t) (depth t) (replyCount t).

Definition with_totalChildren {C : Type} (t : Thread_ C) (n : Z) : Thread_ C :=
  mkThread (id t) (annotation t) (parent t) (visible t) (collapsed t) (children t)
           n (highlightState t) (depth t) (replyCount t).

(** [DEFAULT_THREAD_STATE].  It has no [children] property; every use
    spreads it together with a [children] array. *)
Definition DEFAULT_THREAD_STATE : ThreadObj :=
  mkThread "__default__" None None true false [] 0 None None None.

(** Truthiness of a string-or-undefined property. *)
Definition truthy (p : option string) : bool :=
  match p with
  | None => false
  | Some s => negb (String.eqb s "")
  end.

Definition annotationId (a : Annotation) : string :=
  match ann_id a with
  | Some s => if String.eqb s "" then ann_tag a else s
  | None => ann_tag a
  end.

(** ** The thread map *)

(** [objs] binds keys to thread objects, [order] lists the keys in the
    order in which they were first bound. *)
Record Threads : Type := mkThreads {
  objs : gmap string ThreadObj;
  order : list string
}.

Definition emptyThreads : Threads := mkThreads ∅ [].

(** [threads[k] = o], also used for an update in place of the object
    stored under [k]. *)
Definition store (k : string) (o : ThreadObj) (threads : Threads) : Threads :=
  mkThreads (<[k := o]> (objs threads))
            (match objs threads !! k with
             | Some _ => order threads
             | None => order threads ++ [k]
             end).

(** Keys that are array indices (canonical decimal numerals below
    [2^32 - 1]) are enumerated first, in ascending numeric order; the other
    keys follow in creation order. *)
Definition digit (c : ascii) : option N :=
  let n := N_of_ascii c in
  if ((48 <=? n) && (n <=? 57))%N then Some (n - 48)%N else None.

Fixpoint digits (s : string) (acc : N) : option N :=
  match s with
  | EmptyString => Some acc
  | String c s' =>
      match digit c with
      | Some d => digits s' (10 * acc + d)%N
      | None => None
      end
  end.

Definition arrayIndex (s : string) : option N :=
  match s with
  | EmptyString => None
  | String c s' =>
      if Ascii.eqb c "0"%char then
        match s' with EmptyString => Some 0%N | _ => None end
      else
        match digits s 0%N with
        | Some n => if (n <? 2 ^ 32 - 1)%N then Some n else None
        | None => None
        end
  end.

Fixpoint insertIndex (k : N * string) (l : list (N * string)) : list (N * string) :=
  match l with
  | [] => [k]
  | k' :: l' => if (fst k <? fst k')%N then k :: l else k' :: insertIndex k l'
  end.

Definition indexKeys (keys : list string) : list (N * string) :=
  fold_right
    (fun k acc => match arrayIndex k with
                  | Some n => insertIndex (n, k) acc
                  | None => acc
                  end)
    [] keys.

(** The keys visited by [for (const k in threads)]. *)
Definition forIn (threads : Threads) : list string :=
  map snd (indexKeys (order threads))
  ++ List.filter (fun k => match arrayIndex k with Some _ => false | None => true end)
                 (order threads).

(** ** Tree builder *)

Fixpoint hasPathToRoot (fuel : nat) (threads : Threads) (tid ancestorId : string)
  : result bool :=
  match fuel with
  | O => OutOfFuel
  | S fuel' =>
      match objs threads !! ancestorId with
      | None => Ok false
      | Some ancestor =>
          if decide (parent ancestor = Some tid) then
            (* Thread for ancestor points at [tid]: circular reference *)
            Ok false
          else
            match parent ancestor with
            | None => Ok true
            | Some p =>
                if truthy (Some p) then hasPathToRoot fuel' threads tid p
                else Ok true
            end
      end
  end.

(** [threads[tid].parent = parentId] *)
Definition assignParent (threads : Threads) (tid parentId : string) : result Threads :=
  match objs threads !! tid with
  | None => TypeError
  | Some t => Ok (store tid (with_parent t (Some parentId)) threads)
  end.

(** [threads[parentId].children.push(threads[tid])] *)
Definition pushChild (threads : Threads) (parentId tid : string) : result Threads :=
  match objs threads !! parentId with
  | None => TypeError
  | Some p => Ok (store parentId (with_children p (children p ++ [tid])) threads)
  end.

Fixpoint setParent (fuel : nat) (threads : Threads) (tid : string)
         (parents : list string) : result Threads :=
  match fuel with
  | O => OutOfFuel
  | S fuel' =>
      match objs threads !! tid with
      | None => TypeError
      | Some t =>
          if truthy (parent t) then Ok threads
          else
            match last parents with
            | None => Ok threads
            | Some parentId =>
                threads1 ←
                  match objs threads !! parentId with
                  | None =>
                      setParent fuel'
                        (store parentId (with_children DEFAULT_THREAD_STATE []) threads)
                        parentId (removelast parents)
                  | Some _ => Ok threads
                  end;
                ok ← hasPathToRoot fuel' threads1 tid parentId;
                if ok : bool then
                  threads2 ← assignParent threads1 tid parentId;
                  pushChild threads2 parentId tid
                else Ok threads1
            end
      end
  end.

(** The thread created for an annotation by the first loop. *)
Definition newThread (a : Annotation) : ThreadObj :=
  with_id (with_annotation (with_children DEFAULT_THREAD_STATE []) (Some a))
          (annotationId a).

(** Body of the [for ... in] loop: top-level threads are collapsed and
    collected. *)
Definition collectRoot (st : Threads * list string) (k : string)
  : Threads * list string :=
  match objs (fst st) !! k with
  | Some t =>
      if truthy (parent t) then st
      else (store k (with_collapsed t true) (fst st), snd st ++ [k])
  | None => st
  end.

(** The first loop of [threadAnnotations]: a thread for each annotation. *)
Definition initialThreads (annotations : list Annotation) : Threads :=
  fold_left (fun threads a => store (annotationId a) (newThread a) threads)
            annotations emptyThreads.

(** The second loop of [threadAnnotations]: ancestral relationships. *)
Definition linkThreads (fuel : nat) (annotations : list Annotation)
           (threads : Threads) : result Threads :=
  forEach (fun threads a =>
             setParent fuel threads (annotationId a) (default [] (references a)))
          annotations threads.

(** [threadAnnotations] returns the root thread; its children are references
    into the thread map, which is returned with it. *)
Definition threadAnnotations (fuel : nat) (annotations : list Annotation)
  : result (Threads * ThreadObj) :=
  let threads0 := initialThreads annotations in
  threads1 ← linkThreads fuel annotations threads0;
  let '(threads2, rootThreads) :=
    fold_left collectRoot (forIn threads1) (threads1, []) in
  Ok (threads2,
      with_totalChildren
        (with_children (with_id DEFAULT_THREAD_STATE "root") rootThreads)
        (Z.of_nat (length rootThreads))).

(** ** Traversals of thread trees *)

(** [mapThread] on a thread tree. *)
Fixpoint mapThread (thread : Thread) (mapFn : Thread -> Thread_ Thread) : Thread :=
  match thread with
  | Node n =>
      Node (with_children (mapFn thread)
                          (map (fun child => mapThread child mapFn) (children n)))
  end.

Fixpoint mapResult {A B : Type} (f : A -> result B) (l : list A) : result (list B) :=
  match l with
  | [] => Ok []
  | a :: l' => b ← f a; bs ← mapResult f l'; Ok (b :: bs)
  end.

(** [mapThread] on the root returned by [threadAnnotations]: the children
    are read through their references, and the copy that is returned is a
    tree.  The recursion follows the [children] arrays of the thread map and
    is bounded by [fuel]. *)
Fixpoint mapThreadRef (fuel : nat) (threads : Threads) (thread : ThreadObj)
         (mapFn : ThreadObj -> ThreadObj) : result Thread :=
  match fuel with
  | O => OutOfFuel
  | S fuel' =>
      cs ← mapResult
             (fun k => match objs threads !! k with
                       | Some child => mapThreadRef fuel' threads child mapFn
                       | None => TypeError
                       end)
             (children thread);
      Ok (Node (with_children (mapFn thread) cs))
  end.

(** [children.filter(pred)] on an array of references. *)
Definition filterRefs (threads : Threads) (pred : ThreadObj -> bool)
           (refs : list string) : list string :=
  List.filter (fun k => match objs threads !! k with
                        | Some child => pred child
                        | None => false
                        end) refs.

Fixpoint hasVisibleChildren (thread : Thread) : bool :=
  match thread with
  | Node n =>
      existsb (fun child => visible (node child) || hasVisibleChildren child)
              (children n)
  end.

(** ** Sorting *)

(** [Array.prototype.sort] with a comparison function: a stable sort.  The
    model inserts the elements one by one, from left to right, each after
    the elements that do not come after it.  For a comparison function that
    is not consistent the language leaves the order to the implementation;
    the model then gives one admissible order. *)
Fixpoint insertSorted {A : Type} (cmp : A -> A -> Z) (x : A) (sorted : list A)
  : list A :=
  match sorted with
  | [] => [x]
  | y :: rest => if cmp x y <? 0 then x :: sorted else y :: insertSorted cmp x rest
  end.

Definition arraySort {A : Type} (cmp : A -> A -> Z) (l : list A) : list A :=
  fold_left (fun acc x => insertSorted cmp x acc) l [].

(** The comparison function that [sort] passes to [Array.prototype.sort]. *)
Definition compareThreads (compareFn : Annotation -> Annotation -> bool)
           (a b : Thread) : Z :=
  match annotation (node a), annotation (node b) with
  | None, None => 0
  | None, Some _ => -1
  | Some _, None => 1
  | Some x, Some y =>
      if compareFn x y then -1 else if compareFn y x then 1 else 0
  end.

Definition sort (threads : list Thread)
           (compareFn : Annotation -> Annotation -> bool) : list Thread :=
  arraySort (compareThreads compareFn) threads.

Fixpoint sortThread (thread : Thread)
         (compareFn replyCompareFn : Annotation -> Annotation -> bool) : Thread :=
  match thread with
  | Node n =>
      let children' :=
        map (fun child => sortThread child replyCompareFn replyCompareFn)
            (children n) in
      Node (with_children n (sort children' compareFn))
  end.

(** ** Reply counts and depths *)

Fixpoint countRepliesAndDepth (thread : Thread) (d : Z) : Thread :=
  match thread with
  | Node n =>
      let children' := map (fun c => countRepliesAndDepth c (d + 1)) (children n) in
      let replyCount' :=
        fold_left (fun total child => total + 1 + default 0 (replyCount (node child)))
                  children' 0 in
      Node (with_counts n children' d replyCount')
  end.

(** ** Options *)

(** The options a caller passes; every one of them may be omitted. *)
Record Options : Type := mkOptions {
  selected : option (list string);
  forceVisible : option (list string);
  filterFn : option (Annotation -> bool);
  threadFilterFn : option (Threads -> ThreadObj -> bool);
  expanded : option (gmap string bool);
  highlighted : option (list string);
  sortCompareFn : option (Annotation -> Annotation -> bool);
  replySortCompareFn : option (Annotation -> Annotation -> bool)
}.

(** [a < b] on values that are strings or undefined.  Strings are compared
    code unit by code unit; the characters of the embedding are the code
    units below 256, which is where the ids and the ISO 8601 dates of the
    annotation service are. *)
Definition lessThan (a b : option string) : bool :=
  match a, b with
  | Some x, Some y => String.ltb x y
  | _, _ => false
  end.

(** [{ ...defaultOpts, ...options }] *)
Record Opts : Type := mkOpts {
  opts_selected : list string;
  opts_forceVisible : option (list string);
  opts_filterFn : option (Annotation -> bool);
  opts_threadFilterFn : option (Threads -> ThreadObj -> bool);
  opts_expanded : gmap string bool;
  opts_highlighted : list string;
  opts_sortCompareFn : Annotation -> Annotation -> bool;
  opts_replySortCompareFn : Annotation -> Annotation -> bool
}.

Definition defaultOpts : Opts :=
  mkOpts [] None None None ∅ []
         (fun a b => lessThan (ann_id a) (ann_id b))
         (fun a b => lessThan (Some (created a)) (Some (created b))).

Definition mergeOpts (options : Options) : Opts :=
  mkOpts (default (opts_selected defaultOpts) (selected options))
         (forceVisible options)
         (filterFn options)
         (threadFilterFn options)
         (default (opts_expanded defaultOpts) (expanded options))
         (default (opts_highlighted defaultOpts) (highlighted options))
         (default (opts_sortCompareFn defaultOpts) (sortCompareFn options))
         (default (opts_replySortCompareFn defaultOpts) (replySortCompareFn options)).

(** [array.indexOf(x)] on an array of strings. *)
Fixpoint indexOf (l : list string) (x : string) : Z :=
  match l with
  | [] => -1
  | y :: l' =>
      if String.eqb y x then 0
      else let i := indexOf l' x in if i =? -1 then -1 else i + 1
  end.

(** ** Thread projector *)

Definition annotationsFiltered (opts : Opts) : bool :=
  match opts_filterFn opts with Some _ => true | None => false end.

Definition threadsFiltered (opts : Opts) : bool :=
  match opts_threadFilterFn opts with Some _ => true | None => false end.

Definition hasHighlights (opts : Opts) : bool :=
  (0 <? length (opts_highlighted opts))%nat.

Definition hasSelected (opts : Opts) : bool :=
  (0 <? length (opts_selected opts))%nat.

Definition hasForcedVisible (opts : Opts) : bool :=
  match opts_forceVisible opts with
  | Some l => negb (length l =? 0)%nat
  | None => false
  end.

Definition isVisible {C : Type} (opts : Opts) (thread : Thread_ C) : bool :=
  if negb (visible thread) then false
  else
    match annotation thread with
    | None => false
    | Some a =>
        if hasForcedVisible opts
           && negb (indexOf (default [] (opts_forceVisible opts)) (annotationId a)
                    =? -1)
        then true
        else
          match opts_filterFn opts with
          | Some f => if negb (f a) then false else true
          | None => true
          end
    end.

(** The [mapFn] of the first pass. *)
Definition setVisibility {C : Type} (opts : Opts) (thread : Thread_ C) : Thread_ C :=
  with_visible thread (isVisible opts thread).

(** The [mapFn] of the second pass. *)
Definition setStates (opts : Opts) (thread : Thread) : Thread_ Thread :=
  let n := node thread in
  let n1 :=
    if hasHighlights opts then
      match annotation n with
      | Some _ =>
          if negb (indexOf (opts_highlighted opts) (id n) =? -1)
          then with_highlightState n (Some highlight)
          else with_highlightState n (Some dim)
      | None => with_highlightState n (Some dim)
      end
    else n in
  match opts_expanded opts !! id n with
  | Some e => with_collapsed n1 (negb e)
  | None =>
      let hasUnfilteredChildren :=
        annotationsFiltered opts && hasVisibleChildren thread in
      with_collapsed n1 (collapsed n && negb hasUnfilteredChildren)
  end.

Definition buildThread (fuel : nat) (annotations : list Annotation)
           (options : Options) : result Thread :=
  let opts := mergeOpts options in
  '(threads, root) ← threadAnnotations fuel annotations;
  let root1 :=
    if hasSelected opts then
      with_children root
        (filterRefs threads
           (fun child => negb (indexOf (opts_selected opts) (id child) =? -1))
           (children root))
    else root in
  let root2 :=
    match opts_threadFilterFn opts with
    | Some f => with_children root1 (filterRefs threads (f threads) (children root1))
    | None => root1
    end in
  thread ← mapThreadRef fuel threads root2 (setVisibility opts);
  let thread1 :=
    Node (with_children (node thread)
            (List.filter
               (fun child => visible (node child) || hasVisibleChildren child)
               (children (node thread)))) in
  let thread2 := mapThread thread1 (setStates opts) in
  let thread3 :=
    sortThread thread2 (opts_sortCompareFn opts) (opts_replySortCompareFn opts) in
  Ok (countRepliesAndDepth thread3 (-1)).

(** * Vocabulary of the properties *)

(** ** Induction over thread trees *)

Section ThreadInduction.
Variable P : Thread -> Prop.
Hypothesis HNode : forall n : Thread_ Thread, Forall P (children n) -> P (Node n).

Fixpoint Thread_induction (t : Thread) : P t :=
  match t with
  | Node n =>
      HNode n
        ((fix all (l : list Thread) : Forall P l :=
            match l with
            | [] => @List.Forall_nil _ P
            | c :: l' => @List.Forall_cons _ P c l' (Thread_induction c) (all l')
            end) (children n))
  end.
End ThreadInduction.

(** Every node of a tree satisfies [P], a property of the node's own
    fields. *)
Inductive ForallNodes (P : Thread_ Thread -> Prop) : Thread -> Prop :=
| ForallNodes_node n :
    P n -> Forall (ForallNodes P) (children n) -> ForallNodes P (Node n).

(** The proper descendants of a thread, in preorder. *)
Fixpoint descendants (t : Thread) : list Thread :=
  match t with
  | Node n => flat_map (fun c => c :: descendants c) (children n)
  end.

(** [counted d t]: [t] is at depth [d], its reply count is the number of its
    proper descendants, and its children are counted one level below. *)
Inductive counted : Z -> Thread -> Prop :=
| counted_node d n :
    depth n = Some d ->
    replyCount n = Some (Z.of_nat (length (descendants (Node n)))) ->
    Forall (counted (d + 1)) (children n) ->
    counted d (Node n).

(** Two trees of the same shape whose nodes agree, position by position, on
    every field but [children], [depth] and [replyCount]. *)
Inductive sameFrame : Thread -> Thread -> Prop :=
| sameFrame_node n n' :
    id n = id n' ->
    annotation n = annotation n' ->
    parent n = parent n' ->
    visible n = visible n' ->
    collapsed n = collapsed n' ->
    totalChildren n = totalChildren n' ->
    highlightState n = highlightState n' ->
    Forall2 sameFrame (children n) (children n') ->
    sameFrame (Node n) (Node n').


(** ** Sample inputs *)

(** A saved annotation [{ id: i, references: refs }]. *)
Definition reply (i : string) (refs : list string) : Annotation :=
  mkAnnotation (Some i) i (Some refs) "".

(** [buildThread(annotations, {})] *)
Definition noOptions : Options :=
  mkOptions None None None None None None None None.

(** The thread stored under key [k] when [threadAnnotations] returns. *)
Definition lookupThread (r : result (Threads * ThreadObj)) (k : string)
  : option ThreadObj :=
  match r with
  | Ok (threads, _) => objs threads !! k
  | _ => None
  end.

(** [{ ...options, selected }], with [selected] omitted when [None]. *)
Definition with_selected (options : Options) (s : option (list string)) : Options :=
  mkOptions s (forceVisible options) (filterFn options) (threadFilterFn options)
            (expanded options) (highlighted options) (sortCompareFn options)
            (replySortCompareFn options).

(** [{ ...options, forceVisible }] *)
Definition with_forceVisible (options : Options) (s : option (list string)) : Options :=
  mkOptions (selected options) s (filterFn options) (threadFilterFn options)
            (expanded options) (highlighted options) (sortCompareFn options)
            (replySortCompareFn options).

(** [{ ...options, filterFn }] *)
Definition with_filterFn (options : Options) (f : option (Annotation -> bool))
  : Options :=
  mkOptions (selected options) (forceVisible options) f (threadFilterFn options)
            (expanded options) (highlighted options) (sortCompareFn options)
            (replySortCompareFn options).

(** Every thread object of the map satisfies [P]. *)
Definition AllObjs (P : ThreadObj -> Prop) (threads : Threads) : Prop :=
  forall k t, objs threads !! k = Some t -> P t.

(** What the first loop establishes for a thread and no later step of
    [threadAnnotations] changes: it is visible, and carries the id of its
    annotation if it has one. *)
Definition freshState (t : ThreadObj) : Prop :=
  visible t = true
  /\ forall a, annotation t = Some a -> id t = annotationId a.

(** A property of the [id], [annotation] and [visible] fields of a node. *)
Definition onFields (R : string -> option Annotation -> bool -> Prop)
           (n : Thread_ Thread) : Prop :=
  R (id n) (annotation n) (visible n).

(** The ids in [forceVisible] are honoured: a node with an annotation whose
    id is in [l] is visible. *)
Definition forcedVisible (l : list string) : string -> option Annotation -> bool -> Prop :=
  fun i a v => forall x, a = Some x -> In i l -> v = true.

(** ** Vocabulary of the sorting contract *)

(** A less-than predicate on annotations: a strict weak order.  Annotations
    neither of which is less than the other count as equal, and being equal
    in this sense is transitive. *)
Record LessThan (lt : Annotation -> Annotation -> bool) : Prop := {
  lt_irreflexive : forall a, lt a a = false;
  lt_transitive : forall a b c, lt a b = true -> lt b c = true -> lt a c = true;
  lt_equal_transitive : forall a b c,
    lt a b = false -> lt b a = false -> lt b c = false -> lt c b = false ->
    lt a c = false /\ lt c a = false
}.

(** [a] occurs in [l] at a position before an occurrence of [b]. *)
Definition occursBefore {A : Type} (a b : A) (l : list A) : Prop :=
  exists l1 l2 l3, l = l1 ++ a :: l2 ++ b :: l3.

(** Neither thread has to come before the other: both are without
    annotation, or both have one and neither annotation is less than the
    other. *)
Definition tied (lt : Annotation -> Annotation -> bool) (a b : Thread) : Prop :=
  match annotation (node a), annotation (node b) with
  | None, None => True
  | Some x, Some y => lt x y = false /\ lt y x = false
  | _, _ => False
  end.

(** The elements of a list that a comparison function ranks equal to [w]. *)
Definition rankedEqual {A : Type} (cmp : A -> A -> Z) (w : A) (l : list A) : list A :=
  List.filter (fun z => negb (cmp w z <? 0) && negb (cmp z w <? 0)) l.

(** [y] does not have to come before [x]. *)
Definition notAfter {A : Type} (cmp : A -> A -> Z) (x y : A) : Prop := ~ cmp y x < 0.

(** A thread object without children, as a tree. *)
Definition leaf (t : ThreadObj) : Thread := Node (with_children t []).

(** [threads'] keeps the links of [threads]: every thread of [threads] is
    still there, a parent that was assigned is unchanged, and no child was
    removed. *)
Definition keepsLinks (threads threads' : Threads) : Prop :=
  forall k t,
    objs threads !! k = Some t ->
    exists t',
      objs threads' !! k = Some t'
      /\ (truthy (parent t) = true -> parent t' = parent t)
      /\ (forall c, In c (children t) -> In c (children t')).

(** [!!threads[k].parent] *)
Definition hasParent (threads : Threads) (k : string) : bool :=
  match objs threads !! k with
  | Some t => truthy (parent t)
  | None => false
  end.

(** * Further vocabulary *)

(** The fields of a thread other than [children], [depth] and
    [replyCount]. *)
Definition core {C : Type} (n : Thread_ C) : Thread_ unit :=
  mkThread (id n) (annotation n) (parent n) (visible n) (collapsed n) []
           (totalChildren n) (highlightState n) None None.

(** A property of the fields of a node other than [children], [depth] and
    [replyCount]. *)
Definition onCore (R : Thread_ unit -> Prop) (n : Thread_ Thread) : Prop :=
  R (core n).

(** ** Updates of the thread map *)

(** The thread map after [threads[tid].parent = parentId] and
    [threads[parentId].children.push(threads[tid])], where [t] and [p] are
    the threads stored under [tid] and [parentId] before. *)
Definition linkTo (threads : Threads) (tid parentId : string) (t p : ThreadObj)
  : Threads :=
  let t' := with_parent t (Some parentId) in
  let p' := if decide (tid = parentId) then t' else p in
  store parentId (with_children p' (children p' ++ [tid])) (store tid t' threads).

(** The updates that the second and third loop of [threadAnnotations] make:
    a placeholder is stored under a key that is not bound, a thread without
    parent is linked to an existing thread that passed the ancestor walk, a
    thread without parent is collapsed. *)
Inductive step : Threads -> Threads -> Prop :=
| step_placeholder threads k :
    objs threads !! k = None ->
    step threads (store k (with_children DEFAULT_THREAD_STATE []) threads)
| step_link threads tid parentId t p fuel :
    objs threads !! tid = Some t ->
    truthy (parent t) = false ->
    objs threads !! parentId = Some p ->
    hasPathToRoot fuel threads tid parentId = Ok true ->
    step threads (linkTo threads tid parentId t p)
| step_collapse threads k t :
    objs threads !! k = Some t ->
    truthy (parent t) = false ->
    step threads (store k (with_collapsed t true) threads).

(** [order] lists the bound keys, each once. *)
Definition wellOrdered (threads : Threads) : Prop :=
  NoDup (order threads)
  /\ forall k, In k (order threads) <-> is_Some (objs threads !! k).

(** A thread with a parent is among the children of the thread stored under
    that parent. *)
Definition parentsKnowChildren (threads : Threads) : Prop :=
  forall k t p,
    objs threads !! k = Some t -> parent t = Some p ->
    exists tp, objs threads !! p = Some tp /\ In k (children tp).

(** A child reference designates a thread of the map; the children of a
    thread stored under a key other than the empty string are distinct and
    have that key as parent. *)
Definition childrenKnowParent (threads : Threads) : Prop :=
  forall k t,
    objs threads !! k = Some t ->
    (forall c, In c (children t) ->
       exists tc, objs threads !! c = Some tc /\ (k <> ""%string -> parent tc = Some k))
    /\ (k <> ""%string -> NoDup (children t)).

(** [t'] has the fields of [t] that linking and collapsing leave alone. *)
Definition sameData (t t' : ThreadObj) : Prop :=
  id t' = id t /\ annotation t' = annotation t /\ visible t' = visible t
  /\ totalChildren t' = totalChildren t /\ highlightState t' = highlightState t
  /\ depth t' = depth t /\ replyCount t' = replyCount t.

(** [!threads[k].parent], for a key that is bound. *)
Definition isRoot (threads : Threads) (k : string) : bool :=
  match objs threads !! k with
  | Some t => negb (truthy (parent t))
  | None => false
  end.

(** The annotations [A], [B] in reply to [A], and [C] in reply to [B]. *)
Definition sampleThread : list Annotation :=
  [reply "A" []; reply "B" ["A"]; reply "C" ["A"; "B"]].

(** A thread that carries an annotation is stored under the id of that
    annotation, which is its own id, and the annotation is a record of the
    input. *)
Definition keyedByAnnotation (annotations : list Annotation) (threads : Threads)
  : Prop :=
  forall k t a,
    objs threads !! k = Some t -> annotation t = Some a ->
    In a annotations /\ k = annotationId a /\ id t = k.

(** ** Stages of [buildThread] *)

(** The root after the removal of the top-level threads that are not
    selected and of those that [threadFilterFn] rejects. *)
Definition filteredRoot (opts : Opts) (threads : Threads) (root : ThreadObj)
  : ThreadObj :=
  let root1 :=
    if hasSelected opts then
      with_children root
        (filterRefs threads
           (fun child => negb (indexOf (opts_selected opts) (id child) =? -1))
           (children root))
    else root in
  match opts_threadFilterFn opts with
  | Some f => with_children root1 (filterRefs threads (f threads) (children root1))
  | None => root1
  end.

(** The passes of [buildThread] that follow the visibility pass. *)
Definition projectThread (opts : Opts) (thread : Thread) : Thread :=
  let thread1 :=
    Node (with_children (node thread)
            (List.filter
               (fun child => visible (node child) || hasVisibleChildren child)
               (children (node thread)))) in
  let thread2 := mapThread thread1 (setStates opts) in
  let thread3 :=
    sortThread thread2 (opts_sortCompareFn opts) (opts_replySortCompareFn opts) in
  countRepliesAndDepth thread3 (-1).

(** Every thread of a tree, the root included, satisfies [P]. *)
Inductive ForallThreads (P : Thread -> Prop) : Thread -> Prop :=
| ForallThreads_node n :
    P (Node n) -> Forall (ForallThreads P) (children n) -> ForallThreads P (Node n).

(** A property of the fields of a thread other than [children], [depth]
    and [replyCount], and of whether it has a visible descendant. *)
Definition onView (Q : Thread_ unit -> bool -> Prop) (t : Thread) : Prop :=
  Q (core (node t)) (hasVisibleChildren t).

(** How [buildThread] sets [highlightState], given the [highlighted]
    option. *)
Definition highlightRule (highlighted : list string) (c : Thread_ unit) : Prop :=
  match highlighted with
  | [] => highlightState c = None
  | _ :: _ =>
      (annotation c <> None -> In (id c) highlighted ->
       highlightState c = Some highlight)
      /\ (annotation c = None \/ ~ In (id c) highlighted ->
          highlightState c = Some dim)
  end.

(** [buildThread(annotations, { highlighted })] and the like. *)
Definition with_highlighted (options : Options) (h : option (list string)) : Options :=
  mkOptions (selected options) (forceVisible options) (filterFn options)
            (threadFilterFn options) (expanded options) h (sortCompareFn options)
            (replySortCompareFn options).

Definition with_expanded (options : Options) (e : option (gmap string bool)) : Options :=
  mkOptions (selected options) (forceVisible options) (filterFn options)
            (threadFilterFn options) e (highlighted options) (sortCompareFn options)
            (replySortCompareFn options).

(** ** Inputs on which the tree builder returns *)

(** No element of the list is followed by an equal element. *)
Fixpoint noAdjacentDup (l : list string) : Prop :=
  match l with
  | [] => True
  | a :: l' =>
      match l' with
      | [] => True
      | b :: _ => a <> b
      end /\ noAdjacentDup l'
  end.

(** The ids of the record are not empty strings, and in the chain made of
    its references and its own id no id is followed by itself. *)
Definition wellFormed (a : Annotation) : Prop :=
  annotationId a <> ""%string
  /\ ~ In ""%string (default [] (references a))
  /\ noAdjacentDup (default [] (references a) ++ [annotationId a]).

(** [height threads k n]: following [parent] from the thread stored under
    [k] leads in [n] steps to a thread without parent. *)
Inductive height (threads : Threads) : string -> nat -> Prop :=
| height_root k t :
    objs threads !! k = Some t ->
    truthy (parent t) = false ->
    height threads k 0
| height_step k t p n :
    objs threads !! k = Some t ->
    parent t = Some p ->
    truthy (Some p) = true ->
    height threads p n ->
    height threads k (S n).

(** From every thread the parents lead to a thread without parent. *)
Definition grounded (threads : Threads) : Prop :=
  forall k t, objs threads !! k = Some t -> exists n, height threads k n.

(** The updates on well-formed input: no placeholder is stored under the
    empty string and no thread is linked to itself. *)
Inductive safeStep : Threads -> Threads -> Prop :=
| safeStep_placeholder threads k :
    objs threads !! k = None ->
    k <> ""%string ->
    safeStep threads (store k (with_children DEFAULT_THREAD_STATE []) threads)
| safeStep_link threads tid parentId t p fuel :
    objs threads !! tid = Some t ->
    truthy (parent t) = false ->
    objs threads !! parentId = Some p ->
    hasPathToRoot fuel threads tid parentId = Ok true ->
    tid <> parentId ->
    safeStep threads (linkTo threads tid parentId t p)
| safeStep_collapse threads k t :
    objs threads !! k = Some t ->
    truthy (parent t) = false ->
    safeStep threads (store k (with_collapsed t true) threads).

(** The invariant that makes the traversals terminate. *)
Record Sound (threads : Threads) : Prop := {
  sound_grounded : grounded threads;
  sound_keys : objs threads !! ""%string = None;
  sound_order : wellOrdered threads;
  sound_children : childrenKnowParent threads
}.

(** The children of the thread are in the order of [compareFn]: none comes
    after a thread that it has to precede. *)
Definition childrenSorted (compareFn : Annotation -> Annotation -> bool) (t : Thread)
  : Prop :=
  StronglySorted (notAfter (compareThreads compareFn)) (children (node t)).

(** The annotation is shown: it is forced visible, or there is no [filterFn],
    or [filterFn] accepts it. *)
Definition shown (opts : Opts) (a : Annotation) : Prop :=
  (exists l, opts_forceVisible opts = Some l /\ In (annotationId a) l)
  \/ match opts_filterFn opts with
     | Some f => f a = true
     | None => True
     end.

Definition with_sortCompareFn (options : Options)
           (f : option (Annotation -> Annotation -> bool)) : Options :=
  mkOptions (selected options) (forceVisible options) (filterFn options)
            (threadFilterFn options) (expanded options) (highlighted options) f
            (replySortCompareFn options).

(** [descendsFrom threads tid a]: following [parent] from the thread stored
    under [a] leads, in one or more steps, to [tid]. *)
Inductive descendsFrom (threads : Threads) (tid : string) : string -> Prop :=
| descends_child a ta :
    objs threads !! a = Some ta ->
    parent ta = Some tid ->
    descendsFrom threads tid a
| descends_step a ta q :
    objs threads !! a = Some ta ->
    parent ta = Some q ->
    truthy (Some q) = true ->
    descendsFrom threads tid q ->
    descendsFrom threads tid a.

(** ** Keys of the thread map *)



(** ** References that agree on a hierarchy *)

(** The rank grows strictly from each element of the list to the next. *)
Fixpoint increasing (rank : string -> nat) (l : list string) : Prop :=
  match l with
  | [] => True
  | a :: l' =>
      match l' with
      | [] => True
      | b :: _ => (rank a < rank b)%nat
      end /\ increasing rank l'
  end.

(** The records agree on a hierarchy: the ids can be ranked so that in every
    record the rank grows along the references, from the furthest ancestor
    to the nearest, and from the nearest ancestor to the record itself. *)
Definition hierarchical (rank : string -> nat) (annotations : list Annotation)
  : Prop :=
  forall a, In a annotations ->
    increasing rank (default [] (references a) ++ [annotationId a]).

(** Every parent in the thread map has a smaller rank than its child. *)
Definition ranked (rank : string -> nat) (threads : Threads) : Prop :=
  forall k t p,
    objs threads !! k = Some t -> parent t = Some p -> (rank p < rank k)%nat.

(** A ranking of the ids of [sampleThread]. *)
Definition sampleRank (k : string) : nat :=
  if String.eqb k "A" then 0%nat
  else if String.eqb k "B" then 1%nat
  else 2%nat.

(** ** Dated records *)

(** A record with a creation date. *)
Definition dated (i : string) (refs : list string) (c : string) : Annotation :=
  mkAnnotation (Some i) i (Some refs) c.

(** Two annotations, the older one first, with two replies each, the older
    reply last. *)
Definition datedThread : list Annotation :=
  [dated "A" [] "2020-01-01"; dated "B" [] "2021-01-01";
   dated "C" ["A"] "2022-03-01"; dated "D" ["A"] "2022-02-01";
   dated "E" ["B"] "2022-05-01"; dated "F" ["B"] "2022-04-01"].

(** Newest first: the order of the sidebar for top-level annotations. *)
Definition newestFirst (a b : Annotation) : bool :=
  lessThan (Some (created b)) (Some (created a)).
(** * Properties *)

(** ** The counting pass *)

Lemma countRepliesAndDepth_unfold n d :
  countRepliesAndDepth (Node n) d =
  Node (with_counts n
          (map (fun c => countRepliesAndDepth c (d + 1)) (children n)) d
          (fold_left (fun total child => total + 1 + default 0 (replyCount (node child)))
                     (map (fun c => countRepliesAndDepth c (d + 1)) (children n)) 0)).
Proof. reflexivity. Qed.

Lemma fold_replies_counted d (l : list Thread) acc :
  Forall (counted d) l ->
  fold_left (fun total child => total + 1 + default 0 (replyCount (node child))) l acc
  = acc + Z.of_nat (length (flat_map (fun c => c :: descendants c) l)).
Proof.
  intros Hl. revert acc.
  induction Hl as [|c l Hc _ IH]; intros acc; simpl.
  - lia.
  - rewrite IH. destruct Hc as [d n _ Hr _]. simpl node. rewrite Hr. simpl default.
    rewrite length_app. simpl. lia.
Qed.

Lemma countRepliesAndDepth_counted t : forall d, counted d (countRepliesAndDepth t d).
Proof.
  induction t as [n IH] using Thread_induction. intros d.
  rewrite countRepliesAndDepth_unfold.
  assert (Hcs : Forall (counted (d + 1))
                       (map (fun c => countRepliesAndDepth c (d + 1)) (children n))).
  { apply Forall_map. eapply Forall_impl; [exact IH|]. intros c Hc. apply Hc. }
  constructor; simpl.
  - reflexivity.
  - rewrite (fold_replies_counted (d + 1)) by exact Hcs. reflexivity.
  - exact Hcs.
Qed.

Lemma countRepliesAndDepth_frame t : forall d, sameFrame t (countRepliesAndDepth t d).
Proof.
  induction t as [n IH] using Thread_induction. intros d.
  rewrite countRepliesAndDepth_unfold.
  constructor; simpl; try reflexivity.
  induction IH as [|c l Hc _ IHl]; simpl; constructor; auto.
Qed.

(** ** Fuel *)

Lemma bind_Ok {A B : Type} (x : result A) (k : A -> result B) r :
  x ≫= k = r -> r <> OutOfFuel ->
  (exists a, x = Ok a /\ k a = r) \/ (x = TypeError /\ r = TypeError).
Proof.
  destruct x; simpl; intros H Hr; subst; eauto. congruence.
Qed.

Lemma Ok_inj {A : Type} (x y : A) : Ok x = Ok y -> x = y.
Proof. congruence. Qed.

Lemma hasPathToRoot_S fuel threads tid ancestorId :
  hasPathToRoot (S fuel) threads tid ancestorId =
  match objs threads !! ancestorId with
  | None => Ok false
  | Some ancestor =>
      if decide (parent ancestor = Some tid) then Ok false
      else
        match parent ancestor with
        | None => Ok true
        | Some p =>
            if truthy (Some p) then hasPathToRoot fuel threads tid p else Ok true
        end
  end.
Proof. reflexivity. Qed.

Lemma setParent_S fuel threads tid parents :
  setParent (S fuel) threads tid parents =
  match objs threads !! tid with
  | None => TypeError
  | Some t =>
      if truthy (parent t) then Ok threads
      else
        match last parents with
        | None => Ok threads
        | Some parentId =>
            threads1 ←
              match objs threads !! parentId with
              | None =>
                  setParent fuel
                    (store parentId (with_children DEFAULT_THREAD_STATE []) threads)
                    parentId (removelast parents)
              | Some _ => Ok threads
              end;
            ok ← hasPathToRoot fuel threads1 tid parentId;
            if ok : bool then
              threads2 ← assignParent threads1 tid parentId;
              pushChild threads2 parentId tid
            else Ok threads1
        end
  end.
Proof. reflexivity. Qed.

Lemma mapThreadRef_S fuel threads thread mapFn :
  mapThreadRef (S fuel) threads thread mapFn =
  cs ← mapResult
         (fun k => match objs threads !! k with
                   | Some child => mapThreadRef fuel threads child mapFn
                   | None => TypeError
                   end)
         (children thread);
  Ok (Node (with_children (mapFn thread) cs)).
Proof. reflexivity. Qed.

(** A result that is not [OutOfFuel] does not depend on the fuel. *)
Lemma hasPathToRoot_fuel n : forall m threads tid ancestorId r,
  hasPathToRoot n threads tid ancestorId = r -> r <> OutOfFuel -> (n <= m)%nat ->
  hasPathToRoot m threads tid ancestorId = r.
Proof.
  induction n as [|n IH]; intros m threads tid ancestorId r H Hr Hle.
  - simpl in H. congruence.
  - destruct m as [|m]; [lia|].
    rewrite hasPathToRoot_S in *.
    destruct (objs threads !! ancestorId) as [anc|]; [|exact H].
    destruct (decide (parent anc = Some tid)); [exact H|].
    destruct (parent anc) as [p|]; [|exact H].
    destruct (truthy (Some p)); [|exact H].
    apply IH; [exact H | exact Hr | lia].
Qed.

Lemma setParent_fuel n : forall m threads tid parents r,
  setParent n threads tid parents = r -> r <> OutOfFuel -> (n <= m)%nat ->
  setParent m threads tid parents = r.
Proof.
  induction n as [|n IH]; intros m threads tid parents r H Hr Hle.
  - simpl in H. congruence.
  - destruct m as [|m]; [lia|].
    rewrite setParent_S in *.
    destruct (objs threads !! tid) as [t|]; [|exact H].
    destruct (truthy (parent t)); [exact H|].
    destruct (last parents) as [parentId|]; [|exact H].
    apply bind_Ok in H; [|exact Hr].
    destruct H as [(threads1 & H1 & H)|[H1 ->]].
    + assert (H1' : match objs threads !! parentId with
                    | None =>
                        setParent m
                          (store parentId (with_children DEFAULT_THREAD_STATE []) threads)
                          parentId (removelast parents)
                    | Some _ => Ok threads
                    end = Ok threads1).
      { destruct (objs threads !! parentId); [exact H1|].
        apply IH; [exact H1 | discriminate | lia]. }
      rewrite H1'. simpl.
      apply bind_Ok in H; [|exact Hr].
      destruct H as [(ok & H2 & H)|[H2 ->]].
      * rewrite (hasPathToRoot_fuel n m _ _ _ (Ok ok)); [exact H | exact H2 | discriminate | lia].
      * rewrite (hasPathToRoot_fuel n m _ _ _ TypeError); [reflexivity | exact H2 | discriminate | lia].
    + destruct (objs threads !! parentId); [discriminate|].
      rewrite (IH m _ _ _ TypeError); [reflexivity | exact H1 | discriminate | lia].
Qed.

(** ** The result of [buildThread] does not depend on the fuel *)

Lemma forEach_fuel {A S : Type} (f g : S -> A -> result S) l :
  (forall s a r, f s a = r -> r <> OutOfFuel -> g s a = r) ->
  forall s r, forEach f l s = r -> r <> OutOfFuel -> forEach g l s = r.
Proof.
  intros Hfg. induction l as [|a l IH]; intros s r H Hr; simpl in *; [exact H|].
  apply bind_Ok in H; [|exact Hr].
  destruct H as [(s' & Hs' & H)|[Hs' ->]].
  - rewrite (Hfg _ _ _ Hs'); [|discriminate]. simpl. by apply IH.
  - rewrite (Hfg _ _ _ Hs'); [reflexivity|discriminate].
Qed.

Lemma mapResult_fuel {A B : Type} (f g : A -> result B) l :
  (forall a r, f a = r -> r <> OutOfFuel -> g a = r) ->
  forall r, mapResult f l = r -> r <> OutOfFuel -> mapResult g l = r.
Proof.
  intros Hfg. induction l as [|a l IH]; intros r H Hr; simpl in *; [exact H|].
  apply bind_Ok in H; [|exact Hr].
  destruct H as [(b & Hb & H)|[Hb ->]].
  - rewrite (Hfg _ _ Hb); [|discriminate]. simpl.
    apply bind_Ok in H; [|exact Hr].
    destruct H as [(bs & Hbs & H)|[Hbs ->]].
    + rewrite (IH _ Hbs); [exact H|discriminate].
    + rewrite (IH _ Hbs); [reflexivity|discriminate].
  - rewrite (Hfg _ _ Hb); [reflexivity|discriminate].
Qed.

Lemma mapThreadRef_fuel threads mapFn n : forall m thread r,
  mapThreadRef n threads thread mapFn = r -> r <> OutOfFuel -> (n <= m)%nat ->
  mapThreadRef m threads thread mapFn = r.
Proof.
  induction n as [|n IH]; intros m thread r H Hr Hle; [simpl in H; congruence|].
  destruct m as [|m]; [lia|].
  rewrite mapThreadRef_S in *.
  apply bind_Ok in H; [|exact Hr].
  assert (Hstep : forall k r',
             match objs threads !! k with
             | Some child => mapThreadRef n threads child mapFn
             | None => TypeError
             end = r' -> r' <> OutOfFuel ->
             match objs threads !! k with
             | Some child => mapThreadRef m threads child mapFn
             | None => TypeError
             end = r').
  { intros k r' Hk Hr'. destruct (objs threads !! k); [|exact Hk].
    apply IH; [exact Hk|exact Hr'|lia]. }
  destruct H as [(cs & Hcs & H)|[Hcs ->]].
  - rewrite (mapResult_fuel _ _ _ Hstep _ Hcs); [exact H|discriminate].
  - rewrite (mapResult_fuel _ _ _ Hstep _ Hcs); [reflexivity|discriminate].
Qed.

Lemma threadAnnotations_fuel n m annotations r :
  threadAnnotations n annotations = r -> r <> OutOfFuel -> (n <= m)%nat ->
  threadAnnotations m annotations = r.
Proof.
  unfold threadAnnotations, linkThreads. intros H Hr Hle.
  apply bind_Ok in H; [|exact Hr].
  assert (Hstep : forall threads (a : Annotation) r',
             setParent n threads (annotationId a) (default [] (references a)) = r' ->
             r' <> OutOfFuel ->
             setParent m threads (annotationId a) (default [] (references a)) = r').
  { intros threads a r' H' Hr'. by apply (setParent_fuel n). }
  destruct H as [(threads1 & H1 & H)|[H1 ->]].
  - rewrite (forEach_fuel _ _ _ Hstep _ _ H1); [exact H|discriminate].
  - rewrite (forEach_fuel _ _ _ Hstep _ _ H1); [reflexivity|discriminate].
Qed.

(** Once [buildThread] returns a tree or raises an exception, it does so
    with any larger fuel. *)
Lemma buildThread_fuel n m annotations options r :
  buildThread n annotations options = r -> r <> OutOfFuel -> (n <= m)%nat ->
  buildThread m annotations options = r.
Proof.
  unfold buildThread. intros H Hr Hle.
  apply bind_Ok in H; [|exact Hr].
  destruct H as [([threads root] & Hta & H)|[Hta ->]].
  - rewrite (threadAnnotations_fuel n m _ _ Hta); [|discriminate|exact Hle].
    simpl in *.
    apply bind_Ok in H; [|exact Hr].
    destruct H as [(thread & Hmap & H)|[Hmap ->]].
    + rewrite (mapThreadRef_fuel _ _ n m _ _ Hmap); [exact H|discriminate|exact Hle].
    + rewrite (mapThreadRef_fuel _ _ n m _ _ Hmap); [reflexivity|discriminate|exact Hle].
  - rewrite (threadAnnotations_fuel n m _ _ Hta); [reflexivity|discriminate|exact Hle].
Qed.

(** ** Self-references *)

(** The ancestor walk never leaves a thread that is its own parent. *)
Lemma hasPathToRoot_self_parent threads tid a t :
  objs threads !! a = Some t ->
  parent t = Some a ->
  a <> tid ->
  a <> ""%string ->
  forall fuel, hasPathToRoot fuel threads tid a = OutOfFuel.
Proof.
  intros Ht Hp Hne Hne' fuel.
  induction fuel as [|fuel IH]; [reflexivity|].
  rewrite hasPathToRoot_S, Ht, Hp.
  destruct (decide (Some a = Some tid)) as [E|_]; [congruence|].
  unfold truthy. destruct (String.eqb_spec a ""); [congruence|]. exact IH.
Qed.

(** C2.  [buildThread] does not return on the annotations
    [{id: "a", references: ["a"]}, {id: "b", references: ["a"]}]: whatever
    the options and however much fuel, the ancestor walk started for "b"
    runs out of fuel. *)
Theorem buildThread_self_reference_diverges :
  forall fuel options,
    buildThread fuel [reply "a" ["a"]; reply "b" ["a"]] options = OutOfFuel.
Proof.
  intros fuel options.
  assert (H : threadAnnotations fuel [reply "a" ["a"]; reply "b" ["a"]] = OutOfFuel).
  { unfold threadAnnotations, linkThreads.
    set (threads0 := initialThreads _).
    cbn [forEach].
    destruct fuel as [|[|fuel]]; [reflexivity | reflexivity |].
    destruct (setParent 2 threads0 (annotationId (reply "a" ["a"]))
                (default [] (references (reply "a" ["a"])))) as [threads1| |] eqn:E1;
      [|vm_compute in E1; discriminate..].
    rewrite (setParent_fuel 2 (S (S fuel)) _ _ _ (Ok threads1));
      [|exact E1|discriminate|lia].
    cbn [mbind result_bind].
    assert (Ha : exists t, objs threads1 !! "a"%string = Some t /\ parent t = Some "a"%string).
    { vm_compute in E1. injection E1 as <-. eexists. split; vm_compute; reflexivity. }
    assert (Hb : exists t, objs threads1 !! "b"%string = Some t /\ parent t = None).
    { vm_compute in E1. injection E1 as <-. eexists. split; vm_compute; reflexivity. }
    destruct Ha as (ta & Ha & Hpa). destruct Hb as (tb & Hb & Hpb).
    rewrite setParent_S.
    change (annotationId (reply "b" ["a"])) with "b"%string.
    change (default [] (references (reply "b" ["a"]))) with ["a"%string].
    rewrite Hb, Hpb.
    change (last ["a"%string]) with (Some "a"%string).
    cbn [truthy]. cbv beta iota. rewrite Ha. cbn [mbind result_bind].
    rewrite (hasPathToRoot_self_parent threads1 "b" "a" ta Ha Hpa); [reflexivity|discriminate..]. }
  unfold buildThread. rewrite H. reflexivity.
Qed.

(** C1.  On the single annotation [{id: "a", references: ["a"]}] the
    ancestor walk accepts "a" as its own parent: when [threadAnnotations]
    returns, the thread "a" has parent "a" and occurs in its own children,
    and the tree returned by [buildThread] does not contain it. *)
Theorem self_reference_becomes_own_parent :
  parent <$> lookupThread (threadAnnotations 2 [reply "a" ["a"]]) "a"
    = Some (Some "a"%string)
  /\ children <$> lookupThread (threadAnnotations 2 [reply "a" ["a"]]) "a"
    = Some ["a"%string]
  /\ hasPathToRoot 1 (initialThreads [reply "a" ["a"]]) "a" "a" = Ok true
  /\ (fun r => children (node r)) <$>
       (match buildThread 2 [reply "a" ["a"]] noOptions with
        | Ok r => Some r
        | _ => None
        end) = Some [].
Proof. vm_compute. repeat split; reflexivity. Qed.

(** ** Placeholders *)

(** C4.  On the single annotation [{id: "B", references: ["A"]}] the
    placeholder stored under the missing id "A" has no annotation, has "B"
    as its only child, and has the id of [DEFAULT_THREAD_STATE], not "A". *)
Theorem placeholder_keeps_default_id :
  id <$> lookupThread (threadAnnotations 2 [reply "B" ["A"]]) "A"
    = Some "__default__"%string
  /\ annotation <$> lookupThread (threadAnnotations 2 [reply "B" ["A"]]) "A"
    = Some None
  /\ children <$> lookupThread (threadAnnotations 2 [reply "B" ["A"]]) "A"
    = Some ["B"%string]
  /\ parent <$> lookupThread (threadAnnotations 2 [reply "B" ["A"]]) "B"
    = Some (Some "A"%string)
  /\ (fun r => map (fun c => id (node c)) (children (node r))) <$>
       (match buildThread 3 [reply "B" ["A"]] noOptions with
        | Ok r => Some r
        | _ => None
        end) = Some ["__default__"%string].
Proof. vm_compute. repeat split; reflexivity. Qed.

(** ** The counting pass, on the result of [buildThread] *)

Lemma buildThread_is_counted fuel annotations options root :
  buildThread fuel annotations options = Ok root ->
  exists thread, root = countRepliesAndDepth thread (-1).
Proof.
  unfold buildThread. intros H.
  apply bind_Ok in H; [|discriminate].
  destruct H as [([threads root0] & _ & H)|[_ H]]; [|discriminate].
  apply bind_Ok in H; [|discriminate].
  destruct H as [(thread & _ & H)|[_ H]]; [|discriminate].
  apply Ok_inj in H. eexists. symmetry. exact H.
Qed.

(** C5.  In the tree returned by [buildThread] the root has depth -1, and
    every node has a reply count equal to the number of its proper
    descendants and children whose depth is one more than its own. *)
Theorem buildThread_counts fuel annotations options root :
  buildThread fuel annotations options = Ok root ->
  depth (node root) = Some (-1) /\ counted (-1) root.
Proof.
  intros H. apply buildThread_is_counted in H as [thread ->].
  pose proof (countRepliesAndDepth_counted thread (-1)) as Hc.
  split; [|exact Hc].
  inversion Hc; subst. simpl. assumption.
Qed.

Lemma buildThread_counts_witness :
  exists root,
    buildThread 4 [reply "A" []; reply "B" ["A"]; reply "C" ["A"; "B"]] noOptions
    = Ok root
    /\ depth (node root) = Some (-1) /\ counted (-1) root.
Proof.
  eexists. split; [vm_compute; reflexivity|].
  apply (buildThread_counts 4 [reply "A" []; reply "B" ["A"]; reply "C" ["A"; "B"]]
                            noOptions).
  vm_compute. reflexivity.
Defined.

(** C10.  [countRepliesAndDepth] leaves [id], [annotation], [parent],
    [visible], [collapsed], [totalChildren] and [highlightState] of every
    node as they were, position by position. *)
Theorem countRepliesAndDepth_changes_only_counts thread d :
  sameFrame thread (countRepliesAndDepth thread d).
Proof. apply countRepliesAndDepth_frame. Qed.

(** ** Invariants of the thread map *)

Lemma AllObjs_store P k o threads :
  P o -> AllObjs P threads -> AllObjs P (store k o threads).
Proof.
  intros Ho Hall k' t. unfold store. simpl.
  rewrite lookup_insert. case_decide; [congruence|]. apply Hall.
Qed.

Section ObjectInvariant.
Variable P : ThreadObj -> Prop.
Hypothesis P_placeholder : P (with_children DEFAULT_THREAD_STATE []).
Hypothesis P_new : forall a, P (newThread a).
Hypothesis P_parent : forall t p, P t -> P (with_parent t p).
Hypothesis P_children : forall t cs, P t -> P (with_children t cs).
Hypothesis P_collapsed : forall t c, P t -> P (with_collapsed t c).

Lemma initialThreads_objs annotations : AllObjs P (initialThreads annotations).
Proof.
  unfold initialThreads.
  assert (H : AllObjs P emptyThreads) by (intros k t; simpl; by rewrite lookup_empty).
  revert H. generalize emptyThreads.
  induction annotations as [|a l IH]; intros threads H; simpl; [exact H|].
  apply IH. apply AllObjs_store; auto.
Qed.

Lemma setParent_objs fuel : forall threads tid parents threads',
  setParent fuel threads tid parents = Ok threads' ->
  AllObjs P threads -> AllObjs P threads'.
Proof.
  induction fuel as [|fuel IH]; intros threads tid parents threads' H Hall;
    [discriminate|].
  rewrite setParent_S in H.
  destruct (objs threads !! tid) as [t|]; [|discriminate].
  destruct (truthy (parent t)); [by apply Ok_inj in H; subst|].
  destruct (last parents) as [parentId|]; [|by apply Ok_inj in H; subst].
  apply bind_Ok in H; [|discriminate].
  destruct H as [(threads1 & H1 & H)|[_ ?]]; [|discriminate].
  assert (Hall1 : AllObjs P threads1).
  { destruct (objs threads !! parentId).
    - by apply Ok_inj in H1; subst.
    - eapply IH; [exact H1|]. apply AllObjs_store; auto. }
  apply bind_Ok in H; [|discriminate].
  destruct H as [([|] & _ & H)|[_ ?]]; [| by apply Ok_inj in H; subst | discriminate].
  apply bind_Ok in H; [|discriminate].
  destruct H as [(threads2 & H2 & H)|[_ ?]]; [|discriminate].
  unfold assignParent in H2.
  destruct (objs threads1 !! tid) as [t1|] eqn:Et1; [|discriminate].
  apply Ok_inj in H2. subst threads2.
  unfold pushChild in H.
  match type of H with
  | context [objs ?T !! parentId] =>
      destruct (objs T !! parentId) as [p|] eqn:Ep; [|discriminate];
      assert (Hall2 : AllObjs P T) by (apply AllObjs_store; eauto)
  end.
  apply Ok_inj in H. subst threads'.
  apply AllObjs_store; eauto.
Qed.

Lemma linkThreads_objs fuel annotations : forall threads threads',
  linkThreads fuel annotations threads = Ok threads' ->
  AllObjs P threads -> AllObjs P threads'.
Proof.
  unfold linkThreads.
  induction annotations as [|a l IH]; intros threads threads' H Hall; simpl in H.
  - by apply Ok_inj in H; subst.
  - apply bind_Ok in H; [|discriminate].
    destruct H as [(threads1 & H1 & H)|[_ ?]]; [|discriminate].
    eapply IH; [exact H|]. eapply setParent_objs; eauto.
Qed.

Lemma collectRoot_objs keys : forall st,
  AllObjs P (fst st) -> AllObjs P (fst (fold_left collectRoot keys st)).
Proof.
  induction keys as [|k keys IH]; intros st Hall; simpl; [exact Hall|].
  apply IH. unfold collectRoot.
  destruct (objs (fst st) !! k) as [t|] eqn:Et; [|exact Hall].
  destruct (truthy (parent t)); [exact Hall|].
  simpl. apply AllObjs_store; eauto.
Qed.

Lemma threadAnnotations_objs fuel annotations threads root :
  threadAnnotations fuel annotations = Ok (threads, root) ->
  AllObjs P threads.
Proof.
  unfold threadAnnotations. intros H.
  apply bind_Ok in H; [|discriminate].
  destruct H as [(threads1 & H1 & H)|[_ ?]]; [|discriminate].
  pose proof (collectRoot_objs (forIn threads1) (threads1, [])) as Hc.
  destruct (fold_left collectRoot (forIn threads1) (threads1, []))
    as [threads2 rootThreads].
  apply Ok_inj in H. injection H as <- _.
  apply Hc. simpl.
  eapply linkThreads_objs; [exact H1|]. apply initialThreads_objs.
Qed.
End ObjectInvariant.

Lemma threadAnnotations_root fuel annotations threads root :
  threadAnnotations fuel annotations = Ok (threads, root) ->
  annotation root = None /\ visible root = true /\ id root = "root"%string.
Proof.
  unfold threadAnnotations. intros H.
  apply bind_Ok in H; [|discriminate].
  destruct H as [(threads1 & H1 & H)|[_ ?]]; [|discriminate].
  destruct (fold_left collectRoot (forIn threads1) (threads1, []))
    as [threads2 rootThreads].
  apply Ok_inj in H. injection H as _ <-. auto.
Qed.

Lemma threadAnnotations_freshState fuel annotations threads root :
  threadAnnotations fuel annotations = Ok (threads, root) ->
  AllObjs freshState threads.
Proof.
  apply threadAnnotations_objs; unfold freshState; simpl; try tauto.
  - split; [reflexivity|discriminate].
  - intros a. split; [reflexivity|]. intros a' [= <-]. reflexivity.
Qed.

(** ** The sort is a permutation *)

Lemma insertSorted_perm {A : Type} (cmp : A -> A -> Z) x l :
  Permutation (insertSorted cmp x l) (x :: l).
Proof.
  induction l as [|y l IH]; simpl; [reflexivity|].
  destruct (cmp x y <? 0); [reflexivity|].
  rewrite IH. apply perm_swap.
Qed.

Lemma fold_insertSorted_perm {A : Type} (cmp : A -> A -> Z) l : forall acc,
  Permutation (fold_left (fun acc x => insertSorted cmp x acc) l acc) (acc ++ l).
Proof.
  induction l as [|x l IH]; intros acc; simpl.
  - by rewrite app_nil_r.
  - rewrite IH, insertSorted_perm. simpl. apply Permutation_middle.
Qed.

Lemma arraySort_perm {A : Type} (cmp : A -> A -> Z) l :
  Permutation (arraySort cmp l) l.
Proof. unfold arraySort. by rewrite fold_insertSorted_perm. Qed.

(** ** Passes over thread trees and the fields of their nodes *)

Lemma mapResult_Forall2 {A B : Type} (f : A -> result B) l : forall bs,
  mapResult f l = Ok bs -> Forall2 (fun a b => f a = Ok b) l bs.
Proof.
  induction l as [|a l IH]; intros bs H; simpl in H.
  - apply Ok_inj in H. subst. constructor.
  - apply bind_Ok in H; [|discriminate].
    destruct H as [(b & Hb & H)|[_ ?]]; [|discriminate].
    apply bind_Ok in H; [|discriminate].
    destruct H as [(bs' & Hbs & H)|[_ ?]]; [|discriminate].
    apply Ok_inj in H. subst. constructor; auto.
Qed.

Section FieldPasses.
Variable R : string -> option Annotation -> bool -> Prop.

Lemma mapThreadRef_onFields (P : ThreadObj -> Prop) threads mapFn :
  AllObjs P threads ->
  (forall o, P o -> R (id (mapFn o)) (annotation (mapFn o)) (visible (mapFn o))) ->
  forall fuel thread t,
    P thread ->
    mapThreadRef fuel threads thread mapFn = Ok t ->
    ForallNodes (onFields R) t.
Proof.
  intros Hall Hmap.
  induction fuel as [|fuel IH]; intros thread t Hthread H; [discriminate|].
  rewrite mapThreadRef_S in H.
  apply bind_Ok in H; [|discriminate].
  destruct H as [(cs & Hcs & H)|[_ ?]]; [|discriminate].
  apply Ok_inj in H. subst t.
  constructor.
  - unfold onFields. simpl. auto.
  - simpl. apply mapResult_Forall2 in Hcs.
    induction Hcs as [|k c ks cs Hk _ IHcs]; constructor; [|exact IHcs].
    destruct (objs threads !! k) as [child|] eqn:Ek; [|discriminate].
    eapply IH; [|exact Hk]. eapply Hall; eauto.
Qed.

Lemma ForallNodes_children n :
  ForallNodes (onFields R) (Node n) -> Forall (ForallNodes (onFields R)) (children n).
Proof. by inversion 1. Qed.

Lemma ForallNodes_root n :
  ForallNodes (onFields R) (Node n) -> R (id n) (annotation n) (visible n).
Proof. by inversion 1. Qed.

Lemma mapThread_onFields mapFn :
  (forall t, onFields R (node t) -> onFields R (mapFn t)) ->
  forall t, ForallNodes (onFields R) t -> ForallNodes (onFields R) (mapThread t mapFn).
Proof.
  intros Hmap t. induction t as [n IH] using Thread_induction. intros Ht.
  simpl. constructor.
  - specialize (Hmap (Node n) (ForallNodes_root _ Ht)). exact Hmap.
  - simpl. apply ForallNodes_children in Ht. apply Forall_map.
    rewrite Forall_forall in *. auto.
Qed.

Lemma sortThread_onFields t : forall compareFn replyCompareFn,
  ForallNodes (onFields R) t ->
  ForallNodes (onFields R) (sortThread t compareFn replyCompareFn).
Proof.
  induction t as [n IH] using Thread_induction. intros compareFn replyCompareFn Ht.
  simpl. constructor.
  - exact (ForallNodes_root _ Ht).
  - simpl. unfold sort.
    eapply Permutation_Forall; [symmetry; apply arraySort_perm|].
    apply ForallNodes_children in Ht. apply Forall_map.
    rewrite Forall_forall in *. auto.
Qed.

Lemma countRepliesAndDepth_onFields t : forall d,
  ForallNodes (onFields R) t ->
  ForallNodes (onFields R) (countRepliesAndDepth t d).
Proof.
  induction t as [n IH] using Thread_induction. intros d Ht.
  rewrite countRepliesAndDepth_unfold. constructor.
  - exact (ForallNodes_root _ Ht).
  - simpl. apply ForallNodes_children in Ht. apply Forall_map.
    rewrite Forall_forall in *. auto.
Qed.

Lemma removeInvisible_onFields (keep : Thread -> bool) t :
  ForallNodes (onFields R) t ->
  ForallNodes (onFields R)
    (Node (with_children (node t) (List.filter keep (children (node t))))).
Proof.
  destruct t as [n]. intros Ht. constructor.
  - exact (ForallNodes_root _ Ht).
  - simpl. apply ForallNodes_children in Ht.
    rewrite Forall_forall in *. intros c Hc.
    apply list_elem_of_In, List.filter_In in Hc as [Hc _].
    apply Ht. by apply list_elem_of_In.
Qed.
End FieldPasses.

(** ** Visibility *)

Lemma indexOf_ge l x : -1 <= indexOf l x.
Proof.
  induction l as [|y l IH]; simpl; [lia|].
  destruct (String.eqb y x); [lia|].
  destruct (Z.eqb_spec (indexOf l x) (-1)); lia.
Qed.

Lemma indexOf_In l x : (indexOf l x =? -1) = false <-> In x l.
Proof.
  induction l as [|y l IH]; simpl.
  - split; [discriminate|tauto].
  - destruct (String.eqb_spec y x) as [->|Hne].
    + split; auto.
    + pose proof (indexOf_ge l x).
      destruct (Z.eqb_spec (indexOf l x) (-1)) as [E|E].
      * split; [discriminate|]. intros [?|Hin]; [congruence|].
        apply IH in Hin. discriminate.
      * destruct (Z.eqb_spec (indexOf l x + 1) (-1)); [lia|].
        split; auto. intros _. right. by apply IH.
Qed.

Lemma isVisible_forced {C : Type} opts (thread : Thread_ C) a l :
  visible thread = true ->
  annotation thread = Some a ->
  opts_forceVisible opts = Some l ->
  In (annotationId a) l ->
  isVisible opts thread = true.
Proof.
  intros Hv Ha Hl Hin. unfold isVisible, hasForcedVisible.
  rewrite Hv, Ha, Hl. simpl.
  apply indexOf_In in Hin. rewrite Hin.
  destruct l; [apply indexOf_In in Hin; destruct Hin|]. reflexivity.
Qed.

Lemma isVisible_not_forced {C : Type} opts (thread : Thread_ C) a :
  visible thread = true ->
  annotation thread = Some a ->
  (forall l, opts_forceVisible opts = Some l -> ~ In (annotationId a) l) ->
  isVisible opts thread =
  match opts_filterFn opts with Some f => f a | None => true end.
Proof.
  intros Hv Ha Hl. unfold isVisible, hasForcedVisible.
  rewrite Hv, Ha. simpl.
  destruct (opts_forceVisible opts) as [l|]; simpl.
  - destruct (indexOf l (annotationId a) =? -1) eqn:E.
    + rewrite andb_false_r. destruct (opts_filterFn opts) as [f|]; [|reflexivity].
      by destruct (f a).
    + apply indexOf_In in E. by apply Hl in E.
  - destruct (opts_filterFn opts) as [f|]; [|reflexivity]. by destruct (f a).
Qed.

(** C7, as stated, fails: on [{id: "B", references: ["A"]}] with
    [forceVisible] holding both the key "A" and the id of the placeholder,
    the placeholder is in the returned tree, its id is in [forceVisible],
    and it is not visible. *)
Lemma forced_placeholder_is_invisible :
  exists root child,
    buildThread 3 [reply "B" ["A"]]
                (with_forceVisible noOptions (Some ["A"; "__default__"]))%string
    = Ok root
    /\ children (node root) = [child]
    /\ In (id (node child)) ["A"; "__default__"]%string
    /\ annotation (node child) = None
    /\ visible (node child) = false.
Proof.
  eexists. eexists. split; [vm_compute; reflexivity|].
  split; [reflexivity|]. simpl. auto.
Qed.

(** C7, amended.  The visibility pass makes a thread invisible when it has
    no annotation or its [visible] flag was already false, also when its id
    is in [forceVisible].  A thread with an annotation whose [visible] flag
    was true is made visible when the id of its annotation is in
    [forceVisible], whatever [filterFn] says; when it is not, the thread is
    visible exactly if no [filterFn] is given or [filterFn] accepts the
    annotation. *)
Theorem visibility_pass_rule {C : Type} (opts : Opts) (thread : Thread_ C) :
  (visible thread = false \/ annotation thread = None ->
   visible (setVisibility opts thread) = false)
  /\ (forall a l,
        visible thread = true -> annotation thread = Some a ->
        opts_forceVisible opts = Some l -> In (annotationId a) l ->
        visible (setVisibility opts thread) = true)
  /\ (forall a,
        visible thread = true -> annotation thread = Some a ->
        (forall l, opts_forceVisible opts = Some l -> ~ In (annotationId a) l) ->
        visible (setVisibility opts thread)
        = match opts_filterFn opts with Some f => f a | None => true end).
Proof.
  unfold setVisibility. simpl. repeat split.
  - unfold isVisible. intros [->| ->]; [reflexivity|]. by destruct (visible thread).
  - intros a l. apply isVisible_forced.
  - intros a. apply isVisible_not_forced.
Qed.

Lemma visibility_pass_rule_witness :
  let opts :=
    mergeOpts (with_filterFn (with_forceVisible noOptions (Some ["x"%string]))
                             (Some (fun _ => false))) in
  visible (setVisibility opts (with_children DEFAULT_THREAD_STATE (@nil string))) = false
  /\ visible (setVisibility opts (newThread (reply "x" []))) = true
  /\ visible (setVisibility opts (newThread (reply "y" []))) = false.
Proof.
  intros opts. split; [|split].
  - apply (proj1 (visibility_pass_rule opts (with_children DEFAULT_THREAD_STATE (@nil string)))).
    right. reflexivity.
  - apply (proj1 (proj2 (visibility_pass_rule opts (newThread (reply "x" []))))
             (reply "x" []) ["x"%string]); try reflexivity.
    simpl. auto.
  - rewrite (proj2 (proj2 (visibility_pass_rule opts (newThread (reply "y" []))))
               (reply "y" [])); try reflexivity.
    intros l [= <-]. simpl. intros [H|[]]. discriminate H.
Defined.

Lemma setStates_fields opts t :
  id (setStates opts t) = id (node t)
  /\ annotation (setStates opts t) = annotation (node t)
  /\ visible (setStates opts t) = visible (node t).
Proof.
  unfold setStates.
  destruct (opts_expanded opts !! id (node t));
    destruct (hasHighlights opts); [destruct (annotation (node t)) eqn:Ea| |destruct (annotation (node t)) eqn:Ea|];
    try destruct (negb (indexOf (opts_highlighted opts) (id (node t)) =? -1));
    simpl; auto.
Qed.

(** C8.  In the tree returned by [buildThread], every node that has an
    annotation and whose id is in the [forceVisible] option is visible,
    whatever the other options are; in particular when [filterFn] rejects
    its annotation. *)
Theorem forceVisible_overrides_filterFn fuel annotations options l root :
  buildThread fuel annotations options = Ok root ->
  forceVisible options = Some l ->
  ForallNodes (onFields (forcedVisible l)) root.
Proof.
  unfold buildThread. intros H Hl.
  apply bind_Ok in H; [|discriminate].
  destruct H as [([threads root0] & Hta & H)|[_ ?]]; [|discriminate].
  apply bind_Ok in H; [|discriminate].
  destruct H as [(thread & Hmap & H)|[_ ?]]; [|discriminate].
  apply Ok_inj in H. subst root.
  apply countRepliesAndDepth_onFields, sortThread_onFields, mapThread_onFields.
  { intros t. unfold onFields.
    destruct (setStates_fields (mergeOpts options) t) as (-> & -> & ->). auto. }
  apply removeInvisible_onFields.
  pose proof (threadAnnotations_freshState _ _ _ _ Hta) as Hall.
  pose proof (threadAnnotations_root _ _ _ _ Hta) as (Hra & Hrv & _).
  revert Hmap. apply (mapThreadRef_onFields _ freshState); [exact Hall | |].
  - intros o [Hv Hid] a Ha Hin. simpl in *.
    eapply isVisible_forced; [exact Hv | exact Ha | exact Hl |].
    by rewrite <- (Hid a Ha).
  - split.
    + destruct (hasSelected (mergeOpts options)), (opts_threadFilterFn (mergeOpts options));
        exact Hrv.
    + intros a.
      destruct (hasSelected (mergeOpts options)), (opts_threadFilterFn (mergeOpts options));
        simpl; rewrite Hra; discriminate.
Qed.

Lemma forceVisible_overrides_filterFn_witness :
  let options :=
    with_filterFn (with_forceVisible noOptions (Some ["B"%string]))
                  (Some (fun _ => false)) in
  exists root,
    buildThread 3 [reply "A" []; reply "B" ["A"]] options = Ok root
    /\ ForallNodes (onFields (forcedVisible ["B"%string])) root.
Proof.
  intros options. eexists. split; [vm_compute; reflexivity|].
  apply (forceVisible_overrides_filterFn 3 [reply "A" []; reply "B" ["A"]] options).
  - vm_compute. reflexivity.
  - reflexivity.
Defined.

(** ** Stable insertion sort under a consistent comparison *)

Section StableSort.
Context {A : Type}.
Variable cmp : A -> A -> Z.
Hypothesis cmp_asym : forall x y, cmp x y < 0 -> ~ cmp y x < 0.
Hypothesis cmp_negtrans : forall x y z, cmp x z < 0 -> cmp x y < 0 \/ cmp y z < 0.

Lemma cmp_trans x y z : cmp x y < 0 -> cmp y z < 0 -> cmp x z < 0.
Proof.
  intros Hxy Hyz. destruct (cmp_negtrans x z y Hxy) as [H|H]; [exact H|].
  exfalso. exact (cmp_asym _ _ Hyz H).
Qed.

Lemma insertSorted_sorted x l :
  StronglySorted (notAfter cmp) l -> StronglySorted (notAfter cmp) (insertSorted cmp x l).
Proof.
  induction 1 as [|y l Hl IH Hy]; simpl.
  - repeat constructor.
  - destruct (Z.ltb_spec (cmp x y) 0) as [Hlt|Hge].
    + constructor; [by constructor|]. constructor.
      * exact (cmp_asym _ _ Hlt).
      * eapply Forall_impl; [exact Hy|]. intros z Hz Hzx. apply Hz.
        exact (cmp_trans _ _ _ Hzx Hlt).
    + constructor; [exact IH|].
      eapply Permutation_Forall; [symmetry; apply insertSorted_perm|].
      constructor; [unfold notAfter; lia | exact Hy].
Qed.

Lemma fold_insertSorted_sorted l : forall acc,
  StronglySorted (notAfter cmp) acc ->
  StronglySorted (notAfter cmp) (fold_left (fun acc x => insertSorted cmp x acc) l acc).
Proof.
  induction l as [|x l IH]; intros acc Hacc; simpl; [exact Hacc|].
  apply IH, insertSorted_sorted, Hacc.
Qed.

Lemma arraySort_sorted l : StronglySorted (notAfter cmp) (arraySort cmp l).
Proof. apply fold_insertSorted_sorted. constructor. Qed.

Lemma StronglySorted_occursBefore l a b :
  StronglySorted (notAfter cmp) l -> occursBefore a b l -> ~ cmp b a < 0.
Proof.
  intros Hl (l1 & l2 & l3 & ->).
  apply StronglySorted_app_1_r in Hl.
  apply StronglySorted_inv in Hl as [_ Ha].
  rewrite Forall_forall in Ha. apply Ha.
  apply list_elem_of_In, in_or_app. right. by left.
Qed.

(** Insertion puts [x] behind everything ranked equal to it. *)
Lemma rankedEqual_insertSorted w x l :
  StronglySorted (notAfter cmp) l ->
  rankedEqual cmp w (insertSorted cmp x l)
  = rankedEqual cmp w l ++ rankedEqual cmp w [x].
Proof.
  unfold rankedEqual.
  induction 1 as [|y l Hl IH Hy]; simpl; [reflexivity|].
  destruct (Z.ltb_spec (cmp x y) 0) as [Hlt|Hge].
  - simpl.
    destruct (negb (cmp w x <? 0) && negb (cmp x w <? 0)) eqn:Ex;
      [|by rewrite app_nil_r].
    apply andb_true_iff in Ex as [Ewx Exw].
    apply negb_true_iff, Z.ltb_ge in Ewx, Exw.
    assert (Hall : Forall (fun z => cmp w z < 0) (y :: l)).
    { assert (Hy' : cmp w y < 0).
      { destruct (cmp_negtrans x w y Hlt) as [H|H]; [lia|exact H]. }
      constructor; [exact Hy'|].
      eapply Forall_impl; [exact Hy|]. intros z Hz.
      destruct (cmp_negtrans w z y Hy') as [H|H]; [exact H|]. by apply Hz in H. }
    assert (Hnil : List.filter (fun z => negb (cmp w z <? 0) && negb (cmp z w <? 0))
                               (y :: l) = []).
    { clear -Hall. induction Hall as [|z l' Hz _ IHl]; [reflexivity|].
      simpl. apply Z.ltb_lt in Hz. rewrite Hz. simpl. exact IHl. }
    simpl in Hnil. rewrite Hnil. reflexivity.
  - simpl. rewrite IH.
    by destruct (negb (cmp w y <? 0) && negb (cmp y w <? 0)).
Qed.

Lemma rankedEqual_fold w l : forall acc,
  StronglySorted (notAfter cmp) acc ->
  rankedEqual cmp w (fold_left (fun acc x => insertSorted cmp x acc) l acc)
  = rankedEqual cmp w acc ++ rankedEqual cmp w l.
Proof.
  induction l as [|x l IH]; intros acc Hacc; simpl.
  - unfold rankedEqual. simpl. by rewrite app_nil_r.
  - rewrite IH by (apply insertSorted_sorted, Hacc).
    rewrite rankedEqual_insertSorted by exact Hacc.
    unfold rankedEqual. simpl.
    rewrite <- app_assoc.
    by destruct (negb (cmp w x <? 0) && negb (cmp x w <? 0)).
Qed.

Lemma arraySort_stable w l : rankedEqual cmp w (arraySort cmp l) = rankedEqual cmp w l.
Proof. unfold arraySort. rewrite rankedEqual_fold; [reflexivity|constructor]. Qed.
End StableSort.

(** ** Occurrences *)

Lemma filter_app_inv {A : Type} (p : A -> bool) l : forall u v,
  List.filter p l = u ++ v ->
  exists l1 l2, l = l1 ++ l2 /\ List.filter p l1 = u /\ List.filter p l2 = v.
Proof.
  induction l as [|x l IH]; intros u v H; simpl in H.
  - symmetry in H. apply app_eq_nil in H as [-> ->]. by exists [], [].
  - destruct (p x) eqn:Ex.
    + destruct u as [|y u]; simpl in H.
      * exists [], (x :: l). simpl. rewrite Ex. auto.
      * injection H as <- H. apply IH in H as (l1 & l2 & -> & <- & <-).
        exists (x :: l1), l2. simpl. rewrite Ex. auto.
    + apply IH in H as (l1 & l2 & -> & <- & <-).
      exists (x :: l1), l2. simpl. rewrite Ex. auto.
Qed.

Lemma filter_cons_inv {A : Type} (p : A -> bool) l : forall a r,
  List.filter p l = a :: r ->
  exists l1 l2, l = l1 ++ a :: l2 /\ List.filter p l2 = r.
Proof.
  induction l as [|x l IH]; intros a r H; simpl in H; [discriminate|].
  destruct (p x).
  - injection H as <- <-. by exists [], l.
  - apply IH in H as (l1 & l2 & -> & <-). by exists (x :: l1), l2.
Qed.

Lemma occursBefore_filter {A : Type} (p : A -> bool) (a b : A) l :
  occursBefore a b (List.filter p l) -> occursBefore a b l.
Proof.
  intros (u & v & w & H).
  apply filter_app_inv in H as (l1 & m & -> & _ & H).
  apply filter_cons_inv in H as (m1 & m2 & -> & H).
  apply filter_app_inv in H as (n1 & n & -> & _ & H).
  apply filter_cons_inv in H as (n2 & n3 & -> & _).
  exists (l1 ++ m1), (n1 ++ n2), n3.
  by rewrite <- !app_assoc.
Qed.

Lemma filter_occursBefore {A : Type} (p : A -> bool) (a b : A) l :
  p a = true -> p b = true ->
  occursBefore a b l -> occursBefore a b (List.filter p l).
Proof.
  intros Ha Hb (l1 & l2 & l3 & ->).
  exists (List.filter p l1), (List.filter p l2), (List.filter p l3).
  rewrite List.filter_app. simpl. rewrite Ha, List.filter_app. simpl. by rewrite Hb.
Qed.

Lemma occursBefore_total {A : Type} (a b : A) l :
  In a l -> In b l -> a <> b -> occursBefore a b l \/ occursBefore b a l.
Proof.
  intros Ha Hb Hne.
  apply in_split in Ha as (l1 & l2 & ->).
  apply in_app_or in Hb as [Hb|[Hb|Hb]]; [|congruence|].
  - right. apply in_split in Hb as (m1 & m2 & ->).
    exists m1, m2, l2. by rewrite <- app_assoc.
  - left. apply in_split in Hb as (m1 & m2 & ->). by exists l1, m1, m2.
Qed.

(** ** The comparison of threads *)

Section CompareThreads.
Variable lt : Annotation -> Annotation -> bool.
Hypothesis lt_ok : LessThan lt.

Lemma lt_asymmetric x y : lt x y = true -> lt y x = false.
Proof.
  intros Hxy. destruct (lt y x) eqn:Hyx; [|reflexivity].
  pose proof (lt_transitive lt lt_ok _ _ _ Hxy Hyx) as H.
  by rewrite (lt_irreflexive lt lt_ok) in H.
Qed.

Lemma lt_negatively_transitive x y z :
  lt x z = true -> lt x y = true \/ lt y z = true.
Proof.
  intros Hxz.
  destruct (lt x y) eqn:Hxy; [by left|]. destruct (lt y z) eqn:Hyz; [by right|].
  exfalso.
  destruct (lt y x) eqn:Hyx.
  { pose proof (lt_transitive lt lt_ok _ _ _ Hyx Hxz). congruence. }
  destruct (lt z y) eqn:Hzy.
  { pose proof (lt_transitive lt lt_ok _ _ _ Hxz Hzy). congruence. }
  destruct (lt_equal_transitive lt lt_ok _ _ _ Hxy Hyx Hyz Hzy). congruence.
Qed.

Lemma compareThreads_before a b :
  compareThreads lt a b < 0 <->
  match annotation (node a), annotation (node b) with
  | None, Some _ => True
  | Some x, Some y => lt x y = true
  | _, _ => False
  end.
Proof.
  unfold compareThreads.
  destruct (annotation (node a)) as [x|], (annotation (node b)) as [y|];
    try (split; [lia|tauto]); try (split; [tauto|lia]).
  destruct (lt x y) eqn:Hxy; [split; [tauto|lia]|].
  destruct (lt y x); split; (lia || discriminate).
Qed.

Lemma compareThreads_asym a b :
  compareThreads lt a b < 0 -> ~ compareThreads lt b a < 0.
Proof.
  rewrite !compareThreads_before.
  destruct (annotation (node a)) as [x|], (annotation (node b)) as [y|]; try tauto.
  intros Hxy Hyx. apply lt_asymmetric in Hxy. congruence.
Qed.

Lemma compareThreads_negtrans a b c :
  compareThreads lt a c < 0 ->
  compareThreads lt a b < 0 \/ compareThreads lt b c < 0.
Proof.
  rewrite !compareThreads_before.
  destruct (annotation (node a)) as [x|], (annotation (node b)) as [y|],
           (annotation (node c)) as [z|]; try tauto.
  apply lt_negatively_transitive.
Qed.

Lemma tied_rankedEqual a b :
  tied lt a b ->
  negb (compareThreads lt a b <? 0) && negb (compareThreads lt b a <? 0) = true.
Proof.
  unfold tied. intros H.
  apply andb_true_iff. split; apply negb_true_iff, Z.ltb_ge, Z.le_ngt;
    rewrite compareThreads_before;
    destruct (annotation (node a)) as [x|], (annotation (node b)) as [y|];
    try tauto; destruct H; congruence.
Qed.

Lemma tied_refl a : tied lt a a.
Proof.
  unfold tied. destruct (annotation (node a)); [|exact I].
  by rewrite (lt_irreflexive lt lt_ok).
Qed.
End CompareThreads.

(** C6.  Let [lt] be a less-than predicate on annotations and [threads] a
    list of sibling threads.  [sort threads lt] rearranges [threads] so that
    - a thread whose annotation is less than that of another is placed
      before it, and never after it;
    - a thread without annotation is placed before every thread with one,
      and never after it;
    - two threads neither of which has to come before the other keep the
      order they had in [threads]: the threads ranked equal to any given
      thread occur in the same order before and after the sort. *)
Theorem sort_contract lt threads :
  LessThan lt ->
  Permutation (sort threads lt) threads
  /\ (forall a b x y,
        In a threads -> In b threads ->
        annotation (node a) = Some x -> annotation (node b) = Some y ->
        lt x y = true ->
        occursBefore a b (sort threads lt) /\ ~ occursBefore b a (sort threads lt))
  /\ (forall a b y,
        In a threads -> In b threads ->
        annotation (node a) = None -> annotation (node b) = Some y ->
        occursBefore a b (sort threads lt) /\ ~ occursBefore b a (sort threads lt))
  /\ (forall a b,
        tied lt a b -> occursBefore a b threads ->
        occursBefore a b (sort threads lt))
  /\ (forall w,
        rankedEqual (compareThreads lt) w (sort threads lt)
        = rankedEqual (compareThreads lt) w threads).
Proof.
  intros Hlt. unfold sort.
  pose proof (arraySort_perm (compareThreads lt) threads) as Hperm.
  pose proof (arraySort_sorted (compareThreads lt)
                (compareThreads_asym lt Hlt) (compareThreads_negtrans lt Hlt) threads)
    as Hsorted.
  pose proof (arraySort_stable (compareThreads lt)
                (compareThreads_asym lt Hlt) (compareThreads_negtrans lt Hlt))
    as Hstable.
  assert (Hbefore : forall a b,
             In a threads -> In b threads -> compareThreads lt a b < 0 ->
             occursBefore a b (arraySort (compareThreads lt) threads)
             /\ ~ occursBefore b a (arraySort (compareThreads lt) threads)).
  { intros a b Ha Hb Hab.
    assert (Hnot : ~ occursBefore b a (arraySort (compareThreads lt) threads)).
    { intros H. exact (StronglySorted_occursBefore _ _ _ _ Hsorted H Hab). }
    split; [|exact Hnot].
    assert (Ha' : In a (arraySort (compareThreads lt) threads))
      by exact (Permutation_in _ (Permutation_sym Hperm) Ha).
    assert (Hb' : In b (arraySort (compareThreads lt) threads))
      by exact (Permutation_in _ (Permutation_sym Hperm) Hb).
    assert (Hne : a <> b)
      by (intros ->; exact (compareThreads_asym lt Hlt _ _ Hab Hab)).
    destruct (occursBefore_total a b _ Ha' Hb' Hne) as [H|H];
      [exact H|contradiction]. }
  split; [exact Hperm|]. split; [|split; [|split]].
  - intros a b x y Ha Hb Hx Hy Hxy. apply Hbefore; [exact Ha|exact Hb|].
    apply compareThreads_before. by rewrite Hx, Hy.
  - intros a b y Ha Hb Hx Hy. apply Hbefore; [exact Ha|exact Hb|].
    apply compareThreads_before. by rewrite Hx, Hy.
  - intros a b Htied Hab.
    apply (occursBefore_filter
             (fun z => negb (compareThreads lt a z <? 0)
                       && negb (compareThreads lt z a <? 0))).
    fold (rankedEqual (compareThreads lt) a (arraySort (compareThreads lt) threads)).
    rewrite Hstable. apply filter_occursBefore; [| |exact Hab].
    + apply tied_rankedEqual. by apply tied_refl.
    + by apply tied_rankedEqual.
  - intros w. apply Hstable.
Qed.

(** ** The default order of replies is a less-than predicate *)

Lemma string_compare_refl s : String.compare s s = Eq.
Proof.
  induction s as [|c s IH]; simpl; [reflexivity|].
  unfold Ascii.compare. by rewrite N.compare_refl.
Qed.

Lemma string_compare_lt_trans a : forall b c,
  String.compare a b = Lt -> String.compare b c = Lt -> String.compare a c = Lt.
Proof.
  induction a as [|x a IH]; intros [|y b] [|z c]; simpl; try congruence.
  unfold Ascii.compare.
  destruct (N.compare_spec (N_of_ascii x) (N_of_ascii y)) as [Exy|Hxy|Hxy];
    destruct (N.compare_spec (N_of_ascii y) (N_of_ascii z)) as [Eyz|Hyz|Hyz];
    try discriminate; intros Hab Hbc.
  - rewrite Exy, Eyz, N.compare_refl. eauto.
  - rewrite Exy. by apply N.compare_lt_iff in Hyz as ->.
  - rewrite <- Eyz. by apply N.compare_lt_iff in Hxy as ->.
  - assert (H : (N_of_ascii x < N_of_ascii z)%N) by lia.
    by apply N.compare_lt_iff in H as ->.
Qed.

Lemma string_ltb_false_eq a b :
  String.ltb a b = false -> String.ltb b a = false -> a = b.
Proof.
  unfold String.ltb. rewrite (String.compare_antisym b a).
  destruct (String.compare a b) eqn:E; simpl; try discriminate.
  intros _ _. by apply String.compare_eq_iff.
Qed.

Lemma default_replySortCompareFn_LessThan :
  LessThan (opts_replySortCompareFn defaultOpts).
Proof.
  split; simpl.
  - intros a. unfold String.ltb. by rewrite string_compare_refl.
  - intros a b c. unfold String.ltb.
    destruct (String.compare (created a) (created b)) eqn:Hab; try discriminate.
    destruct (String.compare (created b) (created c)) eqn:Hbc; try discriminate.
    by rewrite (string_compare_lt_trans _ _ _ Hab Hbc).
  - intros a b c Hab Hba Hbc Hcb.
    rewrite (string_ltb_false_eq _ _ Hab Hba), (string_ltb_false_eq _ _ Hbc Hcb).
    unfold String.ltb. by rewrite string_compare_refl.
Qed.

Lemma sort_contract_witness :
  let lt := opts_replySortCompareFn defaultOpts in
  let early := leaf (newThread (mkAnnotation (Some "e") "" None "2020-01-01")) in
  let late := leaf (newThread (mkAnnotation (Some "l") "" None "2021-01-01")) in
  let late' := leaf (newThread (mkAnnotation (Some "m") "" None "2021-01-01")) in
  let missing := leaf DEFAULT_THREAD_STATE in
  sort [late; late'; early; missing] lt = [missing; early; late; late']
  /\ occursBefore early late (sort [late; late'; early; missing] lt)
  /\ occursBefore missing early (sort [late; late'; early; missing] lt)
  /\ occursBefore late late' (sort [late; late'; early; missing] lt).
Proof.
  intros lt early late late' missing.
  pose proof (sort_contract lt [late; late'; early; missing]
                default_replySortCompareFn_LessThan)
    as (_ & Hlt & Hmissing & Htied & _).
  split; [vm_compute; reflexivity|]. split; [|split].
  - apply (Hlt early late (mkAnnotation (Some "e") "" None "2020-01-01")
               (mkAnnotation (Some "l") "" None "2021-01-01"));
      try reflexivity; simpl; auto.
  - apply (Hmissing missing early (mkAnnotation (Some "e") "" None "2020-01-01"));
      try reflexivity; simpl; auto.
  - apply (Htied late late').
    + vm_compute. auto.
    + by exists [], [], [early; missing].
Defined.

Lemma sortThread_children n compareFn replyCompareFn :
  children (node (sortThread (Node n) compareFn replyCompareFn))
  = sort (map (fun child => sortThread child replyCompareFn replyCompareFn)
              (children n))
         compareFn.
Proof. reflexivity. Qed.

(** ** Links are made once and kept *)

Lemma lookup_store k o threads k' :
  objs (store k o threads) !! k' = if decide (k = k') then Some o else objs threads !! k'.
Proof. unfold store. simpl. apply lookup_insert. Qed.

Lemma keepsLinks_refl threads : keepsLinks threads threads.
Proof. intros k t Ht. exists t. auto. Qed.

Lemma keepsLinks_trans threads1 threads2 threads3 :
  keepsLinks threads1 threads2 -> keepsLinks threads2 threads3 ->
  keepsLinks threads1 threads3.
Proof.
  intros H12 H23 k t Ht.
  destruct (H12 k t Ht) as (t2 & Ht2 & Hp2 & Hc2).
  destruct (H23 k t2 Ht2) as (t3 & Ht3 & Hp3 & Hc3).
  exists t3. split; [exact Ht3|]. split; [|auto].
  intros Hp. rewrite <- (Hp2 Hp). apply Hp3. by rewrite (Hp2 Hp).
Qed.

(** What one call of [setParent] leaves alone: the threads other than
    [tid] keep their parent, [tid] keeps a parent it already had, and
    children are only added. *)
Lemma setParent_frame fuel : forall threads tid parents threads',
  setParent fuel threads tid parents = Ok threads' ->
  forall k t,
    objs threads !! k = Some t ->
    exists t',
      objs threads' !! k = Some t'
      /\ (k <> tid \/ truthy (parent t) = true -> parent t' = parent t)
      /\ (forall c, In c (children t) -> In c (children t')).
Proof.
  induction fuel as [|fuel IH]; intros threads tid parents threads' H k t Hk;
    [discriminate|].
  rewrite setParent_S in H.
  destruct (objs threads !! tid) as [t0|] eqn:Etid; [|discriminate].
  destruct (truthy (parent t0)) eqn:Etruthy;
    [apply Ok_inj in H; subst; exists t; auto|].
  destruct (last parents) as [parentId|]; [|apply Ok_inj in H; subst; exists t; auto].
  apply bind_Ok in H; [|discriminate].
  destruct H as [(threads1 & H1 & H)|[_ ?]]; [|discriminate].
  assert (Hk1 : exists t1, objs threads1 !! k = Some t1
                           /\ parent t1 = parent t
                           /\ forall c, In c (children t) -> In c (children t1)).
  { destruct (objs threads !! parentId) as [p|] eqn:Ep.
    - apply Ok_inj in H1. subst. exists t. auto.
    - assert (Hne : k <> parentId) by congruence.
      destruct (IH _ _ _ _ H1 k t) as (t1 & Ht1 & Hp1 & Hc1).
      { rewrite lookup_store. by destruct (decide (parentId = k)). }
      exists t1. auto. }
  destruct Hk1 as (t1 & Ht1 & Hp1 & Hc1).
  apply bind_Ok in H; [|discriminate].
  destruct H as [([|] & _ & H)|[_ ?]]; [| |discriminate];
    [|apply Ok_inj in H; subst; exists t1; split; [exact Ht1|]; split; auto].
  apply bind_Ok in H; [|discriminate].
  destruct H as [(threads2 & H2 & H)|[_ ?]]; [|discriminate].
  unfold assignParent in H2.
  destruct (objs threads1 !! tid) as [ti|] eqn:Eti; [|discriminate].
  apply Ok_inj in H2. subst threads2.
  unfold pushChild in H. rewrite lookup_store in H.
  assert (Hcond : k = tid -> ~ (k <> tid \/ truthy (parent t) = true)).
  { intros ->. intros [?|Ht]; [congruence|].
    rewrite Etid in Hk. injection Hk as ->. congruence. }
  destruct (decide (tid = parentId)) as [->|Hne].
  - apply Ok_inj in H. subst threads'.
    rewrite !lookup_store.
    destruct (decide (parentId = k)) as [<-|Hk'].
    + eexists. split; [reflexivity|]. simpl. split.
      * intros Hc. by destruct (Hcond eq_refl).
      * intros c Hc. apply in_or_app. left.
        rewrite Ht1 in Eti. injection Eti as <-. auto.
    + exists t1. split; [exact Ht1|]. auto.
  - destruct (objs threads1 !! parentId) as [p|] eqn:Ep; [|discriminate].
    apply Ok_inj in H. subst threads'.
    rewrite !lookup_store.
    destruct (decide (parentId = k)) as [<-|Hk'].
    + eexists. split; [reflexivity|]. simpl.
      rewrite Ht1 in Ep. injection Ep as <-.
      split; [auto|]. intros c Hc. apply in_or_app. auto.
    + destruct (decide (tid = k)) as [<-|Hk''].
      * eexists. split; [reflexivity|]. simpl.
        rewrite Ht1 in Eti. injection Eti as <-.
        split; [|auto]. intros Hc. by destruct (Hcond eq_refl).
      * exists t1. split; [exact Ht1|]. auto.
Qed.

Lemma setParent_keepsLinks fuel threads tid parents threads' :
  setParent fuel threads tid parents = Ok threads' -> keepsLinks threads threads'.
Proof.
  intros H k t Hk.
  destruct (setParent_frame _ _ _ _ _ H k t Hk) as (t' & Ht' & Hp & Hc).
  exists t'. auto.
Qed.

Lemma linkThreads_keepsLinks fuel annotations : forall threads threads',
  linkThreads fuel annotations threads = Ok threads' -> keepsLinks threads threads'.
Proof.
  unfold linkThreads.
  induction annotations as [|a l IH]; intros threads threads' H; simpl in H.
  - apply Ok_inj in H. subst. apply keepsLinks_refl.
  - apply bind_Ok in H; [|discriminate].
    destruct H as [(threads1 & H1 & H)|[_ ?]]; [|discriminate].
    eapply keepsLinks_trans; [eapply setParent_keepsLinks; exact H1|].
    by apply IH.
Qed.

Lemma collectRoot_keepsLinks keys : forall st,
  keepsLinks (fst st) (fst (fold_left collectRoot keys st)).
Proof.
  induction keys as [|k keys IH]; intros st; simpl; [apply keepsLinks_refl|].
  eapply keepsLinks_trans; [|apply IH].
  unfold collectRoot.
  destruct (objs (fst st) !! k) as [t|] eqn:Et; [|apply keepsLinks_refl].
  destruct (truthy (parent t)); [apply keepsLinks_refl|].
  simpl. intros k' t' Hk'. rewrite lookup_store.
  destruct (decide (k = k')) as [<-|Hne].
  - rewrite Et in Hk'. injection Hk' as <-. eexists. split; [reflexivity|]. auto.
  - exists t'. auto.
Qed.

Lemma initialThreads_lookup annotations b :
  In b annotations -> is_Some (objs (initialThreads annotations) !! annotationId b).
Proof.
  unfold initialThreads.
  assert (H : forall l acc,
             In b l \/ is_Some (objs acc !! annotationId b) ->
             is_Some (objs (fold_left
                              (fun threads a => store (annotationId a) (newThread a) threads)
                              l acc) !! annotationId b)).
  { induction l as [|a l IH]; intros acc [Hin|Hacc]; simpl; auto.
    - destruct Hin.
    - apply IH. destruct Hin as [->|Hin]; [right|by left].
      rewrite lookup_store. by destruct (decide _).
    - apply IH. right. rewrite lookup_store. by destruct (decide _). }
  intros Hin. apply H. by left.
Qed.

Lemma linkThreads_app fuel l1 l2 threads :
  linkThreads fuel (l1 ++ l2) threads
  = linkThreads fuel l1 threads ≫= linkThreads fuel l2.
Proof.
  unfold linkThreads. revert threads.
  induction l1 as [|a l1 IH]; intros threads; simpl; [reflexivity|].
  destruct (setParent fuel threads (annotationId a) (default [] (references a)));
    simpl; auto.
Qed.

(** A call of [setParent] for a thread without parent whose nearest ancestor
    exists and passes the ancestor walk links the two. *)
Lemma setParent_links fuel threads tid parents parentId threads' :
  hasParent threads tid = false ->
  last parents = Some parentId ->
  is_Some (objs threads !! parentId) ->
  hasPathToRoot fuel threads tid parentId = Ok true ->
  setParent fuel threads tid parents = Ok threads' ->
  exists ta tb,
    objs threads' !! tid = Some ta /\ objs threads' !! parentId = Some tb
    /\ parent ta = Some parentId /\ In tid (children tb).
Proof.
  intros Hnp Hlast [p Hp] Hwalk H.
  destruct fuel as [|fuel]; [discriminate|].
  rewrite setParent_S in H. unfold hasParent in Hnp.
  destruct (objs threads !! tid) as [t|] eqn:Et; [|discriminate].
  rewrite Hnp, Hlast, Hp in H. simpl in H.
  destruct (hasPathToRoot fuel threads tid parentId) as [ok| |] eqn:Eok;
    [|discriminate..].
  rewrite (hasPathToRoot_fuel fuel (S fuel) _ _ _ (Ok ok)) in Hwalk;
    [|exact Eok|discriminate|lia].
  apply Ok_inj in Hwalk. subst ok. simpl in H.
  unfold assignParent in H. rewrite Et in H. simpl in H.
  unfold pushChild in H. rewrite lookup_store in H.
  destruct (decide (tid = parentId)) as [->|Hne].
  - apply Ok_inj in H. subst threads'. rewrite lookup_store.
    destruct (decide (parentId = parentId)); [|congruence].
    eexists. eexists. split; [reflexivity|]. split; [reflexivity|]. simpl.
    split; [reflexivity|]. apply in_or_app. right. by left.
  - rewrite Hp in H. apply Ok_inj in H. subst threads'. rewrite !lookup_store.
    destruct (decide (parentId = tid)); [congruence|].
    destruct (decide (tid = tid)); [|congruence].
    destruct (decide (parentId = parentId)); [|congruence].
    eexists. eexists. split; [reflexivity|]. split; [reflexivity|]. simpl.
    split; [reflexivity|]. apply in_or_app. right. by left.
Qed.

(** C3, as stated, fails.  Of two annotations that name each other as
    nearest ancestor only the first is linked: the second would close a
    cycle.  Of two records with the same id only the first is linked. *)
Lemma nearest_ancestor_not_always_linked :
  (last (default [] (references (reply "2" ["1"])))
     = Some (annotationId (reply "1" ["2"]))
   /\ parent <$> lookupThread
        (threadAnnotations 3 [reply "1" ["2"]; reply "2" ["1"]]) "2" = Some None
   /\ children <$> lookupThread
        (threadAnnotations 3 [reply "1" ["2"]; reply "2" ["1"]]) "1" = Some [])
  /\ (last (default [] (references (reply "x" ["q"])))
        = Some (annotationId (reply "q" []))
      /\ parent <$> lookupThread
           (threadAnnotations 3
              [reply "p" []; reply "q" []; reply "x" ["p"]; reply "x" ["q"]]) "x"
         = Some (Some "p"%string)
      /\ children <$> lookupThread
           (threadAnnotations 3
              [reply "p" []; reply "q" []; reply "x" ["p"]; reply "x" ["q"]]) "q"
         = Some []).
Proof. vm_compute. repeat split; reflexivity. Qed.


(** * Further properties *)

(** ** Sorting *)

(** X1.  Whatever the comparison function, consistent or not, [sort]
    returns a rearrangement of its argument: no thread is dropped and none
    is duplicated. *)
Theorem sort_rearranges threads compareFn :
  Permutation (sort threads compareFn) threads.
Proof. unfold sort. apply arraySort_perm. Qed.

Lemma insertSorted_last {A : Type} (cmp : A -> A -> Z) x l :
  Forall (fun y => ~ cmp x y < 0) l -> insertSorted cmp x l = l ++ [x].
Proof.
  induction 1 as [|y l Hy _ IH]; simpl; [reflexivity|].
  destruct (Z.ltb_spec (cmp x y) 0); [contradiction|]. by rewrite IH.
Qed.

Lemma fold_insertSorted_sorted_input {A : Type} (cmp : A -> A -> Z) l : forall acc,
  StronglySorted (notAfter cmp) (acc ++ l) ->
  fold_left (fun acc x => insertSorted cmp x acc) l acc = acc ++ l.
Proof.
  induction l as [|x l IH]; intros acc Hs; simpl; [by rewrite app_nil_r|].
  rewrite insertSorted_last.
  - rewrite IH; rewrite <- app_assoc; [reflexivity|exact Hs].
  - rewrite Forall_forall. intros y Hy.
    change (notAfter cmp y x).
    eapply (StronglySorted_app_1_elem_of _ acc (x :: l)); [exact Hs|exact Hy|].
    by left.
Qed.

Lemma arraySort_sorted_input {A : Type} (cmp : A -> A -> Z) l :
  StronglySorted (notAfter cmp) l -> arraySort cmp l = l.
Proof. intros Hs. unfold arraySort. by rewrite fold_insertSorted_sorted_input. Qed.

(** X2.  For a less-than predicate, sorting a list of threads that is
    already sorted changes nothing; in particular sorting twice is the same
    as sorting once. *)
Theorem sort_idempotent lt threads :
  LessThan lt ->
  sort (sort threads lt) lt = sort threads lt.
Proof.
  intros Hlt. unfold sort. apply arraySort_sorted_input.
  apply arraySort_sorted.
  - by apply compareThreads_asym.
  - by apply compareThreads_negtrans.
Qed.

Lemma sort_idempotent_witness :
  let lt := opts_replySortCompareFn defaultOpts in
  let early := leaf (newThread (mkAnnotation (Some "e") "" None "2020-01-01")) in
  let late := leaf (newThread (mkAnnotation (Some "l") "" None "2021-01-01")) in
  let missing := leaf DEFAULT_THREAD_STATE in
  sort (sort [late; early; missing] lt) lt = sort [late; early; missing] lt
  /\ sort [late; early; missing] lt = [missing; early; late].
Proof.
  intros lt early late missing. split.
  - apply (sort_idempotent lt [late; early; missing]).
    exact default_replySortCompareFn_LessThan.
  - vm_compute. reflexivity.
Defined.

(** ** Traversals *)

Lemma hasVisibleChildren_unfold n :
  hasVisibleChildren (Node n)
  = existsb (fun child => visible (node child) || hasVisibleChildren child) (children n).
Proof. reflexivity. Qed.

Lemma hasVisibleChildren_descendants t :
  hasVisibleChildren t = true <->
  exists d, In d (descendants t) /\ visible (node d) = true.
Proof.
  induction t as [n IH] using Thread_induction.
  rewrite hasVisibleChildren_unfold, existsb_exists. simpl descendants.
  split.
  - intros (c & Hc & Hv). apply orb_true_iff in Hv as [Hv|Hv].
    + exists c. split; [|exact Hv]. apply in_flat_map. exists c. split; [exact Hc|by left].
    + rewrite Forall_forall in IH.
      apply (IH c) in Hv as (d & Hd & Hv); [|by apply list_elem_of_In].
      exists d. split; [|exact Hv]. apply in_flat_map. exists c. split; [exact Hc|by right].
  - intros (d & Hd & Hv). apply in_flat_map in Hd as (c & Hc & [<-|Hd]).
    + exists c. split; [exact Hc|]. by rewrite Hv.
    + exists c. split; [exact Hc|]. apply orb_true_iff. right.
      rewrite Forall_forall in IH. apply IH; [by apply list_elem_of_In|]. eauto.
Qed.

(** X3.  [hasVisibleChildren] looks at all levels: it answers true exactly
    when some proper descendant of the thread, a child or deeper, is
    visible. *)
Theorem hasVisibleChildren_iff_visible_descendant thread :
  hasVisibleChildren thread = true <->
  exists d, In d (descendants thread) /\ visible (node d) = true.
Proof. apply hasVisibleChildren_descendants. Qed.

Lemma with_counts_with_counts {C D E : Type} (n : Thread_ C) (cs : list D)
      (cs' : list E) d r d' r' :
  with_counts (with_counts n cs d r) cs' d' r' = with_counts n cs' d' r'.
Proof. reflexivity. Qed.

(** X4.  [countRepliesAndDepth] overwrites counts that are already there:
    run on its own result with the same depth it returns that result. *)
Theorem countRepliesAndDepth_idempotent thread :
  forall d,
    countRepliesAndDepth (countRepliesAndDepth thread d) d
    = countRepliesAndDepth thread d.
Proof.
  induction thread as [n IH] using Thread_induction. intros d.
  rewrite (countRepliesAndDepth_unfold n).
  rewrite countRepliesAndDepth_unfold. simpl children.
  rewrite with_counts_with_counts, map_map.
  assert (E : map (fun c => countRepliesAndDepth (countRepliesAndDepth c (d + 1)) (d + 1))
                  (children n)
              = map (fun c => countRepliesAndDepth c (d + 1)) (children n)).
  { apply map_ext_in. intros c Hc. rewrite Forall_forall in IH.
    apply IH. by apply list_elem_of_In. }
  by rewrite E.
Qed.

(** ** The updates of the thread map, one at a time *)

Lemma lookup_linkTo threads tid parentId t p k :
  objs (linkTo threads tid parentId t p) !! k =
  if decide (parentId = k) then
    Some (with_children
            (if decide (tid = parentId) then with_parent t (Some parentId) else p)
            (children (if decide (tid = parentId) then with_parent t (Some parentId) else p)
             ++ [tid]))
  else if decide (tid = k) then Some (with_parent t (Some parentId))
  else objs threads !! k.
Proof. unfold linkTo. by rewrite !lookup_store. Qed.

Lemma assign_push threads tid parentId t p :
  objs threads !! tid = Some t ->
  objs threads !! parentId = Some p ->
  (threads2 ← assignParent threads tid parentId; pushChild threads2 parentId tid)
  = Ok (linkTo threads tid parentId t p).
Proof.
  intros Ht Hp. unfold assignParent. rewrite Ht. simpl.
  unfold pushChild. rewrite lookup_store. unfold linkTo.
  destruct (decide (tid = parentId)); [reflexivity|]. by rewrite Hp.
Qed.

(** A call of [setParent] that returns has made a sequence of updates. *)
Lemma setParent_steps fuel : forall threads tid parents threads',
  setParent fuel threads tid parents = Ok threads' -> rtc step threads threads'.
Proof.
  induction fuel as [|fuel IH]; intros threads tid parents threads' H; [discriminate|].
  rewrite setParent_S in H.
  destruct (objs threads !! tid) as [t|] eqn:Et; [|discriminate].
  destruct (truthy (parent t)) eqn:Etruthy; [apply Ok_inj in H; by subst|].
  destruct (last parents) as [parentId|]; [|apply Ok_inj in H; by subst].
  apply bind_Ok in H; [|discriminate].
  destruct H as [(threads1 & H1 & H)|[_ ?]]; [|discriminate].
  assert (Hsteps : rtc step threads threads1
                   /\ (exists t1, objs threads1 !! tid = Some t1 /\ parent t1 = parent t)
                   /\ (fuel <> 0%nat -> is_Some (objs threads1 !! parentId))).
  { destruct (objs threads !! parentId) as [p|] eqn:Ep.
    - apply Ok_inj in H1. subst. split; [reflexivity|]. split; eauto.
    - assert (Hne : tid <> parentId) by congruence.
      split; [|split].
      + eapply rtc_l; [by apply step_placeholder|]. eapply IH. exact H1.
      + destruct (setParent_frame _ _ _ _ _ H1 tid t) as (t1 & Ht1 & Hp1 & _).
        { rewrite lookup_store. by destruct (decide (parentId = tid)). }
        exists t1. split; [exact Ht1|]. apply Hp1. by left.
      + intros _.
        destruct (setParent_frame _ _ _ _ _ H1 parentId
                    (with_children DEFAULT_THREAD_STATE [])) as (t1 & Ht1 & _).
        { rewrite lookup_store. by destruct (decide (parentId = parentId)). }
        by exists t1. }
  destruct Hsteps as (Hsteps & (t1 & Ht1 & Hp1) & Hp).
  apply bind_Ok in H; [|discriminate].
  destruct H as [([|] & Hwalk & H)|[_ ?]]; [| |discriminate];
    [|apply Ok_inj in H; by subst].
  destruct Hp as [p Hp]; [by destruct fuel|].
  rewrite (assign_push _ _ _ _ _ Ht1 Hp) in H. apply Ok_inj in H. subst threads'.
  eapply rtc_r; [exact Hsteps|].
  eapply step_link; eauto. by rewrite Hp1.
Qed.

Lemma linkThreads_steps fuel annotations : forall threads threads',
  linkThreads fuel annotations threads = Ok threads' -> rtc step threads threads'.
Proof.
  unfold linkThreads.
  induction annotations as [|a l IH]; intros threads threads' H; simpl in H.
  - apply Ok_inj in H. by subst.
  - apply bind_Ok in H; [|discriminate].
    destruct H as [(threads1 & H1 & H)|[_ ?]]; [|discriminate].
    etrans; [eapply setParent_steps; exact H1|]. by apply IH.
Qed.

Lemma collectRoot_steps keys : forall st,
  rtc step (fst st) (fst (fold_left collectRoot keys st)).
Proof.
  induction keys as [|k keys IH]; intros st; simpl; [reflexivity|].
  etrans; [|apply IH].
  unfold collectRoot.
  destruct (objs (fst st) !! k) as [t|] eqn:Et; [|reflexivity].
  destruct (truthy (parent t)) eqn:Ep; [reflexivity|].
  simpl. apply rtc_once. by apply step_collapse.
Qed.

Lemma threadAnnotations_steps fuel annotations threads root :
  threadAnnotations fuel annotations = Ok (threads, root) ->
  rtc step (initialThreads annotations) threads.
Proof.
  unfold threadAnnotations. intros H.
  apply bind_Ok in H; [|discriminate].
  destruct H as [(threads1 & H1 & H)|[_ ?]]; [|discriminate].
  pose proof (collectRoot_steps (forIn threads1) (threads1, [])) as Hc.
  destruct (fold_left collectRoot (forIn threads1) (threads1, []))
    as [threads2 rootThreads].
  apply Ok_inj in H. injection H as <- _. simpl in Hc.
  etrans; [eapply linkThreads_steps; exact H1|exact Hc].
Qed.

Lemma steps_invariant (Inv : Threads -> Prop) :
  (forall threads threads', step threads threads' -> Inv threads -> Inv threads') ->
  forall threads threads', rtc step threads threads' -> Inv threads -> Inv threads'.
Proof. intros Hstep threads threads' H. induction H; eauto. Qed.

(** ** Invariants of the updates *)

Lemma wellOrdered_empty : wellOrdered emptyThreads.
Proof.
  split; [constructor|]. intros k. simpl. rewrite lookup_empty.
  split; [intros []|intros [? ?]; discriminate].
Qed.

Lemma wellOrdered_store k o threads :
  wellOrdered threads -> wellOrdered (store k o threads).
Proof.
  intros [Hnd Hdom]. unfold store, wellOrdered. simpl.
  destruct (objs threads !! k) as [t|] eqn:Ek.
  - split; [exact Hnd|]. intros k'. rewrite lookup_insert.
    destruct (decide (k = k')) as [<-|]; [|apply Hdom].
    split; [eauto|]. intros _. apply Hdom. eauto.
  - split.
    + apply NoDup_app. split; [exact Hnd|]. split; [|repeat constructor; by intros ?%elem_of_nil].
      intros x Hx ->%list_elem_of_singleton.
      apply list_elem_of_In, Hdom in Hx as [? Hx]. congruence.
    + intros k'. rewrite in_app_iff, lookup_insert. simpl.
      destruct (decide (k = k')) as [<-|Hne].
      * split; eauto.
      * rewrite Hdom. split; [intros [H|[H|[]]]; [exact H|contradiction]|auto].
Qed.

Lemma step_wellOrdered threads threads' :
  step threads threads' -> wellOrdered threads -> wellOrdered threads'.
Proof.
  destruct 1; intros Hw; unfold linkTo; repeat apply wellOrdered_store; exact Hw.
Qed.

Lemma initialThreads_wellOrdered annotations : wellOrdered (initialThreads annotations).
Proof.
  unfold initialThreads. generalize wellOrdered_empty. generalize emptyThreads.
  induction annotations as [|a l IH]; intros threads H; simpl; [exact H|].
  apply IH. by apply wellOrdered_store.
Qed.

Lemma step_keepsLinks threads threads' :
  step threads threads' -> keepsLinks threads threads'.
Proof.
  destruct 1 as [threads k Hk|threads tid parentId t p fuel Ht Htruthy Hp Hwalk
                 |threads k t Hk Htruthy]; intros k' t' Hk'.
  - rewrite lookup_store. destruct (decide (k = k')) as [<-|]; [congruence|].
    exists t'. auto.
  - rewrite lookup_linkTo.
    destruct (decide (parentId = k')) as [<-|Hne].
    + eexists. split; [reflexivity|]. simpl.
      destruct (decide (tid = parentId)) as [->|Hne'].
      * rewrite Ht in Hk'. injection Hk' as <-. simpl.
        split; [congruence|]. intros c Hc. apply in_or_app. by left.
      * rewrite Hp in Hk'. injection Hk' as <-.
        split; [auto|]. intros c Hc. apply in_or_app. by left.
    + destruct (decide (tid = k')) as [<-|Hne'].
      * rewrite Ht in Hk'. injection Hk' as <-.
        eexists. split; [reflexivity|]. simpl. split; [congruence|auto].
      * exists t'. auto.
  - rewrite lookup_store. destruct (decide (k = k')) as [<-|].
    + rewrite Hk in Hk'. injection Hk' as <-. eexists. split; [reflexivity|]. auto.
    + exists t'. auto.
Qed.

Lemma steps_keepsLinks threads threads' :
  rtc step threads threads' -> keepsLinks threads threads'.
Proof.
  induction 1 as [|threads1 threads2 threads3 H _ IH]; [apply keepsLinks_refl|].
  eapply keepsLinks_trans; [by apply step_keepsLinks|exact IH].
Qed.

#[local] Arguments store : simpl never.
#[local] Arguments linkTo : simpl never.

Lemma truthy_Some k : k <> ""%string -> truthy (Some k) = true.
Proof. intros Hk. unfold truthy. by destruct (String.eqb_spec k ""). Qed.

Lemma children_transfer threads threads' k (cs : list string) :
  keepsLinks threads threads' ->
  (forall c, In c cs ->
     exists tc, objs threads !! c = Some tc /\ (k <> ""%string -> parent tc = Some k)) ->
  forall c, In c cs ->
    exists tc, objs threads' !! c = Some tc /\ (k <> ""%string -> parent tc = Some k).
Proof.
  intros Hkeep Hcs c Hc.
  destruct (Hcs c Hc) as (tc & Htc & Hp).
  destruct (Hkeep c tc Htc) as (tc' & Htc' & Hp' & _).
  exists tc'. split; [exact Htc'|]. intros Hk.
  rewrite Hp'; [by apply Hp|]. rewrite (Hp Hk). by apply truthy_Some.
Qed.

Lemma step_childrenKnowParent threads threads' :
  step threads threads' -> childrenKnowParent threads -> childrenKnowParent threads'.
Proof.
  intros Hstep Hinv. pose proof (step_keepsLinks _ _ Hstep) as Hkeep.
  destruct Hstep as [threads k Hk|threads tid parentId t p fuel Ht Htruthy Hp Hwalk
                     |threads k t Hk Htruthy]; intros k' t' Hk'.
  - rewrite lookup_store in Hk'. destruct (decide (k = k')) as [<-|].
    + injection Hk' as <-. simpl. split; [intros c []|intros _; constructor].
    + destruct (Hinv k' t' Hk') as [Hcs Hnd]. split; [|exact Hnd].
      by apply (children_transfer threads).
  - rewrite lookup_linkTo in Hk'.
    destruct (decide (parentId = k')) as [<-|Hne].
    + injection Hk' as <-. cbn [children with_children].
      set (p0 := if decide (tid = parentId) then with_parent t (Some parentId) else p).
      assert (Hp0 : exists p1, objs threads !! parentId = Some p1
                               /\ children p0 = children p1).
      { unfold p0. destruct (decide (tid = parentId)) as [->|]; eauto. }
      destruct Hp0 as (p1 & Hp1 & ->).
      destruct (Hinv parentId p1 Hp1) as [Hcs Hnd].
      assert (Htid : exists tc, objs (linkTo threads tid parentId t p) !! tid = Some tc
                                /\ parent tc = Some parentId).
      { rewrite lookup_linkTo. unfold p0.
        destruct (decide (parentId = tid)) as [<-|].
        - destruct (decide (parentId = parentId)); [|congruence]. eauto.
        - destruct (decide (tid = tid)); [|congruence]. eauto. }
      split.
      * intros c [Hc|[<-|[]]]%in_app_or.
        -- by apply (children_transfer threads _ _ (children p1)).
        -- destruct Htid as (tc & Htc & Hpc). eauto.
      * intros Hk. apply NoDup_app. split; [by apply Hnd|].
        split; [|repeat constructor; by intros ?%elem_of_nil].
        intros x Hx ->%list_elem_of_singleton.
        apply list_elem_of_In, Hcs in Hx as (tc & Htc & Hpc).
        rewrite Ht in Htc. injection Htc as <-.
        rewrite (Hpc Hk), (truthy_Some _ Hk) in Htruthy. discriminate.
    + assert (Hold : exists t0, objs threads !! k' = Some t0 /\ children t' = children t0).
      { destruct (decide (tid = k')) as [<-|]; [|eauto].
        injection Hk' as <-. eauto. }
      destruct Hold as (t0 & Ht0 & ->).
      destruct (Hinv k' t0 Ht0) as [Hcs Hnd]. split; [|exact Hnd].
      by apply (children_transfer threads).
  - rewrite lookup_store in Hk'.
    assert (Hold : exists t0, objs threads !! k' = Some t0 /\ children t' = children t0).
    { destruct (decide (k = k')) as [<-|]; [|eauto]. injection Hk' as <-. eauto. }
    destruct Hold as (t0 & Ht0 & ->).
    destruct (Hinv k' t0 Ht0) as [Hcs Hnd]. split; [|exact Hnd].
    by apply (children_transfer threads).
Qed.

Lemma step_parentsKnowChildren threads threads' :
  step threads threads' -> parentsKnowChildren threads -> parentsKnowChildren threads'.
Proof.
  intros Hstep Hinv. pose proof (step_keepsLinks _ _ Hstep) as Hkeep.
  assert (Hold : forall k t q,
             objs threads !! k = Some t -> parent t = Some q ->
             exists tq, objs threads' !! q = Some tq /\ In k (children tq)).
  { intros k t q Hk Hq. destruct (Hinv k t q Hk Hq) as (tq & Htq & Hin).
    destruct (Hkeep q tq Htq) as (tq' & Htq' & _ & Hcs). eauto. }
  destruct Hstep as [threads k Hk|threads tid parentId t p fuel Ht Htruthy Hp Hwalk
                     |threads k t Hk Htruthy]; intros k' t' q Hk' Hq.
  - rewrite lookup_store in Hk'. destruct (decide (k = k')) as [<-|].
    + injection Hk' as <-. discriminate.
    + eauto.
  - assert (Hpid : exists tp, objs (linkTo threads tid parentId t p) !! parentId = Some tp
                              /\ In tid (children tp)).
    { rewrite lookup_linkTo. destruct (decide (parentId = parentId)); [|congruence].
      eexists. split; [reflexivity|]. simpl. apply in_or_app. right. by left. }
    rewrite lookup_linkTo in Hk'.
    destruct (decide (parentId = k')) as [<-|Hne].
    + injection Hk' as <-. simpl in Hq.
      destruct (decide (tid = parentId)) as [->|].
      * simpl in Hq. injection Hq as <-. exact Hpid.
      * eauto.
    + destruct (decide (tid = k')) as [<-|]; [|eauto].
      injection Hk' as <-. simpl in Hq. injection Hq as <-. exact Hpid.
  - rewrite lookup_store in Hk'. destruct (decide (k = k')) as [<-|]; [|eauto].
    injection Hk' as <-. simpl in Hq. eauto.
Qed.

Lemma initialThreads_fresh annotations k t :
  objs (initialThreads annotations) !! k = Some t ->
  exists a, In a annotations /\ k = annotationId a /\ t = newThread a.
Proof.
  unfold initialThreads.
  assert (H : forall l acc,
             objs (fold_left
                     (fun threads a => store (annotationId a) (newThread a) threads)
                     l acc) !! k = Some t ->
             (exists a, In a l /\ k = annotationId a /\ t = newThread a)
             \/ objs acc !! k = Some t).
  { induction l as [|a l IH]; intros acc Hk; simpl in *; [by right|].
    apply IH in Hk as [(a' & Ha' & Hk)|Hk]; [left; eauto|].
    rewrite lookup_store in Hk. destruct (decide (annotationId a = k)) as [<-|]; [|by right].
    injection Hk as <-. left. eauto. }
  intros Hk. apply H in Hk as [Hk|Hk]; [exact Hk|].
  simpl in Hk. by rewrite lookup_empty in Hk.
Qed.

Lemma initialThreads_childrenKnowParent annotations :
  childrenKnowParent (initialThreads annotations).
Proof.
  intros k t Hk. apply initialThreads_fresh in Hk as (a & _ & _ & ->). simpl.
  split; [intros c []|intros _; constructor].
Qed.

Lemma initialThreads_parentsKnowChildren annotations :
  parentsKnowChildren (initialThreads annotations).
Proof.
  intros k t p Hk Hp. apply initialThreads_fresh in Hk as (a & _ & _ & ->). discriminate.
Qed.

(** X5.  When [threadAnnotations] returns, a thread that has a parent is
    among the children of the thread stored under that parent, and that
    thread exists. *)
Theorem threadAnnotations_parent_has_child fuel annotations threads root k t p :
  threadAnnotations fuel annotations = Ok (threads, root) ->
  objs threads !! k = Some t ->
  parent t = Some p ->
  exists tp, objs threads !! p = Some tp /\ In k (children tp).
Proof.
  intros H. apply threadAnnotations_steps in H.
  apply (steps_invariant parentsKnowChildren step_parentsKnowChildren _ _ H).
  apply initialThreads_parentsKnowChildren.
Qed.

(** X6.  When [threadAnnotations] returns, every reference in a [children]
    array designates a thread of the map.  If the key of the parent is not
    the empty string, the child has that key as its [parent] and occurs
    only once in the array: a thread is the child of one thread only. *)
Theorem threadAnnotations_child_has_parent fuel annotations threads root k t :
  threadAnnotations fuel annotations = Ok (threads, root) ->
  objs threads !! k = Some t ->
  (forall c, In c (children t) ->
     exists tc, objs threads !! c = Some tc /\ (k <> ""%string -> parent tc = Some k))
  /\ (k <> ""%string -> NoDup (children t)).
Proof.
  intros H. apply threadAnnotations_steps in H.
  apply (steps_invariant childrenKnowParent step_childrenKnowParent _ _ H).
  apply initialThreads_childrenKnowParent.
Qed.

Lemma threadAnnotations_parent_has_child_witness :
  exists tp,
    lookupThread (threadAnnotations 3 sampleThread) "A" = Some tp
    /\ In "B"%string (children tp).
Proof.
  destruct (threadAnnotations 3 sampleThread) as [[threads root]| |] eqn:E;
    [|vm_compute in E; discriminate..].
  destruct (objs threads !! "B"%string) as [t|] eqn:Et;
    [|exfalso; vm_compute in E; injection E as <- _; vm_compute in Et; discriminate].
  apply (threadAnnotations_parent_has_child 3 sampleThread threads root "B" t "A" E Et).
  vm_compute in E. injection E as <- _. vm_compute in Et. injection Et as <-.
  reflexivity.
Defined.

Lemma threadAnnotations_child_has_parent_witness :
  exists t,
    lookupThread (threadAnnotations 3 sampleThread) "A" = Some t
    /\ (forall c, In c (children t) ->
          exists tc, lookupThread (threadAnnotations 3 sampleThread) c = Some tc
                     /\ ("A"%string <> ""%string -> parent tc = Some "A"%string))
    /\ ("A"%string <> ""%string -> NoDup (children t)).
Proof.
  destruct (threadAnnotations 3 sampleThread) as [[threads root]| |] eqn:E;
    [|vm_compute in E; discriminate..].
  destruct (objs threads !! "A"%string) as [t|] eqn:Et;
    [|exfalso; vm_compute in E; injection E as <- _; vm_compute in Et; discriminate].
  exists t. split; [exact Et|].
  exact (threadAnnotations_child_has_parent 3 sampleThread threads root "A" t E Et).
Defined.

(** ** The top-level threads *)

Lemma insertIndex_perm k l : Permutation (insertIndex k l) (k :: l).
Proof.
  induction l as [|k' l IH]; simpl; [reflexivity|].
  destruct (fst k <? fst k')%N; [reflexivity|]. rewrite IH. apply perm_swap.
Qed.

Lemma indexKeys_perm keys :
  Permutation (map snd (indexKeys keys))
              (List.filter (fun k => match arrayIndex k with Some _ => true | None => false end)
                           keys).
Proof.
  induction keys as [|k keys IH]; simpl; [reflexivity|].
  destruct (arrayIndex k) as [n|]; [|exact IH].
  rewrite insertIndex_perm. simpl. by rewrite IH.
Qed.

Lemma filter_partition_perm {A : Type} (p q : A -> bool) l :
  (forall x, q x = negb (p x)) ->
  Permutation (List.filter p l ++ List.filter q l) l.
Proof.
  intros Hpq. induction l as [|x l IH]; simpl; [reflexivity|].
  rewrite Hpq. destruct (p x); simpl.
  - by rewrite IH.
  - rewrite <- Permutation_middle. by rewrite IH.
Qed.

Lemma forIn_perm threads : Permutation (forIn threads) (order threads).
Proof.
  unfold forIn. rewrite indexKeys_perm. apply filter_partition_perm.
  intros k. by destruct (arrayIndex k).
Qed.

Lemma isRoot_collapse threads k t k' :
  objs threads !! k = Some t ->
  isRoot (store k (with_collapsed t true) threads) k' = isRoot threads k'.
Proof.
  intros Hk. unfold isRoot. rewrite lookup_store.
  destruct (decide (k = k')) as [<-|]; [|reflexivity]. by rewrite Hk.
Qed.

Lemma collectRoot_isRoot st k k' :
  isRoot (fst (collectRoot st k)) k' = isRoot (fst st) k'.
Proof.
  unfold collectRoot. destruct (objs (fst st) !! k) as [t|] eqn:Hk; [|reflexivity].
  destruct (truthy (parent t)); [reflexivity|]. simpl. by apply isRoot_collapse.
Qed.

Lemma collectRoot_snd st k :
  snd (collectRoot st k) = snd st ++ (if isRoot (fst st) k then [k] else []).
Proof.
  unfold collectRoot, isRoot. destruct (objs (fst st) !! k) as [t|];
    [|by rewrite app_nil_r].
  destruct (truthy (parent t)); simpl; [by rewrite app_nil_r|reflexivity].
Qed.

Lemma fold_collectRoot_snd keys : forall st,
  snd (fold_left collectRoot keys st) = snd st ++ List.filter (isRoot (fst st)) keys.
Proof.
  induction keys as [|k keys IH]; intros st; simpl; [by rewrite app_nil_r|].
  rewrite IH, collectRoot_snd, <- app_assoc. f_equal.
  rewrite (List.filter_ext _ (isRoot (fst st))) by (intros k'; apply collectRoot_isRoot).
  by destruct (isRoot (fst st) k).
Qed.

Lemma fold_collectRoot_isRoot keys : forall st k',
  isRoot (fst (fold_left collectRoot keys st)) k' = isRoot (fst st) k'.
Proof.
  induction keys as [|k keys IH]; intros st k'; simpl; [reflexivity|].
  by rewrite IH, collectRoot_isRoot.
Qed.

Lemma linkThreads_wellOrdered fuel annotations threads :
  linkThreads fuel annotations (initialThreads annotations) = Ok threads ->
  wellOrdered threads.
Proof.
  intros H. apply linkThreads_steps in H.
  apply (steps_invariant wellOrdered step_wellOrdered _ _ H).
  apply initialThreads_wellOrdered.
Qed.

Lemma threadAnnotations_inv fuel annotations threads root :
  threadAnnotations fuel annotations = Ok (threads, root) ->
  exists threads1,
    linkThreads fuel annotations (initialThreads annotations) = Ok threads1
    /\ threads = fst (fold_left collectRoot (forIn threads1) (threads1, []))
    /\ children root = List.filter (isRoot threads1) (forIn threads1)
    /\ totalChildren root = Z.of_nat (length (children root)).
Proof.
  unfold threadAnnotations. intros H.
  apply bind_Ok in H; [|discriminate].
  destruct H as [(threads1 & H1 & H)|[_ ?]]; [|discriminate].
  exists threads1. split; [exact H1|].
  pose proof (fold_collectRoot_snd (forIn threads1) (threads1, [])) as Hsnd.
  destruct (fold_left collectRoot (forIn threads1) (threads1, []))
    as [threads2 rootThreads].
  apply Ok_inj in H. injection H as <- <-. simpl in *. subst rootThreads.
  auto.
Qed.

Lemma root_children_spec fuel annotations threads root :
  threadAnnotations fuel annotations = Ok (threads, root) ->
  (forall k, In k (children root) <-> isRoot threads k = true)
  /\ NoDup (children root)
  /\ totalChildren root = Z.of_nat (length (children root)).
Proof.
  intros H. apply threadAnnotations_inv in H as (threads1 & H1 & -> & Hc & Ht).
  pose proof (linkThreads_wellOrdered _ _ _ H1) as [Hnd Hdom].
  split; [|split; [|exact Ht]].
  - intros k. rewrite Hc, fold_collectRoot_isRoot. simpl.
    rewrite List.filter_In. split; [tauto|]. intros Hk. split; [|exact Hk].
    apply (Permutation_in _ (Permutation_sym (forIn_perm threads1))), Hdom.
    unfold isRoot in Hk. destruct (objs threads1 !! k); [eauto|discriminate].
  - rewrite Hc. apply NoDup_ListNoDup, List.NoDup_filter.
    apply (Permutation_NoDup (Permutation_sym (forIn_perm threads1))).
    by apply NoDup_ListNoDup.
Qed.

(** X7.  The children of the root returned by [threadAnnotations] are the
    threads of the map that have no parent, each exactly once, and the
    root's [totalChildren] is their number. *)
Theorem threadAnnotations_root_children fuel annotations threads root :
  threadAnnotations fuel annotations = Ok (threads, root) ->
  (forall k, In k (children root) <-> isRoot threads k = true)
  /\ NoDup (children root)
  /\ totalChildren root = Z.of_nat (length (children root)).
Proof. apply root_children_spec. Qed.

Lemma threadAnnotations_root_children_witness :
  exists threads root,
    threadAnnotations 3 sampleThread = Ok (threads, root)
    /\ children root = ["A"%string]
    /\ (forall k, In k (children root) <-> isRoot threads k = true)
    /\ NoDup (children root)
    /\ totalChildren root = Z.of_nat (length (children root)).
Proof.
  destruct (threadAnnotations 3 sampleThread) as [[threads root]| |] eqn:E;
    [|vm_compute in E; discriminate..].
  exists threads, root. split; [reflexivity|].
  split; [vm_compute in E; by injection E as <- <-|].
  exact (threadAnnotations_root_children 3 sampleThread threads root E).
Defined.

Lemma fold_collectRoot_collapsed keys : forall st k t',
  objs (fst (fold_left collectRoot keys st)) !! k = Some t' ->
  exists t,
    objs (fst st) !! k = Some t
    /\ parent t' = parent t
    /\ (truthy (parent t) = true -> collapsed t' = collapsed t)
    /\ (truthy (parent t) = false -> In k keys -> collapsed t' = true)
    /\ (~ In k keys -> collapsed t' = collapsed t).
Proof.
  induction keys as [|k0 keys IH]; intros st k t' Hk; simpl in *.
  - exists t'. repeat split; auto.
  - apply IH in Hk as (t1 & Hk1 & Hp1 & Htrue & Hfalse & Hnot).
    assert (H1 : exists t,
               objs (fst st) !! k = Some t /\ parent t1 = parent t
               /\ ((k <> k0 \/ truthy (parent t) = true) -> collapsed t1 = collapsed t)
               /\ (k = k0 -> truthy (parent t) = false -> collapsed t1 = true)).
    { unfold collectRoot in Hk1.
      destruct (objs (fst st) !! k0) as [t0|] eqn:Hk0.
      - destruct (truthy (parent t0)) eqn:Etruthy.
        + exists t1. repeat split; auto. intros ->. rewrite Hk0 in Hk1.
          injection Hk1 as <-. congruence.
        + cbn [fst] in Hk1. rewrite lookup_store in Hk1.
          destruct (decide (k0 = k)) as [<-|Hne].
          * injection Hk1 as <-. exists t0. simpl. repeat split; auto.
            intros [?|?]; congruence.
          * exists t1. repeat split; auto; intros; congruence.
      - exists t1. repeat split; auto. intros ->. congruence. }
    destruct H1 as (t & Ht & Hp & Hsame & Hset).
    exists t. split; [exact Ht|]. split; [congruence|].
    rewrite Hp in *. repeat split.
    + intros Et. rewrite (Htrue Et). apply Hsame. by right.
    + intros Ef [<-|Hin]; [|by apply Hfalse].
      destruct (in_dec string_dec k0 keys) as [Hin|Hnin]; [by apply Hfalse|].
      rewrite (Hnot Hnin). by apply Hset.
    + intros Hnin. rewrite Hnot by tauto. apply Hsame. left. intros ->. tauto.
Qed.

Lemma collapsed_iff_root fuel annotations threads root k t :
  threadAnnotations fuel annotations = Ok (threads, root) ->
  objs threads !! k = Some t ->
  collapsed t = negb (truthy (parent t)).
Proof.
  intros H Hk. apply threadAnnotations_inv in H as (threads1 & H1 & -> & _).
  apply fold_collectRoot_collapsed in Hk as (t1 & Hk1 & Hp & Htrue & Hfalse & _).
  simpl in Hk1.
  assert (Hc1 : collapsed t1 = false).
  { revert Hk1. apply (linkThreads_objs (fun t => collapsed t = false)) in H1;
      [apply H1|reflexivity|auto|auto|].
    apply initialThreads_objs. reflexivity. }
  rewrite Hp. destruct (truthy (parent t1)) eqn:Et; simpl.
  - by rewrite Htrue.
  - apply Hfalse; [reflexivity|].
    destruct (linkThreads_wellOrdered _ _ _ H1) as [_ Hdom].
    apply (Permutation_in _ (Permutation_sym (forIn_perm threads1))), Hdom. eauto.
Qed.

(** X8.  When [threadAnnotations] returns, a thread of the map is collapsed
    exactly if it has no parent: top-level threads are collapsed, replies
    are not. *)
Theorem threadAnnotations_collapsed fuel annotations threads root k t :
  threadAnnotations fuel annotations = Ok (threads, root) ->
  objs threads !! k = Some t ->
  collapsed t = negb (truthy (parent t)).
Proof. apply collapsed_iff_root. Qed.

Lemma threadAnnotations_collapsed_witness :
  collapsed <$> lookupThread (threadAnnotations 3 sampleThread) "A" = Some true
  /\ collapsed <$> lookupThread (threadAnnotations 3 sampleThread) "B" = Some false.
Proof.
  destruct (threadAnnotations 3 sampleThread) as [[threads root]| |] eqn:E;
    [|vm_compute in E; discriminate..].
  simpl.
  destruct (objs threads !! "A"%string) as [ta|] eqn:Ea;
    [|exfalso; vm_compute in E; injection E as <- _; vm_compute in Ea; discriminate].
  destruct (objs threads !! "B"%string) as [tb|] eqn:Eb;
    [|exfalso; vm_compute in E; injection E as <- _; vm_compute in Eb; discriminate].
  simpl.
  rewrite (threadAnnotations_collapsed 3 sampleThread threads root "A" ta E Ea).
  rewrite (threadAnnotations_collapsed 3 sampleThread threads root "B" tb E Eb).
  vm_compute in E. injection E as <- _.
  vm_compute in Ea. injection Ea as <-. vm_compute in Eb. injection Eb as <-.
  split; reflexivity.
Defined.

(** ** The data of the threads *)

Lemma sameData_refl t : sameData t t.
Proof. unfold sameData. tauto. Qed.

Lemma sameData_trans t1 t2 t3 : sameData t1 t2 -> sameData t2 t3 -> sameData t1 t3.
Proof. unfold sameData. intuition congruence. Qed.

Lemma step_sameData threads threads' :
  step threads threads' ->
  forall k t, objs threads !! k = Some t ->
              exists t', objs threads' !! k = Some t' /\ sameData t t'.
Proof.
  destruct 1 as [threads k Hk|threads tid parentId t p fuel Ht Htruthy Hp Hwalk
                 |threads k t Hk Htruthy]; intros k' t' Hk'.
  - rewrite lookup_store. destruct (decide (k = k')) as [<-|]; [congruence|].
    exists t'. split; [exact Hk'|apply sameData_refl].
  - rewrite lookup_linkTo.
    destruct (decide (parentId = k')) as [<-|Hne].
    + eexists. split; [reflexivity|].
      destruct (decide (tid = parentId)) as [->|Hne'].
      * rewrite Ht in Hk'. injection Hk' as <-. unfold sameData. simpl. tauto.
      * rewrite Hp in Hk'. injection Hk' as <-. unfold sameData. simpl. tauto.
    + destruct (decide (tid = k')) as [<-|Hne'].
      * rewrite Ht in Hk'. injection Hk' as <-.
        eexists. split; [reflexivity|]. unfold sameData. simpl. tauto.
      * exists t'. split; [exact Hk'|apply sameData_refl].
  - rewrite lookup_store. destruct (decide (k = k')) as [<-|].
    + rewrite Hk in Hk'. injection Hk' as <-. eexists. split; [reflexivity|].
      unfold sameData. simpl. tauto.
    + exists t'. split; [exact Hk'|apply sameData_refl].
Qed.

Lemma steps_sameData threads threads' :
  rtc step threads threads' ->
  forall k t, objs threads !! k = Some t ->
              exists t', objs threads' !! k = Some t' /\ sameData t t'.
Proof.
  induction 1 as [|threads1 threads2 threads3 H _ IH]; intros k t Hk.
  - exists t. split; [exact Hk|apply sameData_refl].
  - destruct (step_sameData _ _ H k t Hk) as (t2 & Hk2 & Hs2).
    destruct (IH k t2 Hk2) as (t3 & Hk3 & Hs3).
    exists t3. split; [exact Hk3|]. by apply (sameData_trans _ t2).
Qed.

Lemma step_origin threads threads' :
  step threads threads' ->
  forall k t', objs threads' !! k = Some t' ->
               (exists t, objs threads !! k = Some t /\ sameData t t')
               \/ annotation t' = None.
Proof.
  intros Hstep k t' Hk'.
  destruct (objs threads !! k) as [t|] eqn:Hk.
  - left. exists t. split; [reflexivity|].
    destruct (step_sameData _ _ Hstep k t Hk) as (t'' & Hk'' & Hs). congruence.
  - right. destruct Hstep as [threads k0 Hk0|threads tid parentId t p fuel Ht Htruthy Hp Hwalk
                              |threads k0 t Hk0 Htruthy].
    + rewrite lookup_store in Hk'. destruct (decide (k0 = k)); [|congruence].
      by injection Hk' as <-.
    + rewrite lookup_linkTo in Hk'.
      destruct (decide (parentId = k)); [congruence|].
      destruct (decide (tid = k)); congruence.
    + rewrite lookup_store in Hk'. destruct (decide (k0 = k)); congruence.
Qed.

Lemma step_keyedByAnnotation annotations threads threads' :
  step threads threads' ->
  keyedByAnnotation annotations threads -> keyedByAnnotation annotations threads'.
Proof.
  intros Hstep Hinv k t' a Hk' Ha.
  destruct (step_origin _ _ Hstep k t' Hk') as [(t & Hk & Hs)|Hnone]; [|congruence].
  destruct Hs as (Hid & Hann & _). rewrite Hid. apply (Hinv k t a Hk). congruence.
Qed.

(** X9.  When [threadAnnotations] returns, a thread that carries an
    annotation is stored under the id of that annotation ([id], or [$tag]
    when there is no [id]), which is also its own [id], and the annotation
    is a record of the input. *)
Theorem threadAnnotations_keyed_by_annotation fuel annotations threads root k t a :
  threadAnnotations fuel annotations = Ok (threads, root) ->
  objs threads !! k = Some t ->
  annotation t = Some a ->
  In a annotations /\ k = annotationId a /\ id t = k.
Proof.
  intros H. apply threadAnnotations_steps in H.
  apply (steps_invariant (keyedByAnnotation annotations)
                         (step_keyedByAnnotation annotations) _ _ H).
  intros k' t' a' Hk' Ha'.
  apply initialThreads_fresh in Hk' as (a0 & Hin & -> & ->).
  simpl in Ha'. injection Ha' as <-. auto.
Qed.

Lemma threadAnnotations_keyed_by_annotation_witness :
  exists t,
    lookupThread (threadAnnotations 3 sampleThread) "B" = Some t
    /\ In (reply "B" ["A"]) sampleThread
    /\ "B"%string = annotationId (reply "B" ["A"])
    /\ id t = "B"%string.
Proof.
  destruct (threadAnnotations 3 sampleThread) as [[threads root]| |] eqn:E;
    [|vm_compute in E; discriminate..].
  destruct (objs threads !! "B"%string) as [t|] eqn:Et;
    [|exfalso; vm_compute in E; injection E as <- _; vm_compute in Et; discriminate].
  exists t. split; [exact Et|].
  apply (threadAnnotations_keyed_by_annotation 3 sampleThread threads root "B" t
           (reply "B" ["A"]) E Et).
  vm_compute in E. injection E as <- _. vm_compute in Et. by injection Et as <-.
Defined.

Lemma initialThreads_last l1 a l2 :
  ~ In (annotationId a) (map annotationId l2) ->
  objs (initialThreads (l1 ++ a :: l2)) !! annotationId a = Some (newThread a).
Proof.
  unfold initialThreads. rewrite fold_left_app. simpl.
  generalize (fold_left (fun threads a0 => store (annotationId a0) (newThread a0) threads)
                        l1 emptyThreads).
  intros acc Hnin.
  assert (H : forall l acc',
             ~ In (annotationId a) (map annotationId l) ->
             objs acc' !! annotationId a = Some (newThread a) ->
             objs (fold_left
                     (fun threads a0 => store (annotationId a0) (newThread a0) threads)
                     l acc') !! annotationId a = Some (newThread a)).
  { induction l as [|b l IH]; intros acc' Hl Hacc; simpl in *; [exact Hacc|].
    apply IH; [tauto|]. rewrite lookup_store.
    destruct (decide (annotationId b = annotationId a)); [tauto|exact Hacc]. }
  apply H; [exact Hnin|]. rewrite lookup_store.
  by destruct (decide (annotationId a = annotationId a)).
Qed.

(** X10.  Of the records of the input that have the same id the last one
    wins: when [threadAnnotations] returns, the thread stored under the id
    of a record that is not followed by a record with the same id carries
    that record as its annotation. *)
Theorem threadAnnotations_last_record_wins fuel before a after threads root :
  ~ In (annotationId a) (map annotationId after) ->
  threadAnnotations fuel (before ++ a :: after) = Ok (threads, root) ->
  exists t,
    objs threads !! annotationId a = Some t
    /\ annotation t = Some a
    /\ id t = annotationId a.
Proof.
  intros Hlast H. apply threadAnnotations_steps in H.
  destruct (steps_sameData _ _ H _ _ (initialThreads_last before a after Hlast))
    as (t & Ht & Hid & Hann & _).
  exists t. split; [exact Ht|]. split; [exact Hann|exact Hid].
Qed.

Lemma threadAnnotations_last_record_wins_witness :
  exists t,
    lookupThread
      (threadAnnotations 3 [reply "p" []; reply "x" ["p"]; reply "x" ["q"]]) "x"
    = Some t
    /\ annotation t = Some (reply "x" ["q"])
    /\ id t = "x"%string.
Proof.
  destruct (threadAnnotations 3 ([reply "p" []; reply "x" ["p"]] ++ reply "x" ["q"] :: []))
    as [[threads root]| |] eqn:E; [|vm_compute in E; discriminate..].
  change [reply "p" []; reply "x" ["p"]; reply "x" ["q"]]
    with ([reply "p" []; reply "x" ["p"]] ++ reply "x" ["q"] :: []).
  rewrite E.
  apply (threadAnnotations_last_record_wins
           3 [reply "p" []; reply "x" ["p"]] (reply "x" ["q"]) [] threads root);
    [|exact E].
  simpl. tauto.
Defined.

(** ** The stages of [buildThread] *)

Lemma buildThread_stages fuel annotations options :
  buildThread fuel annotations options =
  '(threads, root) ← threadAnnotations fuel annotations;
  thread ← mapThreadRef fuel threads (filteredRoot (mergeOpts options) threads root)
             (setVisibility (mergeOpts options));
  Ok (projectThread (mergeOpts options) thread).
Proof. reflexivity. Qed.

Lemma buildThread_inv fuel annotations options result :
  buildThread fuel annotations options = Ok result ->
  exists threads root thread,
    threadAnnotations fuel annotations = Ok (threads, root)
    /\ mapThreadRef fuel threads (filteredRoot (mergeOpts options) threads root)
         (setVisibility (mergeOpts options)) = Ok thread
    /\ result = projectThread (mergeOpts options) thread.
Proof.
  rewrite buildThread_stages. intros H.
  apply bind_Ok in H; [|discriminate].
  destruct H as [([threads root] & Hta & H)|[_ ?]]; [|discriminate].
  apply bind_Ok in H; [|discriminate].
  destruct H as [(thread & Hmap & H)|[_ ?]]; [|discriminate].
  apply Ok_inj in H. eauto 10.
Qed.

(** ** What the passes do to a thread and its visible descendants *)

Lemma existsb_perm {A : Type} (p : A -> bool) l l' :
  Permutation l l' -> existsb p l = existsb p l'.
Proof.
  induction 1 as [|x l l' _ IH|x y l|l1 l2 l3 _ IH1 _ IH2]; simpl.
  - reflexivity.
  - by rewrite IH.
  - by destruct (p x), (p y).
  - congruence.
Qed.

Lemma existsb_filter_same {A : Type} (p : A -> bool) l :
  existsb p (List.filter p l) = existsb p l.
Proof.
  induction l as [|x l IH]; simpl; [reflexivity|].
  destruct (p x) eqn:E; simpl; [by rewrite E|exact IH].
Qed.

Lemma existsb_map_ext {A B : Type} (p : A -> bool) (q : B -> bool) (f : A -> B) l :
  Forall (fun x => q (f x) = p x) l -> existsb q (map f l) = existsb p l.
Proof. induction 1 as [|x l Hx _ IH]; simpl; [reflexivity|]. by rewrite Hx, IH. Qed.

Lemma sortThread_unfold n compareFn replyCompareFn :
  sortThread (Node n) compareFn replyCompareFn =
  Node (with_children n
          (sort (map (fun child => sortThread child replyCompareFn replyCompareFn)
                     (children n))
                compareFn)).
Proof. reflexivity. Qed.

Lemma mapThread_unfold n mapFn :
  mapThread (Node n) mapFn =
  Node (with_children (mapFn (Node n))
                      (map (fun child => mapThread child mapFn) (children n))).
Proof. reflexivity. Qed.

Lemma sortThread_view t : forall compareFn replyCompareFn,
  core (node (sortThread t compareFn replyCompareFn)) = core (node t)
  /\ hasVisibleChildren (sortThread t compareFn replyCompareFn) = hasVisibleChildren t.
Proof.
  induction t as [n IH] using Thread_induction. intros compareFn replyCompareFn.
  rewrite sortThread_unfold. split; [reflexivity|].
  rewrite !hasVisibleChildren_unfold. simpl children. unfold sort.
  rewrite (existsb_perm _ _ _ (arraySort_perm _ _)).
  apply existsb_map_ext. eapply Forall_impl; [exact IH|].
  intros c Hc. destruct (Hc replyCompareFn replyCompareFn) as [Hcore Hv].
  rewrite Hv. f_equal.
  change (visible (core (node (sortThread c replyCompareFn replyCompareFn)))
          = visible (core (node c))).
  by rewrite Hcore.
Qed.

Lemma countRepliesAndDepth_view t : forall d,
  core (node (countRepliesAndDepth t d)) = core (node t)
  /\ hasVisibleChildren (countRepliesAndDepth t d) = hasVisibleChildren t.
Proof.
  induction t as [n IH] using Thread_induction. intros d.
  rewrite countRepliesAndDepth_unfold. split; [reflexivity|].
  rewrite !hasVisibleChildren_unfold. simpl children.
  apply existsb_map_ext. eapply Forall_impl; [exact IH|].
  intros c Hc. destruct (Hc (d + 1)) as [Hcore Hv].
  rewrite Hv. f_equal.
  change (visible (core (node (countRepliesAndDepth c (d + 1))))
          = visible (core (node c))).
  by rewrite Hcore.
Qed.

Lemma mapThread_visible mapFn :
  (forall t, visible (mapFn t) = visible (node t)) ->
  forall t,
    visible (node (mapThread t mapFn)) = visible (node t)
    /\ hasVisibleChildren (mapThread t mapFn) = hasVisibleChildren t.
Proof.
  intros Hmap t. induction t as [n IH] using Thread_induction.
  rewrite mapThread_unfold. split; [apply Hmap|].
  rewrite !hasVisibleChildren_unfold. simpl children.
  apply existsb_map_ext. eapply Forall_impl; [exact IH|].
  intros c [Hv Hc]. by rewrite Hv, Hc.
Qed.

Lemma setStates_visible opts t : visible (setStates opts t) = visible (node t).
Proof. by destruct (setStates_fields opts t) as (_ & _ & ->). Qed.

Section ViewPasses.
Variable Q : Thread_ unit -> bool -> Prop.

Lemma ForallThreads_root P n : ForallThreads P (Node n) -> P (Node n).
Proof. by inversion 1. Qed.

Lemma ForallThreads_children P n :
  ForallThreads P (Node n) -> Forall (ForallThreads P) (children n).
Proof. by inversion 1. Qed.

Lemma sortThread_onView t : forall compareFn replyCompareFn,
  ForallThreads (onView Q) t ->
  ForallThreads (onView Q) (sortThread t compareFn replyCompareFn).
Proof.
  induction t as [n IH] using Thread_induction. intros compareFn replyCompareFn Ht.
  pose proof (sortThread_view (Node n) compareFn replyCompareFn) as [Hcore Hv].
  rewrite sortThread_unfold in *. constructor.
  - unfold onView. rewrite Hcore, Hv. exact (ForallThreads_root _ _ Ht).
  - simpl. unfold sort.
    eapply Permutation_Forall; [symmetry; apply arraySort_perm|].
    apply ForallThreads_children in Ht. apply Forall_map.
    rewrite Forall_forall in *. auto.
Qed.

Lemma countRepliesAndDepth_onView t : forall d,
  ForallThreads (onView Q) t ->
  ForallThreads (onView Q) (countRepliesAndDepth t d).
Proof.
  induction t as [n IH] using Thread_induction. intros d Ht.
  pose proof (countRepliesAndDepth_view (Node n) d) as [Hcore Hv].
  rewrite countRepliesAndDepth_unfold in *. constructor.
  - unfold onView. rewrite Hcore, Hv. exact (ForallThreads_root _ _ Ht).
  - simpl. apply ForallThreads_children in Ht. apply Forall_map.
    rewrite Forall_forall in *. auto.
Qed.

Lemma removeInvisible_onView t :
  ForallThreads (onView Q) t ->
  ForallThreads (onView Q)
    (Node (with_children (node t)
             (List.filter (fun child => visible (node child) || hasVisibleChildren child)
                          (children (node t))))).
Proof.
  destruct t as [n]. intros Ht. constructor.
  - pose proof (ForallThreads_root _ _ Ht) as Hn. unfold onView in *.
    rewrite hasVisibleChildren_unfold in *. simpl.
    by rewrite existsb_filter_same.
  - simpl. apply ForallThreads_children in Ht.
    rewrite Forall_forall in *. intros c Hc.
    apply list_elem_of_In, List.filter_In in Hc as [Hc _].
    apply Ht. by apply list_elem_of_In.
Qed.

Lemma mapThread_onView (Q' : Thread_ unit -> bool -> Prop) mapFn :
  (forall t, visible (mapFn t) = visible (node t)) ->
  (forall t, onView Q t -> Q' (core (mapFn t)) (hasVisibleChildren t)) ->
  forall t, ForallThreads (onView Q) t -> ForallThreads (onView Q') (mapThread t mapFn).
Proof.
  intros Hvis Hmap t. induction t as [n IH] using Thread_induction. intros Ht.
  pose proof (mapThread_visible mapFn Hvis (Node n)) as [_ Hv].
  rewrite mapThread_unfold in *. constructor.
  - unfold onView. rewrite Hv. apply Hmap. exact (ForallThreads_root _ _ Ht).
  - simpl. apply ForallThreads_children in Ht. apply Forall_map.
    rewrite Forall_forall in *. auto.
Qed.

Lemma mapThreadRef_onView (P : ThreadObj -> Prop) threads mapFn :
  AllObjs P threads ->
  (forall o b, P o -> Q (core (mapFn o)) b) ->
  forall fuel thread t,
    P thread ->
    mapThreadRef fuel threads thread mapFn = Ok t ->
    ForallThreads (onView Q) t.
Proof.
  intros Hall Hmap.
  induction fuel as [|fuel IH]; intros thread t Hthread H; [discriminate|].
  rewrite mapThreadRef_S in H.
  apply bind_Ok in H; [|discriminate].
  destruct H as [(cs & Hcs & H)|[_ ?]]; [|discriminate].
  apply Ok_inj in H. subst t.
  constructor.
  - unfold onView. apply Hmap. exact Hthread.
  - simpl. apply mapResult_Forall2 in Hcs.
    induction Hcs as [|k c ks cs Hk _ IHcs]; constructor; [|exact IHcs].
    destruct (objs threads !! k) as [child|] eqn:Ek; [|discriminate].
    eapply IH; [|exact Hk]. eapply Hall; eauto.
Qed.
End ViewPasses.

(** ** From the thread map to the result of [buildThread] *)

Lemma threadAnnotations_root_fields fuel annotations threads root :
  threadAnnotations fuel annotations = Ok (threads, root) ->
  id root = "root"%string /\ annotation root = None /\ parent root = None
  /\ visible root = true /\ collapsed root = false /\ highlightState root = None.
Proof.
  unfold threadAnnotations. intros H.
  apply bind_Ok in H; [|discriminate].
  destruct H as [(threads1 & H1 & H)|[_ ?]]; [|discriminate].
  destruct (fold_left collectRoot (forIn threads1) (threads1, []))
    as [threads2 rootThreads].
  apply Ok_inj in H. injection H as _ <-. simpl. tauto.
Qed.

Lemma filteredRoot_core opts threads root :
  core (filteredRoot opts threads root) = core root.
Proof.
  unfold filteredRoot.
  by destruct (hasSelected opts), (opts_threadFilterFn opts).
Qed.

Lemma filterRefs_In threads pred refs k :
  In k (filterRefs threads pred refs) <->
  In k refs /\ exists o, objs threads !! k = Some o /\ pred o = true.
Proof.
  unfold filterRefs. rewrite List.filter_In.
  destruct (objs threads !! k) as [o|].
  - split; [intros [? ?]; eauto|]. intros (? & o' & [= <-] & ?). auto.
  - split; [intros [_ ?]; discriminate|]. intros (_ & o' & ? & _). discriminate.
Qed.

Lemma filterRefs_length threads pred refs :
  (length (filterRefs threads pred refs) <= length refs)%nat.
Proof. apply List.filter_length_le. Qed.

Lemma filteredRoot_children opts threads root k :
  In k (children (filteredRoot opts threads root)) ->
  In k (children root)
  /\ (hasSelected opts = true ->
      exists o, objs threads !! k = Some o /\ In (id o) (opts_selected opts)).
Proof.
  unfold filteredRoot.
  assert (H1 : forall k,
             In k (children
                     (if hasSelected opts then
                        with_children root
                          (filterRefs threads
                             (fun child => negb (indexOf (opts_selected opts) (id child) =? -1))
                             (children root))
                      else root)) ->
             In k (children root)
             /\ (hasSelected opts = true ->
                 exists o, objs threads !! k = Some o /\ In (id o) (opts_selected opts))).
  { intros k'. destruct (hasSelected opts); [|intros ?; split; [auto|discriminate]].
    simpl. rewrite filterRefs_In. intros (Hin & o & Ho & Hsel).
    split; [exact Hin|]. intros _. exists o. split; [exact Ho|].
    apply indexOf_In. by apply negb_true_iff. }
  destruct (opts_threadFilterFn opts) as [f|]; [|apply H1].
  simpl. rewrite filterRefs_In. intros [Hin _]. by apply H1.
Qed.

Lemma filteredRoot_length opts threads root :
  (length (children (filteredRoot opts threads root)) <= length (children root))%nat.
Proof.
  unfold filteredRoot.
  destruct (hasSelected opts), (opts_threadFilterFn opts); simpl;
    repeat (etrans; [apply filterRefs_length|]); reflexivity.
Qed.

Lemma mapThreadRef_children fuel threads thread mapFn t :
  mapThreadRef fuel threads thread mapFn = Ok t ->
  core (node t) = core (mapFn thread)
  /\ Forall2 (fun k c => exists o fuel',
                  objs threads !! k = Some o
                  /\ mapThreadRef fuel' threads o mapFn = Ok c
                  /\ core (node c) = core (mapFn o))
             (children thread) (children (node t)).
Proof.
  destruct fuel as [|fuel]; [discriminate|].
  rewrite mapThreadRef_S. intros H.
  apply bind_Ok in H; [|discriminate].
  destruct H as [(cs & Hcs & H)|[_ ?]]; [|discriminate].
  apply Ok_inj in H. subst t. split; [reflexivity|]. simpl.
  apply mapResult_Forall2 in Hcs.
  eapply Forall2_impl; [exact Hcs|]. intros k c Hk. simpl in Hk.
  destruct (objs threads !! k) as [o|]; [|discriminate].
  exists o, fuel. split; [reflexivity|]. split; [exact Hk|].
  destruct fuel as [|fuel']; [discriminate|].
  rewrite mapThreadRef_S in Hk.
  apply bind_Ok in Hk; [|discriminate].
  destruct Hk as [(cs' & _ & Hk)|[_ ?]]; [|discriminate].
  apply Ok_inj in Hk. by subst c.
Qed.

Lemma Forall2_In_r {A B : Type} (R : A -> B -> Prop) l l' y :
  Forall2 R l l' -> In y l' -> exists x, In x l /\ R x y.
Proof.
  induction 1 as [|a b l l' Hab _ IH]; intros Hy; [destruct Hy|].
  destruct Hy as [<-|Hy]; [exists a; split; [by left|exact Hab]|].
  destruct (IH Hy) as (x & Hx & Hxy). exists x. split; [by right|exact Hxy].
Qed.

Lemma setStates_data opts t :
  id (setStates opts t) = id (node t)
  /\ annotation (setStates opts t) = annotation (node t)
  /\ parent (setStates opts t) = parent (node t)
  /\ visible (setStates opts t) = visible (node t)
  /\ totalChildren (setStates opts t) = totalChildren (node t).
Proof.
  unfold setStates.
  destruct (opts_expanded opts !! id (node t));
    destruct (hasHighlights opts);
    [destruct (annotation (node t)) eqn:Ea| |destruct (annotation (node t)) eqn:Ea|];
    try destruct (negb (indexOf (opts_highlighted opts) (id (node t)) =? -1));
    simpl; auto.
Qed.

Lemma mapThread_core t mapFn : core (node (mapThread t mapFn)) = core (mapFn t).
Proof. by destruct t. Qed.

Section ProjectThread.
Variable opts : Opts.
Variables Q Q' : Thread_ unit -> bool -> Prop.
Hypothesis setStates_Q :
  forall t, onView Q t -> Q' (core (setStates opts t)) (hasVisibleChildren t).

(** Every thread of the tree. *)
Lemma projectThread_onView thread :
  ForallThreads (onView Q) thread ->
  ForallThreads (onView Q') (projectThread opts thread).
Proof.
  intros H. unfold projectThread.
  apply countRepliesAndDepth_onView, sortThread_onView.
  apply (mapThread_onView Q Q'); [apply setStates_visible|exact setStates_Q|].
  by apply removeInvisible_onView.
Qed.

Lemma projectThread_children_perm thread :
  Permutation
    (children (node (projectThread opts thread)))
    (map (fun c => countRepliesAndDepth
                     (sortThread (mapThread c (setStates opts))
                                 (opts_replySortCompareFn opts)
                                 (opts_replySortCompareFn opts))
                     (-1 + 1))
         (List.filter (fun child => visible (node child) || hasVisibleChildren child)
                      (children (node thread)))).
Proof.
  unfold projectThread. rewrite mapThread_unfold, sortThread_unfold.
  rewrite countRepliesAndDepth_unfold. simpl children.
  unfold sort. rewrite arraySort_perm. by rewrite !map_map.
Qed.

(** The threads below the root. *)
Lemma projectThread_below thread :
  Forall (ForallThreads (onView Q)) (children (node thread)) ->
  Forall (ForallThreads (onView Q')) (children (node (projectThread opts thread))).
Proof.
  intros H.
  eapply Permutation_Forall; [symmetry; apply projectThread_children_perm|].
  apply Forall_map. rewrite Forall_forall in *. intros c Hc.
  apply list_elem_of_In, List.filter_In in Hc as [Hc _].
  apply countRepliesAndDepth_onView, sortThread_onView.
  apply (mapThread_onView Q Q'); [apply setStates_visible|exact setStates_Q|].
  apply H. by apply list_elem_of_In.
Qed.

(** The top-level threads. *)
Lemma projectThread_top thread :
  (forall c, In c (children (node thread)) ->
             visible (node c) || hasVisibleChildren c = true -> onView Q c) ->
  Forall (onView Q') (children (node (projectThread opts thread))).
Proof.
  intros H.
  eapply Permutation_Forall; [symmetry; apply projectThread_children_perm|].
  apply Forall_map. rewrite Forall_forall. intros c Hc.
  apply list_elem_of_In, List.filter_In in Hc as [Hc Hkeep].
  unfold onView.
  destruct (countRepliesAndDepth_view
              (sortThread (mapThread c (setStates opts))
                          (opts_replySortCompareFn opts) (opts_replySortCompareFn opts))
              (-1 + 1)) as [-> ->].
  destruct (sortThread_view (mapThread c (setStates opts))
              (opts_replySortCompareFn opts) (opts_replySortCompareFn opts)) as [-> ->].
  rewrite mapThread_core.
  destruct (mapThread_visible (setStates opts) (setStates_visible opts) c) as [_ ->].
  apply setStates_Q. by apply H.
Qed.
End ProjectThread.

Lemma projectThread_length opts thread :
  (length (children (node (projectThread opts thread)))
   <= length (children (node thread)))%nat.
Proof.
  rewrite (Permutation_length (projectThread_children_perm opts thread)).
  rewrite length_map. apply List.filter_length_le.
Qed.

Lemma projectThread_root_core opts thread :
  core (node (projectThread opts thread))
  = core (setStates opts
            (Node (with_children (node thread)
                     (List.filter
                        (fun child => visible (node child) || hasVisibleChildren child)
                        (children (node thread)))))).
Proof.
  unfold projectThread.
  destruct (countRepliesAndDepth_view
              (sortThread
                 (mapThread
                    (Node (with_children (node thread)
                             (List.filter
                                (fun child => visible (node child) || hasVisibleChildren child)
                                (children (node thread)))))
                    (setStates opts))
                 (opts_sortCompareFn opts) (opts_replySortCompareFn opts)) (-1)) as [-> _].
  destruct (sortThread_view
              (mapThread
                 (Node (with_children (node thread)
                          (List.filter
                             (fun child => visible (node child) || hasVisibleChildren child)
                             (children (node thread)))))
                 (setStates opts))
              (opts_sortCompareFn opts) (opts_replySortCompareFn opts)) as [-> _].
  apply mapThread_core.
Qed.

Lemma mapThreadRef_below (Q : Thread_ unit -> bool -> Prop) (P : ThreadObj -> Prop)
      threads mapFn fuel thread t :
  AllObjs P threads ->
  (forall o b, P o -> Q (core (mapFn o)) b) ->
  mapThreadRef fuel threads thread mapFn = Ok t ->
  Forall (ForallThreads (onView Q)) (children (node t)).
Proof.
  intros Hall Hmap H. apply mapThreadRef_children in H as [_ H].
  rewrite Forall_forall. intros c Hc. apply list_elem_of_In in Hc.
  destruct (Forall2_In_r _ _ _ _ H Hc) as (k & _ & o & fuel' & Ho & Hc' & _).
  apply (mapThreadRef_onView Q P threads mapFn Hall Hmap fuel' o c); [|exact Hc'].
  by apply (Hall k).
Qed.

(** ** Highlighting *)

Lemma setStates_highlightState opts t :
  highlightState (setStates opts t) =
  if hasHighlights opts then
    match annotation (node t) with
    | Some _ =>
        if negb (indexOf (opts_highlighted opts) (id (node t)) =? -1)
        then Some highlight else Some dim
    | None => Some dim
    end
  else highlightState (node t).
Proof.
  unfold setStates.
  destruct (opts_expanded opts !! id (node t));
    destruct (hasHighlights opts); [destruct (annotation (node t))| |destruct (annotation (node t))|];
    try destruct (negb (indexOf (opts_highlighted opts) (id (node t)) =? -1));
    reflexivity.
Qed.

Lemma setStates_highlight opts t :
  highlightState (node t) = None ->
  highlightRule (opts_highlighted opts) (core (setStates opts t)).
Proof.
  intros Hnone. destruct (setStates_data opts t) as (Hid & Hann & _).
  pose proof (setStates_highlightState opts t) as Hhl.
  unfold highlightRule, core. cbn [id annotation highlightState].
  rewrite Hid, Hann, Hhl. unfold hasHighlights.
  destruct (opts_highlighted opts) as [|h hl]; [exact Hnone|].
  change (0 <? length (h :: hl))%nat with true. cbv iota.
  destruct (annotation (node t)) as [a|].
  - destruct (indexOf (h :: hl) (id (node t)) =? -1) eqn:Ei; cbn [negb].
    + split; [|reflexivity]. intros _ Hin. apply indexOf_In in Hin. congruence.
    + split; [reflexivity|]. apply indexOf_In in Ei. intros [?|?]; [discriminate|contradiction].
  - split; [congruence|reflexivity].
Qed.

(** X11.  In the tree returned by [buildThread], when the [highlighted]
    option is empty or omitted no thread has a highlight state; otherwise
    a thread has the state "highlight" if it has an annotation and its id is
    in [highlighted], and the state "dim" if not. *)
Theorem buildThread_highlightState fuel annotations options result :
  buildThread fuel annotations options = Ok result ->
  ForallThreads
    (onView (fun c _ => highlightRule (opts_highlighted (mergeOpts options)) c))
    result.
Proof.
  intros H. apply buildThread_inv in H as (threads & root & thread & Hta & Hmap & ->).
  apply (projectThread_onView _ (fun c _ => highlightState c = None)).
  { intros t Ht. by apply setStates_highlight. }
  revert Hmap.
  apply (mapThreadRef_onView _ (fun o => highlightState o = None)).
  - eapply (threadAnnotations_objs (fun o => highlightState o = None));
      [..|exact Hta]; auto.
  - auto.
  - change (highlightState (core (filteredRoot (mergeOpts options) threads root)) = None).
    rewrite filteredRoot_core. simpl.
    by destruct (threadAnnotations_root_fields _ _ _ _ Hta) as (_ & _ & _ & _ & _ & ->).
Qed.

Lemma buildThread_highlightState_witness :
  exists result,
    buildThread 4 sampleThread (with_highlighted noOptions (Some ["B"%string]))
    = Ok result
    /\ ForallThreads (onView (fun c _ => highlightRule ["B"%string] c)) result.
Proof.
  destruct (buildThread 4 sampleThread (with_highlighted noOptions (Some ["B"%string])))
    as [result| |] eqn:E; [|vm_compute in E; discriminate..].
  exists result. split; [reflexivity|].
  exact (buildThread_highlightState 4 sampleThread
           (with_highlighted noOptions (Some ["B"%string])) result E).
Defined.

(** ** Expanding and collapsing *)

Lemma setStates_collapsed opts t :
  collapsed (setStates opts t) =
  match opts_expanded opts !! id (node t) with
  | Some e => negb e
  | None => collapsed (node t) && negb (annotationsFiltered opts && hasVisibleChildren t)
  end.
Proof.
  unfold setStates.
  destruct (opts_expanded opts !! id (node t));
    destruct (hasHighlights opts); [destruct (annotation (node t))| |destruct (annotation (node t))|];
    try destruct (negb (indexOf (opts_highlighted opts) (id (node t)) =? -1));
    reflexivity.
Qed.

(** X12.  In the tree returned by [buildThread], a thread whose id is a key
    of the [expanded] option is collapsed exactly if the value stored under
    its id is false, whatever the filters are. *)
Theorem buildThread_expanded_override fuel annotations options result :
  buildThread fuel annotations options = Ok result ->
  ForallThreads
    (onView (fun c _ =>
               forall e, opts_expanded (mergeOpts options) !! id c = Some e ->
                         collapsed c = negb e))
    result.
Proof.
  intros H. apply buildThread_inv in H as (threads & root & thread & Hta & Hmap & ->).
  apply (projectThread_onView _ (fun _ _ => True)).
  { intros t _ e. destruct (setStates_data (mergeOpts options) t) as (Hid & _).
    unfold core. cbn [id collapsed].
    rewrite Hid, setStates_collapsed. by intros ->. }
  revert Hmap. by apply (mapThreadRef_onView _ (fun _ => True)).
Qed.

Lemma buildThread_expanded_override_witness :
  exists result,
    buildThread 4 sampleThread
                (with_expanded noOptions (Some {[ "A"%string := true ]}))
    = Ok result
    /\ ForallThreads
         (onView (fun c _ =>
                    forall e, ({[ "A"%string := true ]} : gmap string bool) !! id c = Some e ->
                              collapsed c = negb e))
         result.
Proof.
  destruct (buildThread 4 sampleThread
              (with_expanded noOptions (Some {[ "A"%string := true ]})))
    as [result| |] eqn:E; [|vm_compute in E; discriminate..].
  exists result. split; [reflexivity|].
  exact (buildThread_expanded_override 4 sampleThread
           (with_expanded noOptions (Some {[ "A"%string := true ]})) result E).
Defined.

(** X13.  In the tree returned by [buildThread], a thread below the root
    whose id is not a key of [expanded] is collapsed exactly if it has no
    parent and it is not the case that a [filterFn] is given and the thread
    has a visible descendant. *)
Theorem buildThread_default_collapse fuel annotations options result :
  buildThread fuel annotations options = Ok result ->
  Forall
    (ForallThreads
       (onView (fun c hasVisible =>
                  opts_expanded (mergeOpts options) !! id c = None ->
                  collapsed c
                  = negb (truthy (parent c))
                    && negb (annotationsFiltered (mergeOpts options) && hasVisible))))
    (children (node result)).
Proof.
  intros H. apply buildThread_inv in H as (threads & root & thread & Hta & Hmap & ->).
  apply (projectThread_below _ (fun c _ => collapsed c = negb (truthy (parent c)))).
  { intros t Ht. destruct (setStates_data (mergeOpts options) t) as (Hid & _ & Hp & _).
    unfold onView, core in *. cbn [id collapsed parent] in *.
    rewrite Hid, Hp, setStates_collapsed. intros ->. by rewrite Ht. }
  revert Hmap.
  apply (mapThreadRef_below _ (fun o => collapsed o = negb (truthy (parent o)))).
  - intros k t. by apply (collapsed_iff_root _ _ _ _ _ _ Hta).
  - auto.
Qed.

Lemma buildThread_default_collapse_witness :
  exists result,
    buildThread 4 sampleThread noOptions = Ok result
    /\ Forall
         (ForallThreads
            (onView (fun c hasVisible =>
                       opts_expanded (mergeOpts noOptions) !! id c = None ->
                       collapsed c
                       = negb (truthy (parent c))
                         && negb (annotationsFiltered (mergeOpts noOptions) && hasVisible))))
         (children (node result)).
Proof.
  destruct (buildThread 4 sampleThread noOptions)
    as [result| |] eqn:E; [|vm_compute in E; discriminate..].
  exists result. split; [reflexivity|].
  exact (buildThread_default_collapse 4 sampleThread noOptions result E).
Defined.

(** ** The top-level threads of the result *)

(** X14.  Every top-level thread of the tree returned by [buildThread] is
    visible or has a visible descendant: the other top-level threads have
    been removed. *)
Theorem buildThread_top_level_shows_something fuel annotations options result :
  buildThread fuel annotations options = Ok result ->
  Forall (fun c => visible (node c) || hasVisibleChildren c = true)
         (children (node result)).
Proof.
  intros H. apply buildThread_inv in H as (threads & root & thread & _ & _ & ->).
  apply (projectThread_top (mergeOpts options)
           (fun c b => visible c || b = true) (fun c b => visible c || b = true)).
  - intros t Ht. unfold onView, core in *. cbn [visible] in *.
    by rewrite setStates_visible.
  - intros c _ Hc. exact Hc.
Qed.

Lemma buildThread_top_level_shows_something_witness :
  exists result,
    buildThread 4 sampleThread
                (with_filterFn noOptions
                               (Some (fun a => String.eqb (annotationId a) "C")))
    = Ok result
    /\ map (fun c => (id (node c), visible (node c))) (children (node result))
       = [("A"%string, false)]
    /\ Forall (fun c => visible (node c) || hasVisibleChildren c = true)
              (children (node result)).
Proof.
  destruct (buildThread 4 sampleThread
              (with_filterFn noOptions
                             (Some (fun a => String.eqb (annotationId a) "C"))))
    as [result| |] eqn:E; [|vm_compute in E; discriminate..].
  exists result. split; [reflexivity|]. split.
  - vm_compute in E. by injection E as <-.
  - exact (buildThread_top_level_shows_something _ _ _ _ E).
Defined.

(** X15.  When the [selected] option is not empty, every top-level thread
    of the tree returned by [buildThread] has an id that is in
    [selected]. *)
Theorem buildThread_selected fuel annotations options result :
  buildThread fuel annotations options = Ok result ->
  opts_selected (mergeOpts options) <> [] ->
  Forall (fun c => In (id (node c)) (opts_selected (mergeOpts options)))
         (children (node result)).
Proof.
  intros H Hsel. apply buildThread_inv in H as (threads & root & thread & _ & Hmap & ->).
  apply (projectThread_top (mergeOpts options)
           (fun c _ => In (id c) (opts_selected (mergeOpts options)))
           (fun c _ => In (id c) (opts_selected (mergeOpts options)))).
  - intros t Ht. unfold onView, core in *. cbn [id] in *.
    by destruct (setStates_data (mergeOpts options) t) as (-> & _).
  - intros c Hc _. apply mapThreadRef_children in Hmap as [_ Hmap].
    destruct (Forall2_In_r _ _ _ _ Hmap Hc) as (k & Hk & o & _ & Ho & _ & Hcore).
    apply filteredRoot_children in Hk as [_ Hk].
    destruct Hk as (o' & Ho' & Hin).
    { unfold hasSelected. by destruct (opts_selected (mergeOpts options)). }
    rewrite Ho in Ho'. injection Ho' as <-.
    unfold onView. rewrite Hcore. exact Hin.
Qed.

Lemma buildThread_selected_witness :
  exists result,
    buildThread 4 [reply "A" []; reply "B" []; reply "C" ["B"]]
                (with_selected noOptions (Some ["B"%string]))
    = Ok result
    /\ Forall (fun c => In (id (node c)) ["B"%string]) (children (node result)).
Proof.
  destruct (buildThread 4 [reply "A" []; reply "B" []; reply "C" ["B"]]
              (with_selected noOptions (Some ["B"%string])))
    as [result| |] eqn:E; [|vm_compute in E; discriminate..].
  exists result. split; [reflexivity|].
  apply (buildThread_selected _ _ _ _ E). discriminate.
Defined.

(** X16.  [buildThread] never updates [totalChildren]: in the tree it
    returns the root's [totalChildren] is the number of threads without
    parent that [threadAnnotations] found, which is at least the number of
    top-level threads returned, and [totalChildren] is 0 in every thread
    below the root. *)
Theorem buildThread_totalChildren fuel annotations options result :
  buildThread fuel annotations options = Ok result ->
  Z.of_nat (length (children (node result))) <= totalChildren (node result)
  /\ Forall (ForallThreads (onView (fun c _ => totalChildren c = 0)))
            (children (node result)).
Proof.
  intros H. apply buildThread_inv in H as (threads & root & thread & Hta & Hmap & ->).
  split.
  - change (totalChildren (node (projectThread (mergeOpts options) thread)))
      with (totalChildren (core (node (projectThread (mergeOpts options) thread)))).
    rewrite projectThread_root_core. unfold core at 1. cbn [totalChildren].
    destruct (setStates_data (mergeOpts options)
                (Node (with_children (node thread)
                         (List.filter
                            (fun child => visible (node child) || hasVisibleChildren child)
                            (children (node thread)))))) as (_ & _ & _ & _ & ->).
    cbn [node with_children totalChildren].
    pose proof (mapThreadRef_children _ _ _ _ _ Hmap) as [Hcore Hcs].
    change (totalChildren (node thread)) with (totalChildren (core (node thread))).
    rewrite Hcore. unfold setVisibility, core at 1. cbn [totalChildren with_visible].
    change (totalChildren (filteredRoot (mergeOpts options) threads root))
      with (totalChildren (core (filteredRoot (mergeOpts options) threads root))).
    rewrite filteredRoot_core. unfold core. cbn [totalChildren].
    destruct (threadAnnotations_inv _ _ _ _ Hta) as (_ & _ & _ & _ & ->).
    apply Forall2_length in Hcs.
    pose proof (projectThread_length (mergeOpts options) thread).
    pose proof (filteredRoot_length (mergeOpts options) threads root).
    lia.
  - apply (projectThread_below _ (fun c _ => totalChildren c = 0)).
    { intros t Ht. unfold onView, core in *. cbn [totalChildren] in *.
      by destruct (setStates_data (mergeOpts options) t) as (_ & _ & _ & _ & ->). }
    revert Hmap. apply (mapThreadRef_below _ (fun o => totalChildren o = 0)).
    + eapply (threadAnnotations_objs (fun o => totalChildren o = 0));
        [..|exact Hta]; auto.
    + auto.
Qed.

Lemma buildThread_totalChildren_witness :
  exists result,
    buildThread 4 sampleThread noOptions = Ok result
    /\ Z.of_nat (length (children (node result))) <= totalChildren (node result)
    /\ Forall (ForallThreads (onView (fun c _ => totalChildren c = 0)))
              (children (node result)).
Proof.
  destruct (buildThread 4 sampleThread noOptions)
    as [result| |] eqn:E; [|vm_compute in E; discriminate..].
  exists result. split; [reflexivity|].
  exact (buildThread_totalChildren 4 sampleThread noOptions result E).
Defined.

(** ** No property of an undefined thread is read *)











(** ** Termination on well-formed input *)

Lemma safeStep_step threads threads' : safeStep threads threads' -> step threads threads'.
Proof. destruct 1; econstructor; eauto. Qed.

Lemma height_transfer threads threads' :
  (forall k t, objs threads !! k = Some t ->
               exists t', objs threads' !! k = Some t' /\ parent t' = parent t) ->
  forall k n, height threads k n -> height threads' k n.
Proof.
  intros Hsame k n H. induction H as [k t Hk Hp|k t p n Hk Hp Htruthy _ IH].
  - destruct (Hsame k t Hk) as (t' & Hk' & Hp').
    eapply height_root; [exact Hk'|]. by rewrite Hp'.
  - destruct (Hsame k t Hk) as (t' & Hk' & Hp').
    eapply height_step; [exact Hk'| |exact Htruthy|exact IH]. by rewrite Hp'.
Qed.

Lemma linkTo_other threads tid parentId t p k tk :
  tid <> parentId ->
  objs threads !! parentId = Some p ->
  k <> tid ->
  objs threads !! k = Some tk ->
  exists tk', objs (linkTo threads tid parentId t p) !! k = Some tk'
              /\ parent tk' = parent tk.
Proof.
  intros Hne Hp Hk Htk. rewrite lookup_linkTo.
  destruct (decide (parentId = k)) as [<-|].
  - destruct (decide (tid = parentId)); [congruence|].
    rewrite Hp in Htk. injection Htk as <-. eauto.
  - destruct (decide (tid = k)); [congruence|]. eauto.
Qed.

(** The threads that a successful ancestor walk has visited still lead to a
    thread without parent after the link has been made. *)
Lemma walk_height threads tid parentId t p fuel : forall a,
  tid <> parentId ->
  objs threads !! parentId = Some p ->
  hasPathToRoot fuel threads tid a = Ok true ->
  a <> tid ->
  exists n, height (linkTo threads tid parentId t p) a n.
Proof.
  induction fuel as [|fuel IH]; intros a Hne Hp Hwalk Ha; [discriminate|].
  rewrite hasPathToRoot_S in Hwalk.
  destruct (objs threads !! a) as [ta|] eqn:Hta; [|discriminate].
  destruct (decide (parent ta = Some tid)) as [|Hnp]; [discriminate|].
  destruct (linkTo_other threads tid parentId t p a ta Hne Hp Ha Hta) as (ta' & Hta' & Hpa').
  destruct (parent ta) as [q|] eqn:Hq.
  - destruct (truthy (Some q)) eqn:Htruthy.
    + destruct (IH q Hne Hp Hwalk) as [n Hn]; [congruence|].
      exists (S n). eapply height_step; eauto.
    + exists 0%nat. eapply height_root; [exact Hta'|]. by rewrite Hpa'.
  - exists 0%nat. eapply height_root; [exact Hta'|]. by rewrite Hpa'.
Qed.

Lemma safeStep_grounded threads threads' :
  safeStep threads threads' ->
  objs threads !! ""%string = None ->
  grounded threads -> grounded threads'.
Proof.
  intros Hstep Hkeys Hg.
  destruct Hstep as [threads k Hk Hne|threads tid parentId t p fuel Ht Htruthy Hp Hwalk Hne
                     |threads k t Hk Htruthy].
  - intros k' t' Hk'. rewrite lookup_store in Hk'.
    destruct (decide (k = k')) as [<-|Hne'].
    + injection Hk' as <-. exists 0%nat. eapply height_root.
      * rewrite lookup_store. by destruct (decide (k = k)).
      * reflexivity.
    + destruct (Hg k' t' Hk') as [n Hn]. exists n.
      revert Hn. apply height_transfer. intros k0 t0 Hk0.
      exists t0. split; [|reflexivity]. rewrite lookup_store.
      destruct (decide (k = k0)); congruence.
  - assert (Hpid : exists m, height (linkTo threads tid parentId t p) parentId m).
    { eapply walk_height; eauto. }
    destruct Hpid as [m Hm].
    assert (Htid : height (linkTo threads tid parentId t p) tid (S m)).
    { eapply height_step; [| |apply truthy_Some|exact Hm].
      - rewrite lookup_linkTo. destruct (decide (parentId = tid)); [congruence|].
        by destruct (decide (tid = tid)).
      - reflexivity.
      - intros ->. congruence. }
    assert (Hall : forall k n, height threads k n ->
                               exists n', height (linkTo threads tid parentId t p) k n').
    { intros k n H. induction H as [k tk Hk Hpk|k tk q n Hk Hpk Htq _ IH].
      - destruct (decide (k = tid)) as [->|Hk']; [eauto|].
        destruct (linkTo_other threads tid parentId t p k tk Hne Hp Hk' Hk)
          as (tk' & Htk' & Hpk').
        exists 0%nat. eapply height_root; [exact Htk'|]. by rewrite Hpk'.
      - destruct (decide (k = tid)) as [->|Hk']; [eauto|].
        destruct (linkTo_other threads tid parentId t p k tk Hne Hp Hk' Hk)
          as (tk' & Htk' & Hpk').
        destruct IH as [n' Hn']. exists (S n').
        eapply height_step; [exact Htk'| |exact Htq|exact Hn']. by rewrite Hpk'. }
    intros k t' Hk'.
    assert (Hold : is_Some (objs threads !! k)).
    { rewrite lookup_linkTo in Hk'.
      destruct (decide (parentId = k)) as [<-|]; [eauto|].
      destruct (decide (tid = k)) as [<-|]; eauto. }
    destruct Hold as [tk Htk]. destruct (Hg k tk Htk) as [n Hn]. eauto.
  - intros k' t' Hk'.
    assert (Hold : is_Some (objs threads !! k')).
    { rewrite lookup_store in Hk'. destruct (decide (k = k')) as [<-|]; eauto. }
    destruct Hold as [tk Htk]. destruct (Hg k' tk Htk) as [n Hn]. exists n.
    revert Hn. apply height_transfer. intros k0 t0 Hk0.
    rewrite lookup_store. destruct (decide (k = k0)) as [<-|]; [|eauto].
    rewrite Hk in Hk0. injection Hk0 as <-. eauto.
Qed.

Lemma safeStep_keys threads threads' :
  safeStep threads threads' ->
  objs threads !! ""%string = None -> objs threads' !! ""%string = None.
Proof.
  destruct 1 as [threads k Hk Hne|threads tid parentId t p fuel Ht Htruthy Hp Hwalk Hne
                 |threads k t Hk Htruthy]; intros Hkeys.
  - rewrite lookup_store. by destruct (decide (k = "")).
  - rewrite lookup_linkTo.
    destruct (decide (parentId = "")); [congruence|].
    destruct (decide (tid = "")); congruence.
  - rewrite lookup_store. destruct (decide (k = "")); congruence.
Qed.

Lemma safeStep_Sound threads threads' :
  safeStep threads threads' -> Sound threads -> Sound threads'.
Proof.
  intros Hstep [Hg Hk Ho Hc]. split.
  - by apply (safeStep_grounded threads).
  - by apply (safeStep_keys threads).
  - apply (step_wellOrdered threads); [by apply safeStep_step|exact Ho].
  - apply (step_childrenKnowParent threads); [by apply safeStep_step|exact Hc].
Qed.

Lemma safeSteps_Sound threads threads' :
  rtc safeStep threads threads' -> Sound threads -> Sound threads'.
Proof. induction 1; eauto using safeStep_Sound. Qed.

Lemma hasPathToRoot_terminates threads a n :
  height threads a n ->
  forall tid, exists b, hasPathToRoot (S n) threads tid a = Ok b.
Proof.
  induction 1 as [k t Hk Hp|k t p n Hk Hp Htruthy _ IH]; intros tid;
    rewrite hasPathToRoot_S, Hk.
  - destruct (decide (parent t = Some tid)); [eauto|].
    destruct (parent t) as [q|]; [|eauto]. rewrite Hp. eauto.
  - destruct (decide (parent t = Some tid)); [eauto|].
    rewrite Hp, Htruthy. apply IH.
Qed.

Lemma noAdjacentDup_snoc l a b :
  noAdjacentDup (l ++ [a; b]) -> a <> b /\ noAdjacentDup (l ++ [a]).
Proof.
  induction l as [|x l IH]; simpl.
  - tauto.
  - intros [Hx Hl]. destruct (IH Hl) as [Hab Hl']. split; [exact Hab|].
    split; [|exact Hl']. by destruct l.
Qed.

Lemma linkThreads_fuel n m annotations threads r :
  linkThreads n annotations threads = r -> r <> OutOfFuel -> (n <= m)%nat ->
  linkThreads m annotations threads = r.
Proof.
  unfold linkThreads. intros H Hr Hle. revert H Hr. apply forEach_fuel.
  intros s a r' H' Hr'. by apply (setParent_fuel n).
Qed.

Lemma setParent_terminates parents : forall threads tid,
  Sound threads ->
  is_Some (objs threads !! tid) ->
  ~ In ""%string parents ->
  noAdjacentDup (parents ++ [tid]) ->
  exists fuel threads',
    setParent fuel threads tid parents = Ok threads' /\ rtc safeStep threads threads'.
Proof.
  induction parents as [|parentId ps IH] using rev_ind;
    intros threads tid Hsound [t Ht] Hempty Hdup.
  - exists 1%nat, threads. split; [|reflexivity].
    rewrite setParent_S, Ht. by destruct (truthy (parent t)).
  - destruct (truthy (parent t)) eqn:Htruthy.
    { exists 1%nat, threads. split; [|reflexivity]. by rewrite setParent_S, Ht, Htruthy. }
    rewrite <- app_assoc in Hdup. simpl in Hdup.
    apply noAdjacentDup_snoc in Hdup as [Hne Hdup].
    assert (Hpid : parentId <> ""%string).
    { intros ->. apply Hempty, in_or_app. right. by left. }
    assert (Hps : ~ In ""%string ps).
    { intros Hin. apply Hempty, in_or_app. by left. }
    assert (H1 : exists f1 threads1 t1 p1,
               match objs threads !! parentId with
               | None =>
                   setParent f1
                     (store parentId (with_children DEFAULT_THREAD_STATE []) threads)
                     parentId ps
               | Some _ => Ok threads
               end = Ok threads1
               /\ rtc safeStep threads threads1
               /\ objs threads1 !! tid = Some t1 /\ parent t1 = parent t
               /\ objs threads1 !! parentId = Some p1).
    { destruct (objs threads !! parentId) as [p|] eqn:Hp.
      - exists 0%nat, threads, t, p. repeat split; auto; reflexivity.
      - assert (Hstep : safeStep threads
                          (store parentId (with_children DEFAULT_THREAD_STATE []) threads))
          by (by apply safeStep_placeholder).
        destruct (IH (store parentId (with_children DEFAULT_THREAD_STATE []) threads)
                     parentId) as (f1 & threads1 & H1 & Hsteps).
        + by apply (safeStep_Sound threads).
        + rewrite lookup_store. by destruct (decide (parentId = parentId)).
        + exact Hps.
        + exact Hdup.
        + destruct (setParent_frame _ _ _ _ _ H1 tid t) as (t1 & Ht1 & Hp1 & _).
          { rewrite lookup_store. destruct (decide (parentId = tid)); congruence. }
          destruct (setParent_frame _ _ _ _ _ H1 parentId
                      (with_children DEFAULT_THREAD_STATE [])) as (p1 & Hp1' & _).
          { rewrite lookup_store. by destruct (decide (parentId = parentId)). }
          exists f1, threads1, t1, p1. split; [exact H1|].
          split; [by eapply rtc_l|]. split; [exact Ht1|]. split; [|exact Hp1'].
          apply Hp1. left. congruence. }
    destruct H1 as (f1 & threads1 & t1 & p1 & H1 & Hsteps & Ht1 & Hpt1 & Hp1).
    pose proof (safeSteps_Sound _ _ Hsteps Hsound) as Hsound1.
    destruct (sound_grounded _ Hsound1 parentId p1 Hp1) as [n Hn].
    destruct (hasPathToRoot_terminates _ _ _ Hn tid) as [b Hb].
    set (f := Nat.max f1 (S n)).
    assert (Hwalk : hasPathToRoot f threads1 tid parentId = Ok b).
    { apply (hasPathToRoot_fuel (S n)); [exact Hb|discriminate|lia]. }
    assert (H1' : match objs threads !! parentId with
                  | None =>
                      setParent f
                        (store parentId (with_children DEFAULT_THREAD_STATE []) threads)
                        parentId ps
                  | Some _ => Ok threads
                  end = Ok threads1).
    { destruct (objs threads !! parentId); [exact H1|].
      apply (setParent_fuel f1); [exact H1|discriminate|lia]. }
    exists (S f).
    rewrite setParent_S, Ht, Htruthy, last_snoc, removelast_last, H1'.
    cbn [mbind result_bind]. rewrite Hwalk. cbn [mbind result_bind].
    destruct b.
    + rewrite (assign_push _ _ _ _ _ Ht1 Hp1).
      eexists. split; [reflexivity|].
      eapply rtc_r; [exact Hsteps|].
      eapply safeStep_link; eauto. by rewrite Hpt1.
    + eauto.
Qed.

Lemma safeSteps_steps threads threads' :
  rtc safeStep threads threads' -> rtc step threads threads'.
Proof.
  induction 1 as [|threads1 threads2 threads3 H _ IH]; [reflexivity|].
  eapply rtc_l; [by apply safeStep_step|exact IH].
Qed.

Lemma linkThreads_terminates annotations : forall threads,
  Sound threads ->
  (forall a, In a annotations ->
             is_Some (objs threads !! annotationId a) /\ wellFormed a) ->
  exists fuel threads',
    linkThreads fuel annotations threads = Ok threads' /\ rtc safeStep threads threads'.
Proof.
  induction annotations as [|a l IH]; intros threads Hsound Hwf.
  - exists 0%nat, threads. split; reflexivity.
  - destruct (Hwf a (or_introl eq_refl)) as (Ha & _ & Hempty & Hdup).
    destruct (setParent_terminates _ _ _ Hsound Ha Hempty Hdup)
      as (f1 & threads1 & H1 & Hsteps1).
    destruct (IH threads1) as (f2 & threads2 & H2 & Hsteps2).
    + by apply (safeSteps_Sound threads).
    + intros b Hb. destruct (Hwf b (or_intror Hb)) as [[tb Htb] Hwfb]. split; [|exact Hwfb].
      destruct (steps_keepsLinks _ _ (safeSteps_steps _ _ Hsteps1) _ _ Htb)
        as (tb' & Htb' & _). eauto.
    + exists (Nat.max f1 f2), threads2. split; [|by etrans].
      unfold linkThreads in *. simpl.
      rewrite (setParent_fuel f1 (Nat.max f1 f2) _ _ _ _ H1); [|discriminate|lia].
      simpl. apply (linkThreads_fuel f2); [exact H2|discriminate|lia].
Qed.

Lemma collectRoot_safeSteps keys : forall st,
  rtc safeStep (fst st) (fst (fold_left collectRoot keys st)).
Proof.
  induction keys as [|k keys IH]; intros st; simpl; [reflexivity|].
  etrans; [|apply IH].
  unfold collectRoot.
  destruct (objs (fst st) !! k) as [t|] eqn:Et; [|reflexivity].
  destruct (truthy (parent t)) eqn:Ep; [reflexivity|].
  cbn [fst]. apply rtc_once. by apply safeStep_collapse.
Qed.

Lemma initialThreads_Sound annotations :
  (forall a, In a annotations -> wellFormed a) -> Sound (initialThreads annotations).
Proof.
  intros Hwf. split.
  - intros k t Hk. exists 0%nat. eapply height_root; [exact Hk|].
    by apply initialThreads_fresh in Hk as (a & _ & _ & ->).
  - destruct (objs (initialThreads annotations) !! ""%string) as [t|] eqn:Hk;
      [|reflexivity].
    apply initialThreads_fresh in Hk as (a & Ha & Hid & _).
    destruct (Hwf a Ha) as [Hne _]. congruence.
  - apply initialThreads_wellOrdered.
  - apply initialThreads_childrenKnowParent.
Qed.

Lemma threadAnnotations_terminates annotations :
  (forall a, In a annotations -> wellFormed a) ->
  exists fuel threads root,
    threadAnnotations fuel annotations = Ok (threads, root) /\ Sound threads.
Proof.
  intros Hwf.
  destruct (linkThreads_terminates annotations (initialThreads annotations))
    as (fuel & threads1 & H1 & Hsteps).
  - by apply initialThreads_Sound.
  - intros a Ha. split; [by apply initialThreads_lookup|by apply Hwf].
  - pose proof (collectRoot_safeSteps (forIn threads1) (threads1, [])) as Hc.
    exists fuel. unfold threadAnnotations. rewrite H1. cbn [mbind result_bind].
    destruct (fold_left collectRoot (forIn threads1) (threads1, []))
      as [threads2 rootThreads].
    eexists. eexists. split; [reflexivity|].
    apply (safeSteps_Sound (initialThreads annotations)); [|by apply initialThreads_Sound].
    etrans; [exact Hsteps|exact Hc].
Qed.

Lemma height_functional threads k n :
  height threads k n -> forall m, height threads k m -> n = m.
Proof.
  induction 1 as [k t Hk Hp|k t p n Hk Hp Htruthy _ IH]; intros m Hm.
  - destruct Hm as [k t' Hk' Hp'|k t' p' m Hk' Hp' Htruthy' _]; [reflexivity|].
    rewrite Hk in Hk'. injection Hk' as <-. congruence.
  - destruct Hm as [k t' Hk' Hp'|k t' p' m Hk' Hp' Htruthy' Hm].
    + rewrite Hk in Hk'. injection Hk' as <-. congruence.
    + rewrite Hk in Hk'. injection Hk' as <-.
      rewrite Hp in Hp'. injection Hp' as <-. f_equal. by apply IH.
Qed.








Lemma threadAnnotations_Sound fuel annotations threads root :
  (forall a, In a annotations -> wellFormed a) ->
  threadAnnotations fuel annotations = Ok (threads, root) ->
  Sound threads.
Proof.
  intros Hwf H.
  destruct (threadAnnotations_terminates annotations Hwf)
    as (f1 & threads1 & root1 & H1 & Hsound).
  apply (threadAnnotations_fuel fuel (Nat.max fuel f1)) in H; [|discriminate|lia].
  apply (threadAnnotations_fuel f1 (Nat.max fuel f1)) in H1; [|discriminate|lia].
  rewrite H in H1. apply Ok_inj in H1. by injection H1 as -> _.
Qed.

(** X19.  On records in which no id is the empty string and no id is
    followed by itself in the chain of a record's references and its own
    id, the threads that [threadAnnotations] leaves form a forest: from
    every thread the [parent] links lead, in finitely many steps, to a
    thread without parent, and no thread is its own parent. *)
Theorem threadAnnotations_forest fuel annotations threads root k t :
  (forall a, In a annotations -> wellFormed a) ->
  threadAnnotations fuel annotations = Ok (threads, root) ->
  objs threads !! k = Some t ->
  (exists n, height threads k n) /\ parent t <> Some k.
Proof.
  intros Hwf H Hk. pose proof (threadAnnotations_Sound _ _ _ _ Hwf H) as Hsound.
  destruct (sound_grounded _ Hsound k t Hk) as [n Hn].
  split; [eauto|]. intros Hp.
  assert (Hkne : k <> ""%string).
  { intros ->. rewrite (sound_keys _ Hsound) in Hk. discriminate. }
  assert (Hn' : height threads k (S n)).
  { eapply height_step; [exact Hk|exact Hp|by apply truthy_Some|exact Hn]. }
  pose proof (height_functional _ _ _ Hn _ Hn'). lia.
Qed.

Lemma threadAnnotations_forest_witness :
  exists t,
    lookupThread (threadAnnotations 3 sampleThread) "C" = Some t
    /\ (exists n threads root,
          threadAnnotations 3 sampleThread = Ok (threads, root)
          /\ height threads "C" n)
    /\ parent t <> Some "C"%string.
Proof.
  destruct (threadAnnotations 3 sampleThread) as [[threads root]| |] eqn:E;
    [|vm_compute in E; discriminate..].
  destruct (objs threads !! "C"%string) as [t|] eqn:Et;
    [|exfalso; vm_compute in E; injection E as <- _; vm_compute in Et; discriminate].
  exists t. split; [exact Et|].
  destruct (threadAnnotations_forest 3 sampleThread threads root "C" t) as [[n Hn] Hp];
    [|exact E|exact Et|].
  - intros a [<-|[<-|[<-|[]]]]; unfold wellFormed; simpl;
      (split; [discriminate|]); (split; [intuition discriminate|]);
      repeat split; discriminate.
  - split; [|exact Hp]. exists n, threads, root. auto.
Defined.

(** X22.  A call of [setParent] that returns leaves every thread of the map
    in the map, with its data; it changes the parent of no thread other
    than [tid], does not change the parent of [tid] if there is one, and
    removes no child. *)
Theorem setParent_touches_only_links fuel threads tid parents threads' k t :
  setParent fuel threads tid parents = Ok threads' ->
  objs threads !! k = Some t ->
  exists t',
    objs threads' !! k = Some t'
    /\ sameData t t'
    /\ (k <> tid \/ truthy (parent t) = true -> parent t' = parent t)
    /\ (forall c, In c (children t) -> In c (children t')).
Proof.
  intros H Hk.
  destruct (setParent_frame _ _ _ _ _ H k t Hk) as (t' & Hk' & Hp & Hc).
  destruct (steps_sameData _ _ (setParent_steps _ _ _ _ _ H) k t Hk) as (t'' & Hk'' & Hs).
  rewrite Hk' in Hk''. injection Hk'' as <-. eauto.
Qed.

Lemma setParent_touches_only_links_witness :
  exists t',
    lookupThread
      (threads' ← setParent 2 (initialThreads sampleThread) "B" ["A"%string];
       Ok (threads', DEFAULT_THREAD_STATE)) "A" = Some t'
    /\ sameData (newThread (reply "A" [])) t'
    /\ parent t' = None
    /\ children t' = ["B"%string].
Proof.
  destruct (setParent 2 (initialThreads sampleThread) "B" ["A"%string])
    as [threads'| |] eqn:E; [|vm_compute in E; discriminate..].
  destruct (setParent_touches_only_links 2 (initialThreads sampleThread) "B"
              ["A"%string] threads' "A" (newThread (reply "A" [])) E)
    as (t' & Ht' & Hs & Hp & _); [vm_compute; reflexivity|].
  exists t'. split; [exact Ht'|]. split; [exact Hs|].
  split; [apply Hp; left; discriminate|].
  vm_compute in E. injection E as <-. vm_compute in Ht'. by injection Ht' as <-.
Defined.

(** ** The order of the result *)

Lemma StronglySorted_map {A B : Type} (R : A -> A -> Prop) (R' : B -> B -> Prop)
      (f : A -> B) l :
  (forall x y, R x y -> R' (f x) (f y)) ->
  StronglySorted R l -> StronglySorted R' (map f l).
Proof.
  intros Hf. induction 1 as [|x l _ IH Hx]; simpl; constructor; [exact IH|].
  apply Forall_map. eapply Forall_impl; [exact Hx|]. auto.
Qed.

Lemma sort_sorted lt threads :
  LessThan lt -> StronglySorted (notAfter (compareThreads lt)) (sort threads lt).
Proof.
  intros Hlt. unfold sort. apply arraySort_sorted.
  - by apply compareThreads_asym.
  - by apply compareThreads_negtrans.
Qed.

Lemma sortThread_sorted replyCompareFn :
  LessThan replyCompareFn ->
  forall t compareFn,
    LessThan compareFn ->
    childrenSorted compareFn (sortThread t compareFn replyCompareFn)
    /\ Forall (ForallThreads (childrenSorted replyCompareFn))
              (children (node (sortThread t compareFn replyCompareFn))).
Proof.
  intros Hr t. induction t as [n IH] using Thread_induction. intros compareFn Hc.
  rewrite sortThread_unfold. unfold childrenSorted at 1. cbn [node children with_children].
  split; [by apply sort_sorted|].
  eapply Permutation_Forall; [symmetry; apply arraySort_perm|].
  apply Forall_map. eapply Forall_impl; [exact IH|].
  intros c Hcs. destruct (Hcs replyCompareFn Hr) as [Htop Hbelow].
  destruct (sortThread c replyCompareFn replyCompareFn) as [m]. by constructor.
Qed.

Lemma countRepliesAndDepth_sorted lt t : forall d,
  ForallThreads (childrenSorted lt) t ->
  ForallThreads (childrenSorted lt) (countRepliesAndDepth t d).
Proof.
  induction t as [n IH] using Thread_induction. intros d Ht.
  pose proof (ForallThreads_root _ _ Ht) as Hroot.
  apply ForallThreads_children in Ht.
  rewrite countRepliesAndDepth_unfold. constructor.
  - unfold childrenSorted in *. cbn [node children with_counts] in *.
    revert Hroot. apply StronglySorted_map. intros x y Hxy.
    unfold notAfter, compareThreads in *.
    destruct (countRepliesAndDepth_view x (d + 1)) as [Hx _].
    destruct (countRepliesAndDepth_view y (d + 1)) as [Hy _].
    change (annotation (node (countRepliesAndDepth x (d + 1))))
      with (annotation (core (node (countRepliesAndDepth x (d + 1))))).
    change (annotation (node (countRepliesAndDepth y (d + 1))))
      with (annotation (core (node (countRepliesAndDepth y (d + 1))))).
    by rewrite Hx, Hy.
  - cbn [children with_counts]. apply Forall_map.
    rewrite Forall_forall in *. auto.
Qed.

Lemma newestFirst_LessThan : LessThan newestFirst.
Proof.
  destruct default_replySortCompareFn_LessThan as [Hirr Htrans Heq].
  split.
  - intros a. apply (Hirr a).
  - intros a b c Hab Hbc. apply (Htrans c b a Hbc Hab).
  - intros a b c H1 H2 H3 H4.
    destruct (Heq a b c H2 H1 H4 H3) as [H5 H6]. split; [exact H6|exact H5].
Qed.

(** X20.  When the two comparison functions are less-than predicates, the
    tree returned by [buildThread] is sorted: among the top-level threads
    none comes after a thread that it has to precede by [sortCompareFn],
    and among the children of every other thread none comes after a thread
    that it has to precede by [replySortCompareFn].  The default
    [replySortCompareFn] is such a predicate; the default [sortCompareFn],
    which compares the [id] fields, is one only among records that all
    have an [id]. *)
Theorem buildThread_sorted fuel annotations options result :
  LessThan (opts_sortCompareFn (mergeOpts options)) ->
  LessThan (opts_replySortCompareFn (mergeOpts options)) ->
  buildThread fuel annotations options = Ok result ->
  childrenSorted (opts_sortCompareFn (mergeOpts options)) result
  /\ Forall (ForallThreads (childrenSorted (opts_replySortCompareFn (mergeOpts options))))
            (children (node result)).
Proof.
  intros Hc Hr H. apply buildThread_inv in H as (threads & root & thread & _ & _ & ->).
  unfold projectThread.
  set (thread2 := mapThread _ _).
  destruct (sortThread_sorted _ Hr thread2 _ Hc) as [Htop Hbelow].
  destruct (sortThread thread2 _ _) as [n].
  rewrite countRepliesAndDepth_unfold. split.
  - unfold childrenSorted in *. cbn [node children with_counts] in *.
    revert Htop. apply StronglySorted_map. intros x y Hxy.
    unfold notAfter, compareThreads in *.
    destruct (countRepliesAndDepth_view x (-1 + 1)) as [Hx _].
    destruct (countRepliesAndDepth_view y (-1 + 1)) as [Hy _].
    change (annotation (node (countRepliesAndDepth x (-1 + 1))))
      with (annotation (core (node (countRepliesAndDepth x (-1 + 1))))).
    change (annotation (node (countRepliesAndDepth y (-1 + 1))))
      with (annotation (core (node (countRepliesAndDepth y (-1 + 1))))).
    by rewrite Hx, Hy.
  - cbn [node children with_counts] in *. apply Forall_map.
    eapply Forall_impl; [exact Hbelow|]. intros c. apply countRepliesAndDepth_sorted.
Qed.

Lemma buildThread_sorted_witness :
  let options := with_sortCompareFn noOptions (Some newestFirst) in
  exists result,
    buildThread 4 datedThread options = Ok result
    /\ map (fun c => (id (node c), map (fun r => id (node r)) (children (node c))))
           (children (node result))
       = [("B"%string, ["F"%string; "E"%string]);
          ("A"%string, ["D"%string; "C"%string])]
    /\ childrenSorted (opts_sortCompareFn (mergeOpts options)) result
    /\ Forall (ForallThreads (childrenSorted (opts_replySortCompareFn (mergeOpts options))))
              (children (node result)).
Proof.
  intros options.
  destruct (buildThread 4 datedThread options)
    as [result| |] eqn:E; [|vm_compute in E; discriminate..].
  exists result. split; [reflexivity|]. split.
  - vm_compute in E. apply Ok_inj in E. subst result. reflexivity.
  - apply (buildThread_sorted 4 datedThread options result).
    + exact newestFirst_LessThan.
    + exact default_replySortCompareFn_LessThan.
    + exact E.
Defined.

(** ** Visibility in the result *)

Lemma isVisible_shown {C : Type} opts (o : Thread_ C) :
  visible o = true ->
  (isVisible opts o = true <-> exists a, annotation o = Some a /\ shown opts a).
Proof.
  intros Hv. destruct (annotation o) as [a|] eqn:Ha.
  - assert (Hdec : (exists l, opts_forceVisible opts = Some l /\ In (annotationId a) l)
                   \/ (forall l, opts_forceVisible opts = Some l -> ~ In (annotationId a) l)).
    { destruct (opts_forceVisible opts) as [l|]; [|right; discriminate].
      destruct (in_dec string_dec (annotationId a) l) as [Hin|Hnin].
      - left. eauto.
      - right. by intros l' [= <-]. }
    destruct Hdec as [(l & Hl & Hin)|Hnot].
    + rewrite (isVisible_forced opts o a l Hv Ha Hl Hin).
      split; [|reflexivity]. intros _. exists a. split; [reflexivity|]. left. eauto.
    + rewrite (isVisible_not_forced opts o a Hv Ha Hnot). unfold shown.
      split.
      * intros Hf. exists a. split; [reflexivity|]. right.
        by destruct (opts_filterFn opts).
      * intros (a' & [= <-] & [(l & Hl & Hin)|Hf]); [by destruct (Hnot l Hl)|].
        by destruct (opts_filterFn opts).
  - unfold isVisible. rewrite Hv, Ha. simpl.
    split; [discriminate|]. intros (a & Ha' & _). discriminate.
Qed.

(** X21.  In the tree returned by [buildThread] a thread is visible exactly
    if it has an annotation that is shown: its id is in [forceVisible], or
    no [filterFn] is given, or [filterFn] accepts it.  The root and the
    placeholders are never visible. *)
Theorem buildThread_visible_iff_shown fuel annotations options result :
  buildThread fuel annotations options = Ok result ->
  ForallThreads
    (onView (fun c _ =>
               visible c = true <->
               exists a, annotation c = Some a /\ shown (mergeOpts options) a))
    result.
Proof.
  intros H. apply buildThread_inv in H as (threads & root & thread & Hta & Hmap & ->).
  apply (projectThread_onView _
           (fun c _ => visible c = true <->
                       exists a, annotation c = Some a /\ shown (mergeOpts options) a)).
  { intros t Ht. unfold onView, core in *. cbn [visible annotation] in *.
    by destruct (setStates_data (mergeOpts options) t) as (_ & -> & _ & -> & _). }
  revert Hmap. apply (mapThreadRef_onView _ freshState).
  - exact (threadAnnotations_freshState _ _ _ _ Hta).
  - intros o _ [Hv _]. unfold core, setVisibility. cbn [visible annotation with_visible].
    by apply isVisible_shown.
  - destruct (threadAnnotations_root_fields _ _ _ _ Hta) as (_ & Ha & _ & Hv & _).
    split.
    + change (visible (core (filteredRoot (mergeOpts options) threads root)) = true).
      by rewrite filteredRoot_core.
    + intros a.
      change (annotation (core (filteredRoot (mergeOpts options) threads root)) = Some a
              -> id (filteredRoot (mergeOpts options) threads root) = annotationId a).
      rewrite filteredRoot_core. unfold core. cbn [annotation]. by rewrite Ha.
Qed.

Lemma buildThread_visible_iff_shown_witness :
  let options :=
    with_filterFn (with_forceVisible noOptions (Some ["B"%string]))
                  (Some (fun _ => false)) in
  exists result,
    buildThread 4 sampleThread options = Ok result
    /\ ForallThreads
         (onView (fun c _ =>
                    visible c = true <->
                    exists a, annotation c = Some a /\ shown (mergeOpts options) a))
         result.
Proof.
  intros options.
  destruct (buildThread 4 sampleThread options)
    as [result| |] eqn:E; [|vm_compute in E; discriminate..].
  exists result. split; [reflexivity|].
  exact (buildThread_visible_iff_shown 4 sampleThread options result E).
Defined.

(** ** Refused links *)

Lemma hasPathToRoot_descendant threads tid a :
  descendsFrom threads tid a ->
  forall fuel, hasPathToRoot fuel threads tid a <> Ok true.
Proof.
  induction 1 as [a ta Ha Hp|a ta q Ha Hp Htruthy _ IH]; intros [|fuel];
    try discriminate; rewrite hasPathToRoot_S, Ha.
  - destruct (decide (parent ta = Some tid)); [discriminate|contradiction].
  - destruct (decide (parent ta = Some tid)); [discriminate|].
    rewrite Hp, Htruthy. apply IH.
Qed.

(** X23.  [setParent] does not link a thread under one of its proper
    descendants: when the nearest ancestor named in [parents] descends from
    [tid], the ancestor walk does not answer true and a call of [setParent]
    that returns leaves the thread map as it was. *)
Theorem setParent_refuses_descendant fuel threads tid parents parentId threads' :
  last parents = Some parentId ->
  descendsFrom threads tid parentId ->
  setParent fuel threads tid parents = Ok threads' ->
  hasPathToRoot fuel threads tid parentId <> Ok true /\ threads' = threads.
Proof.
  intros Hlast Hdesc H.
  split; [by apply hasPathToRoot_descendant|].
  destruct fuel as [|fuel]; [discriminate|].
  rewrite setParent_S in H.
  destruct (objs threads !! tid) as [t|]; [|discriminate].
  destruct (truthy (parent t)); [symmetry; by apply Ok_inj|].
  rewrite Hlast in H.
  assert (Hp : is_Some (objs threads !! parentId)) by (destruct Hdesc; eauto).
  destruct Hp as [p Hp]. rewrite Hp in H. cbn [mbind result_bind] in H.
  pose proof (hasPathToRoot_descendant _ _ _ Hdesc fuel) as Hwalk.
  destruct (hasPathToRoot fuel threads tid parentId) as [[|]| |];
    [contradiction| |discriminate..].
  symmetry. by apply Ok_inj.
Qed.

Lemma setParent_refuses_descendant_witness :
  exists threads,
    linkThreads 2 [reply "1" ["2"]] (initialThreads [reply "1" ["2"]; reply "2" ["1"]])
    = Ok threads
    /\ hasPathToRoot 2 threads "2" "1" <> Ok true
    /\ setParent 2 threads "2" ["1"%string] = Ok threads.
Proof.
  destruct (linkThreads 2 [reply "1" ["2"]]
              (initialThreads [reply "1" ["2"]; reply "2" ["1"]]))
    as [threads| |] eqn:E; [|vm_compute in E; discriminate..].
  exists threads. split; [reflexivity|].
  destruct (setParent 2 threads "2" ["1"%string]) as [threads'| |] eqn:E';
    [|exfalso; vm_compute in E; injection E as <-; vm_compute in E'; discriminate..].
  destruct (setParent_refuses_descendant 2 threads "2" ["1"%string] "1" threads')
    as [Hwalk ->]; [reflexivity| |exact E'|by split].
  vm_compute in E. injection E as <-.
  eapply descends_child; vm_compute; reflexivity.
Defined.

(** ** Records that agree on a hierarchy *)

Lemma increasing_snoc rank l a b :
  increasing rank (l ++ [a; b]) ->
  (rank a < rank b)%nat /\ increasing rank (l ++ [a]).
Proof.
  induction l as [|x l IH]; simpl.
  - intros [H _]. auto.
  - intros [H1 H2]. destruct (IH H2) as [Hab Hl].
    split; [exact Hab|]. split; [|exact Hl].
    by destruct l.
Qed.

Lemma increasing_last rank l a b :
  last l = Some a -> increasing rank (l ++ [b]) -> (rank a < rank b)%nat.
Proof.
  intros Hlast H. apply last_Some in Hlast as [l' ->].
  rewrite <- app_assoc in H. by apply increasing_snoc in H as [H _].
Qed.

Lemma initialThreads_ranked rank annotations : ranked rank (initialThreads annotations).
Proof.
  intros k t p Hk Hp. apply initialThreads_fresh in Hk as (a & _ & _ & ->).
  discriminate.
Qed.

(** [setParent] links a thread only under a thread of smaller rank when the
    chain it is given is increasing. *)
Lemma setParent_ranked rank fuel : forall threads tid parents threads',
  ranked rank threads ->
  increasing rank (parents ++ [tid]) ->
  setParent fuel threads tid parents = Ok threads' ->
  ranked rank threads'.
Proof.
  induction fuel as [|fuel IH]; intros threads tid parents threads' Hr Hinc H;
    [discriminate|].
  rewrite setParent_S in H.
  destruct (objs threads !! tid) as [t|] eqn:Et; [|discriminate].
  destruct (truthy (parent t)) eqn:Etruthy; [apply Ok_inj in H; by subst|].
  destruct (last parents) as [parentId|] eqn:Hlast; [|apply Ok_inj in H; by subst].
  apply last_Some in Hlast as [ps ->].
  rewrite removelast_last in H.
  rewrite <- app_assoc in Hinc. apply increasing_snoc in Hinc as [Hlt Hinc].
  apply bind_Ok in H; [|discriminate].
  destruct H as [(threads1 & H1 & H)|[_ ?]]; [|discriminate].
  assert (Hmid : ranked rank threads1
                 /\ (exists t1, objs threads1 !! tid = Some t1 /\ parent t1 = parent t)
                 /\ (fuel <> 0%nat -> is_Some (objs threads1 !! parentId))).
  { destruct (objs threads !! parentId) as [p|] eqn:Ep.
    - apply Ok_inj in H1. subst. split; [exact Hr|]. split; eauto.
    - assert (Hne : tid <> parentId) by congruence.
      split; [|split].
      + eapply IH; [|exact Hinc|exact H1].
        intros k t0 q. rewrite lookup_store.
        destruct (decide (parentId = k)); [|apply Hr].
        intros [= <-]. discriminate.
      + destruct (setParent_frame _ _ _ _ _ H1 tid t) as (t1 & Ht1 & Hp1 & _).
        { rewrite lookup_store. by destruct (decide (parentId = tid)). }
        exists t1. split; [exact Ht1|]. apply Hp1. by left.
      + intros _.
        destruct (setParent_frame _ _ _ _ _ H1 parentId
                    (with_children DEFAULT_THREAD_STATE [])) as (t1 & Ht1 & _).
        { rewrite lookup_store. by destruct (decide (parentId = parentId)). }
        by exists t1. }
  destruct Hmid as (Hr1 & (t1 & Ht1 & Hp1) & Hp).
  apply bind_Ok in H; [|discriminate].
  destruct H as [([|] & Hwalk & H)|[_ ?]]; [| |discriminate];
    [|apply Ok_inj in H; by subst].
  destruct Hp as [p Hp]; [by destruct fuel|].
  rewrite (assign_push _ _ _ _ _ Ht1 Hp) in H. apply Ok_inj in H. subst threads'.
  assert (Hne : tid <> parentId) by (intros ->; lia).
  intros k t0 q Hk Hq. rewrite lookup_linkTo in Hk.
  destruct (decide (parentId = k)) as [<-|Hk1].
  - destruct (decide (tid = parentId)); [done|].
    injection Hk as <-. exact (Hr1 _ _ _ Hp Hq).
  - destruct (decide (tid = k)) as [<-|Hk2].
    + injection Hk as <-. simpl in Hq. injection Hq as <-. exact Hlt.
    + exact (Hr1 _ _ _ Hk Hq).
Qed.

Lemma linkThreads_ranked rank fuel annotations : forall threads threads',
  hierarchical rank annotations ->
  ranked rank threads ->
  linkThreads fuel annotations threads = Ok threads' ->
  ranked rank threads'.
Proof.
  unfold linkThreads.
  induction annotations as [|a l IH]; intros threads threads' Hh Hr H; simpl in H.
  - apply Ok_inj in H. by subst.
  - apply bind_Ok in H; [|discriminate].
    destruct H as [(threads1 & H1 & H)|[_ ?]]; [|discriminate].
    apply (IH threads1); [|eapply setParent_ranked; eauto|exact H].
    + intros x Hx. apply Hh. by right.
    + apply Hh. by left.
Qed.

(** In a ranked map the ancestor walk from a thread of smaller rank never
    meets the thread it is made for, so it succeeds. *)
Lemma ranked_walk rank threads tid :
  parentsKnowChildren threads -> ranked rank threads ->
  forall fuel a b,
    is_Some (objs threads !! a) -> (rank a < rank tid)%nat ->
    hasPathToRoot fuel threads tid a = Ok b -> b = true.
Proof.
  intros Hpk Hr. induction fuel as [|fuel IH]; intros a b [ta Hta] Hlt H;
    [discriminate|].
  rewrite hasPathToRoot_S, Hta in H.
  destruct (decide (parent ta = Some tid)) as [Hp|_].
  - pose proof (Hr _ _ _ Hta Hp). lia.
  - destruct (parent ta) as [p|] eqn:Hp; [|congruence].
    destruct (truthy (Some p)); [|congruence].
    apply (IH p b); [| |exact H].
    + destruct (Hpk _ _ _ Hta Hp) as (tp & Htp & _). eauto.
    + pose proof (Hr _ _ _ Hta Hp). lia.
Qed.

(** The records with another id leave the parent of a thread as it is. *)
Lemma linkThreads_frame fuel annotations k : forall threads threads' t,
  (forall a, In a annotations -> annotationId a <> k) ->
  linkThreads fuel annotations threads = Ok threads' ->
  objs threads !! k = Some t ->
  exists t',
    objs threads' !! k = Some t'
    /\ parent t' = parent t
    /\ (forall c, In c (children t) -> In c (children t')).
Proof.
  unfold linkThreads.
  induction annotations as [|a l IH]; intros threads threads' t Hne H Ht; simpl in H.
  - apply Ok_inj in H. subst. eauto.
  - apply bind_Ok in H; [|discriminate].
    destruct H as [(threads1 & H1 & H)|[_ ?]]; [|discriminate].
    destruct (setParent_frame _ _ _ _ _ H1 k t Ht) as (t1 & Ht1 & Hp1 & Hc1).
    destruct (IH threads1 threads' t1) as (t' & Ht' & Hp' & Hc'); [|exact H|exact Ht1|].
    { intros x Hx. apply Hne. by right. }
    exists t'. split; [exact Ht'|]. split; [|auto].
    rewrite Hp'. apply Hp1. left. intros ->. by apply (Hne a); [left|].
Qed.

Lemma collectRoot_frame keys st k t :
  objs (fst st) !! k = Some t ->
  exists t',
    objs (fst (fold_left collectRoot keys st)) !! k = Some t'
    /\ parent t' = parent t
    /\ (forall c, In c (children t) -> In c (children t')).
Proof.
  intros Ht.
  destruct (collectRoot_keepsLinks keys st k t Ht) as (t' & Ht' & _ & Hc).
  exists t'. split; [exact Ht'|]. split; [|exact Hc].
  destruct (fold_collectRoot_collapsed keys st k t' Ht') as (t0 & Ht0 & Hp & _).
  rewrite Ht in Ht0. by injection Ht0 as <-.
Qed.

(** C3, amended.  Let the records of the input agree on a hierarchy: the
    ids can be ranked so that in every record the rank grows along the
    references and from the last reference to the record's own id.  Let
    [a] be a record of the input whose id no other record has.  If the
    references of [a] end with the id of a record [b] of the input, then in
    the thread map that [threadAnnotations] leaves the thread of [a] has the
    id of [b] as its parent and occurs among the children of the thread of
    [b]. *)
Theorem reply_linked_to_nearest_ancestor
        rank fuel before a after b threads root :
  hierarchical rank (before ++ a :: after) ->
  (forall x, In x (before ++ after) -> annotationId x <> annotationId a) ->
  In b (before ++ a :: after) ->
  last (default [] (references a)) = Some (annotationId b) ->
  threadAnnotations fuel (before ++ a :: after) = Ok (threads, root) ->
  exists ta tb,
    objs threads !! annotationId a = Some ta
    /\ objs threads !! annotationId b = Some tb
    /\ parent ta = Some (annotationId b)
    /\ In (annotationId a) (children tb).
Proof.
  intros Hh Hother Hb Hlast H.
  assert (Ha : In a (before ++ a :: after)) by apply in_elt.
  pose proof (increasing_last _ _ _ _ Hlast (Hh a Ha)) as Hlt.
  apply threadAnnotations_inv in H as (threads3 & H3 & -> & _).
  destruct (initialThreads_lookup _ _ Ha) as [ta0 Hta0].
  assert (Hp0 : parent ta0 = None).
  { apply initialThreads_fresh in Hta0 as (a' & _ & _ & ->). reflexivity. }
  destruct (initialThreads_lookup _ _ Hb) as [tb0 Htb0].
  pose proof (initialThreads_parentsKnowChildren (before ++ a :: after)) as Hpk.
  pose proof (initialThreads_ranked rank (before ++ a :: after)) as Hr.
  revert H3 Hta0 Htb0 Hpk Hr.
  generalize (initialThreads (before ++ a :: after)) as threadsI.
  intros threadsI H3 Hta0 Htb0 Hpk Hr.
  rewrite linkThreads_app in H3.
  apply bind_Ok in H3; [|discriminate].
  destruct H3 as [(threads0 & H0 & H3)|[_ ?]]; [|discriminate].
  simpl in H3.
  apply bind_Ok in H3; [|discriminate].
  destruct H3 as [(threads1 & H1 & H3)|[_ ?]]; [|discriminate].
  (* the map when [a] is processed *)
  destruct (linkThreads_frame _ _ _ _ _ _
              (fun x Hx => Hother x (in_or_app _ _ _ (or_introl Hx))) H0 Hta0)
    as (ta1 & Hta1 & Hp1 & _).
  destruct (linkThreads_keepsLinks _ _ _ _ H0 _ _ Htb0) as (tb1 & Htb1 & _).
  assert (Hpk0 : parentsKnowChildren threads0).
  { apply (steps_invariant parentsKnowChildren step_parentsKnowChildren
             _ _ (linkThreads_steps _ _ _ _ H0) Hpk). }
  assert (Hr0 : ranked rank threads0).
  { apply (linkThreads_ranked rank _ _ _ _
             (fun x Hx => Hh x (in_or_app _ _ _ (or_introl Hx))) Hr H0). }
  assert (Hnp : hasParent threads0 (annotationId a) = false).
  { unfold hasParent. by rewrite Hta1, Hp1, Hp0. }
  assert (Hwalk : hasPathToRoot fuel threads0 (annotationId a) (annotationId b) = Ok true).
  { destruct fuel as [|fuel]; [discriminate|].
    pose proof H1 as H1'. rewrite setParent_S in H1'.
    unfold hasParent in Hnp. rewrite Hta1 in Hnp, H1'.
    rewrite Hnp, Hlast, Htb1 in H1'. simpl in H1'.
    destruct (hasPathToRoot fuel threads0 (annotationId a) (annotationId b))
      as [ok| |] eqn:Eok; [|discriminate..].
    rewrite (ranked_walk rank threads0 (annotationId a) Hpk0 Hr0 fuel
               (annotationId b) ok) in Eok; eauto.
    by apply (hasPathToRoot_fuel fuel (S fuel)) in Eok; [|discriminate|lia]. }
  destruct (setParent_links _ _ _ _ _ _ Hnp Hlast (ex_intro _ tb1 Htb1) Hwalk H1)
    as (ta2 & tb2 & Hta2 & Htb2 & Hpa2 & Hcb2).
  (* the records after [a] and the collection of the top-level threads *)
  destruct (linkThreads_frame _ _ _ _ _ _
              (fun x Hx => Hother x (in_or_app _ _ _ (or_intror Hx))) H3 Hta2)
    as (ta3 & Hta3 & Hp3 & _).
  destruct (linkThreads_keepsLinks _ _ _ _ H3 _ _ Htb2) as (tb3 & Htb3 & _ & Hc3).
  destruct (collectRoot_frame (forIn threads3) (threads3, []) _ _ Hta3)
    as (ta4 & Hta4 & Hp4 & _).
  destruct (collectRoot_frame (forIn threads3) (threads3, []) _ _ Htb3)
    as (tb4 & Htb4 & _ & Hc4).
  exists ta4, tb4. split; [exact Hta4|]. split; [exact Htb4|].
  split; [congruence|auto].
Qed.

Lemma sampleThread_hierarchical : hierarchical sampleRank sampleThread.
Proof.
  intros a [<-|[<-|[<-|[]]]]; vm_compute; repeat split; lia.
Qed.

Lemma reply_linked_to_nearest_ancestor_witness :
  exists threads root ta tb,
    threadAnnotations 3 sampleThread = Ok (threads, root)
    /\ objs threads !! "C"%string = Some ta
    /\ objs threads !! "B"%string = Some tb
    /\ parent ta = Some "B"%string
    /\ In "C"%string (children tb).
Proof.
  destruct (threadAnnotations 3 sampleThread) as [[threads root]| |] eqn:E;
    [|vm_compute in E; discriminate..].
  exists threads, root.
  destruct (reply_linked_to_nearest_ancestor
              sampleRank 3 [reply "A" []; reply "B" ["A"]] (reply "C" ["A"; "B"]) []
              (reply "B" ["A"]) threads root) as (ta & tb & H).
  - exact sampleThread_hierarchical.
  - intros x [<-|[<-|[]]]; discriminate.
  - simpl. auto.
  - reflexivity.
  - exact E.
  - exists ta, tb. split; [reflexivity|]. exact H.
Defined.

(** ** Selection *)

Lemma Forall2_In_l {A B : Type} (R : A -> B -> Prop) l l' x :
  Forall2 R l l' -> In x l -> exists y, In y l' /\ R x y.
Proof.
  induction 1 as [|a b l l' HR _ IH]; simpl; [done|].
  intros [<-|Hx]; [eauto|].
  destruct (IH Hx) as (y & Hy & HRy). eauto.
Qed.

(** C9.  An empty [selected] list is the same as no [selected] option:
    [buildThread] returns the same result, and no top-level thread is
    pruned by selection.  Every thread without parent that carries an
    annotation is a top-level thread of the result, whatever its id,
    provided the annotation is shown and [threadFilterFn], if there is one,
    accepts the thread. *)
Theorem empty_selected_is_no_selection fuel annotations options :
  hasSelected (mergeOpts (with_selected options (Some []))) = false
  /\ buildThread fuel annotations (with_selected options (Some []))
     = buildThread fuel annotations (with_selected options None)
  /\ forall threads root result k o a,
       threadAnnotations fuel annotations = Ok (threads, root) ->
       buildThread fuel annotations (with_selected options (Some [])) = Ok result ->
       In k (children root) ->
       objs threads !! k = Some o ->
       annotation o = Some a ->
       shown (mergeOpts (with_selected options (Some []))) a ->
       (forall f, threadFilterFn options = Some f -> f threads o = true) ->
       exists c,
         In c (children (node result))
         /\ id (node c) = k
         /\ annotation (node c) = Some a
         /\ visible (node c) = true.
Proof.
  split; [reflexivity|]. split; [reflexivity|].
  intros threads root result k o a Hta H Hk Ho Ha Hshown Hf.
  set (opts := mergeOpts (with_selected options (Some []))) in *.
  apply buildThread_inv in H as (threads' & root' & thread & Hta' & Hmap & ->).
  rewrite Hta in Hta'. apply Ok_inj in Hta'. injection Hta' as <- <-.
  fold opts in Hmap |- *.
  (* the thread passes the filters of the top level *)
  assert (Hk' : In k (children (filteredRoot opts threads root))).
  { unfold filteredRoot.
    change (hasSelected opts) with false. cbn match.
    change (opts_threadFilterFn opts) with (threadFilterFn options).
    destruct (threadFilterFn options) as [f|] eqn:Ef; [|exact Hk].
    cbn [children with_children]. apply filterRefs_In. split; [exact Hk|].
    exists o. split; [exact Ho|]. by apply Hf. }
  (* it is visible after the visibility pass *)
  apply mapThreadRef_children in Hmap as [_ Hmap].
  destruct (Forall2_In_l _ _ _ _ Hmap Hk') as (c & Hc & o' & _ & Ho' & _ & Hcore).
  rewrite Ho in Ho'. injection Ho' as <-.
  assert (Hkey : id o = k).
  { apply threadAnnotations_steps in Hta.
    refine (proj2 (proj2 (steps_invariant (keyedByAnnotation annotations)
                     (step_keyedByAnnotation annotations) _ _ Hta _ k o a Ho Ha))).
    intros k' t' a' Hk0 Ha0.
    apply initialThreads_fresh in Hk0 as (a0 & Hin & -> & ->).
    simpl in Ha0. injection Ha0 as <-. auto. }
  assert (Hvis : isVisible opts o = true).
  { apply isVisible_shown; [|eauto].
    by destruct (threadAnnotations_freshState _ _ _ _ Hta k o Ho). }
  assert (Hc_id : id (node c) = k /\ annotation (node c) = Some a
                  /\ visible (node c) = true).
  { change (id (node c)) with (id (core (node c))).
    change (annotation (node c)) with (annotation (core (node c))).
    change (visible (node c)) with (visible (core (node c))).
    rewrite Hcore. unfold core, setVisibility. cbn. auto. }
  destruct Hc_id as (Hid & Hann & Hv).
  (* it survives the removal of the threads that show nothing *)
  eexists. split.
  - eapply Permutation_in; [symmetry; apply projectThread_children_perm|].
    apply in_map. apply filter_In. split; [exact Hc|]. by rewrite Hv.
  - destruct (countRepliesAndDepth_view
                (sortThread (mapThread c (setStates opts))
                            (opts_replySortCompareFn opts) (opts_replySortCompareFn opts))
                (-1 + 1)) as [E1 _].
    destruct (sortThread_view (mapThread c (setStates opts))
                (opts_replySortCompareFn opts) (opts_replySortCompareFn opts)) as [E2 _].
    pose proof (mapThread_core c (setStates opts)) as E3.
    destruct (setStates_data opts c) as (D1 & D2 & _ & D4 & _).
    match goal with
    | |- id (node ?x) = _ /\ _ =>
        change (id (node x)) with (id (core (node x)));
        change (annotation (node x)) with (annotation (core (node x)));
        change (visible (node x)) with (visible (core (node x)))
    end.
    rewrite E1, E2, E3. unfold core. cbn [id annotation visible].
    rewrite D1, D2, D4. auto.
Qed.

Lemma empty_selected_is_no_selection_witness :
  exists result c,
    buildThread 3 [reply "A" []; reply "B" []] (with_selected noOptions (Some []))
    = Ok result
    /\ In c (children (node result))
    /\ id (node c) = "B"%string
    /\ annotation (node c) = Some (reply "B" [])
    /\ visible (node c) = true.
Proof.
  destruct (threadAnnotations 3 [reply "A" []; reply "B" []])
    as [[threads root]| |] eqn:Eta; [|vm_compute in Eta; discriminate..].
  destruct (buildThread 3 [reply "A" []; reply "B" []]
              (with_selected noOptions (Some [])))
    as [result| |] eqn:E; [|vm_compute in E; discriminate..].
  exists result.
  destruct (empty_selected_is_no_selection 3 [reply "A" []; reply "B" []] noOptions)
    as (_ & _ & H).
  vm_compute in Eta.
  destruct (H threads root result "B"%string
              (with_collapsed (newThread (reply "B" [])) true) (reply "B" []))
    as (c & Hc).
  - apply Ok_inj in Eta. injection Eta as <- <-. vm_compute. reflexivity.
  - exact E.
  - apply Ok_inj in Eta. injection Eta as <- <-. simpl. auto.
  - apply Ok_inj in Eta. injection Eta as <- <-. vm_compute. reflexivity.
  - reflexivity.
  - right. exact I.
  - discriminate.
  - exists c. split; [reflexivity|]. exact Hc.
Defined.
